(** * DynamicAutoDiffCostFunction::Evaluate

    A shallow embedding of [include/ceres/dynamic_autodiff_cost_function.h]
    and the properties of its strided evaluation.

    Conventions.
    - C++ [int] values (sizes, cursors, counters, [Stride]) are [Z].  Signed
      overflow is undefined behaviour in C++ and is not modelled: the sums
      of block sizes are taken in [Z].
    - Block indices [i] index the argument arrays and are [nat].
    - [double] is an abstract scalar type [T] with the two constants the
      engine writes ([0.0] and [1.0]); concrete runs instantiate [T] with
      Rocq's primitive binary64 floats.
    - Caller buffers are lists; a null pointer is [None].
    - The single-precision computation of [num_strides] is modelled with
      the IEEE-754 binary32 operations of [SpecFloat].

    Contents.
    - The model: [Evaluate] with its discovery walk, its seeding and
      scatter loops and its passes, and the events of a call.
    - The walk: the control skeleton the seeding and the scatter loop
      share, and the positions a pass handles.
    - Every block layout: no read past the section vector, the early
      return of a failed pass, the buffers a call writes.
    - Blocks of positive size: each pass handles the next [Stride] active
      positions, in order.
    - The stride count: exact below [2^24], one short at [2^24 + 1].
    - Values: the residuals of a functor whose instantiations agree, and
      the Jacobian entries of one whose dual numbers differentiate.
    - Around [Evaluate]: the array utilities of
      [internal/ceres/array_utils.cc], the dynamic functor of
      [internal/ceres/cost_function_to_functor_test.cc], and the
      ownership of the functor across constructors, moves and the
      destructor. *)

From Stdlib Require Import ZArith Lia Floats.
From Stdlib Require String.
From stdpp Require Import base list sorting gmap.

Open Scope Z_scope.

(** ** Numeric kinds *)

(** The numeric kind [T] a cost functor is instantiated at. *)
Class Scalar (T : Type) := {
  s_zero : T;
  s_one : T;
  s_add : T → T → T;
  s_mul : T → T → T;
}.

(** [Jet<double, Stride>]: a primal scalar [a] and a derivative vector
    [v] of [Stride] entries. *)
Record Jet (T : Type) := mkJet { jet_a : T; jet_v : list T }.
Arguments mkJet {T} _ _.
Arguments jet_a {T} _.
Arguments jet_v {T} _.

(** A cost functor: the templated [operator()] instantiated at [double]
    and at [Jet<double, Stride>].  Each instantiation receives the
    parameter blocks and the output buffer, and returns its [bool]
    together with the output buffer as it left it. *)
Record CostFunctor (T : Type) := {
  call_scalar : list (list T) → list T → bool * list T;
  call_jet : Z → list (list (Jet T)) → list (Jet T) → bool * list (Jet T);
}.
Arguments call_scalar {T} _ _ _.
Arguments call_jet {T} _ _ _ _.

(** ** The number of strides *)

Module Binary32.
(** [static_cast<float>] of an [int]: round to nearest, ties to even. *)
Definition of_int (n : Z) : spec_float := binary_normalize 24 128 n 0 false.

Definition div : spec_float → spec_float → spec_float := SFdiv 24 128.

(** The real value of a finite float, rounded up to an integer. *)
Definition ceil (x : spec_float) : option Z :=
  match x with
  | S754_zero _ => Some 0
  | S754_finite s m e =>
      let sm := if s then Zneg m else Zpos m in
      Some (match e with
            | Zneg k => - ((- sm) / Z.pow_pos 2 k)
            | _ => sm * 2 ^ e
            end)
  | _ => None
  end.

(** [static_cast<int>]: defined only when the value fits an [int]. *)
Definition to_int (r : Z) : option Z :=
  if (- 2 ^ 31 <=? r) && (r <? 2 ^ 31) then Some r else None.
End Binary32.

(** [static_cast<int>(ceil(num_active_parameters / static_cast<float>(Stride)))] *)
Definition num_strides (Stride num_active_parameters : Z) : option Z :=
  Binary32.ceil (Binary32.div (Binary32.of_int num_active_parameters)
                              (Binary32.of_int Stride))
  ≫= Binary32.to_int.

(** The exact ceiling of [n / d], for comparison. *)
Definition ceil_div (n d : Z) : Z := (n + d - 1) / d.

(** ** Observable steps of a call *)

Inductive event :=
  | EvCallScalar (ok : bool)
  | EvCallJet (pass : Z) (ok : bool)
  | EvSeed (pass : Z) (parameter_cursor : Z) (direction : Z)
  | EvJacobianWrite (block : nat) (residual : Z) (column : Z)
  | EvResidualWrite (residual : Z).

Global Instance event_eq_dec : EqDecision event.
Proof. solve_decision. Defined.

Inductive outcome (T : Type) :=
  | CheckFailed
  | SectionOutOfBounds
  | StrideCountUndefined
  | Returned (ok : bool) (residuals : list T)
             (jacobians : option (list (option (list T)))).
Arguments CheckFailed {T}.
Arguments SectionOutOfBounds {T}.
Arguments StrideCountUndefined {T}.
Arguments Returned {T} _ _ _.

(** ** Cursors of the stride loops *)

Record cursors := mkCursors {
  parameter_cursor : Z;
  active_parameter_count : Z;
  current_derivative_section : Z;
  current_derivative_section_cursor : Z;
}.

Inductive visit := Skip | Hit (direction : Z) | NextSection.

(** The guard shared by the seeding loop (lines 228-240) and the scatter
    loop (lines 257-272), followed by [parameter_cursor++].  [requested] is
    [jacobians[i] != nullptr].  The section start is only read when
    [active_parameter_count < Stride] holds (short-circuit [&&]); a read
    past the vector gives [None]. *)
Definition advance (Stride : Z) (start_derivative_section : list Z)
    (requested : bool) (c : cursors) : option (visit * cursors) :=
  let p := parameter_cursor c in
  if active_parameter_count c <? Stride then
    start ← start_derivative_section !! Z.to_nat (current_derivative_section c);
    if start + current_derivative_section_cursor c <=? p then
      if requested then
        Some (Hit (active_parameter_count c),
              mkCursors (p + 1) (active_parameter_count c + 1)
                        (current_derivative_section c)
                        (current_derivative_section_cursor c + 1))
      else
        Some (NextSection,
              mkCursors (p + 1) (active_parameter_count c)
                        (current_derivative_section c + 1) 0)
    else Some (Skip, mkCursors (p + 1) (active_parameter_count c)
                               (current_derivative_section c)
                               (current_derivative_section_cursor c))
  else Some (Skip, mkCursors (p + 1) (active_parameter_count c)
                             (current_derivative_section c)
                             (current_derivative_section_cursor c)).

(** [for (i...) for (j < parameter_block_sizes()[i]; ++j, parameter_cursor++)]:
    the pairs [(i, j)] in the order the nested loops visit them. *)
Fixpoint index_space (i : nat) (parameter_block_sizes : list Z) : list (nat * Z) :=
  match parameter_block_sizes with
  | [] => []
  | size :: rest => ((λ j, (i, j)) <$> seqZ 0 size) ++ index_space (S i) rest
  end.

Fixpoint for_each {S X : Type} (body : X → S → option S) (xs : list X) (s : S)
    : option S :=
  match xs with
  | [] => Some s
  | x :: rest => s' ← body x s; for_each body rest s'
  end.

Section Engine.
Context {T : Type} `{Scalar T}.

Definition zero_jet (Stride : Z) : Jet T :=
  mkJet s_zero (replicate (Z.to_nat Stride) s_zero).

Definition get {A} (d : A) (l : list A) (i : Z) : A :=
  default d (l !! Z.to_nat i).

Definition set_a (jets : list (Jet T)) (p : Z) (x : T) : list (Jet T) :=
  alter (λ jet, mkJet x (jet_v jet)) (Z.to_nat p) jets.

Definition set_v (jets : list (Jet T)) (p : Z) (v : list T) : list (Jet T) :=
  alter (λ jet, mkJet (jet_a jet) v) (Z.to_nat p) jets.

Definition set_v_entry (jets : list (Jet T)) (p d : Z) (x : T) : list (Jet T) :=
  alter (λ jet, mkJet (jet_a jet) (<[Z.to_nat d := x]> (jet_v jet)))
        (Z.to_nat p) jets.

(** [jacobians[i] != nullptr] *)
Definition requested (jacobians : list (option (list T))) (i : nat) : bool :=
  match jacobians !! i with
  | Some (Some _) => true
  | _ => false
  end.

(** *** Lines 159-187: discovery of the derivative sections *)

Record discovery := mkDiscovery {
  input_jets : list (Jet T);
  jet_parameters : list Z;
  start_derivative_section : list Z;
  in_derivative_section : bool;
  discovery_cursor : Z;
  num_active_parameters : Z;
}.

(** Lines 184-186: copy the values of one block. *)
Definition load_block (block : list T) (size : Z) (jets : list (Jet T))
    (cursor : Z) : list (Jet T) :=
  foldl (λ js j, set_a js (cursor + j) (get s_zero block j)) jets (seqZ 0 size).

Definition discover_block (parameters : list (list T))
    (jacobians : list (option (list T))) (i : nat) (size : Z)
    (d : discovery) : discovery :=
  let cursor := discovery_cursor d in
  let opens := requested jacobians i && negb (in_derivative_section d) in
  mkDiscovery
    (load_block (get [] parameters (Z.of_nat i)) size (input_jets d) cursor)
    (jet_parameters d ++ [cursor])
    (if opens then start_derivative_section d ++ [cursor]
     else start_derivative_section d)
    (requested jacobians i)
    (cursor + Z.max 0 size)
    (if requested jacobians i then num_active_parameters d + size
     else num_active_parameters d).

Fixpoint discover (parameters : list (list T))
    (jacobians : list (option (list T))) (i : nat)
    (parameter_block_sizes : list Z) (d : discovery) : discovery :=
  match parameter_block_sizes with
  | [] => d
  | size :: rest =>
      discover parameters jacobians (S i) rest
               (discover_block parameters jacobians i size d)
  end.

(** *** Lines 221-242: seeding one pass *)

Record seeding := mkSeeding {
  seed_jets : list (Jet T);
  seed_cursors : cursors;
  seed_log : list event;
}.

Definition seed_body (Stride : Z) (starts : list Z)
    (jacobians : list (option (list T))) (pass : Z) (ij : nat * Z)
    (s : seeding) : option seeding :=
  let p := parameter_cursor (seed_cursors s) in
  let jets := set_v (seed_jets s) p (replicate (Z.to_nat Stride) s_zero) in
  '(vis, c) ← advance Stride starts (requested jacobians ij.1) (seed_cursors s);
  match vis with
  | Hit d => Some (mkSeeding (set_v_entry jets p d s_one) c
                             (seed_log s ++ [EvSeed pass p d]))
  | _ => Some (mkSeeding jets c (seed_log s))
  end.

(** *** Lines 249-274: scattering one pass *)

Record scattering := mkScattering {
  scatter_jacobians : list (option (list T));
  scatter_cursors : cursors;
  scatter_log : list event;
}.

(** Lines 262-265: one column of one block. *)
Definition write_column (output_jets : list (Jet T)) (num_residuals : Z)
    (size j d : Z) (buffer : list T) : list T :=
  foldl (λ buf k, <[Z.to_nat (k * size + j) :=
                    get s_zero (jet_v (get (zero_jet 0) output_jets k)) d]> buf)
        buffer (seqZ 0 num_residuals).

Definition scatter_body (Stride : Z) (starts : list Z)
    (parameter_block_sizes : list Z) (num_residuals : Z)
    (output_jets : list (Jet T)) (ij : nat * Z) (s : scattering)
    : option scattering :=
  let '(i, j) := ij in
  let jacobians := scatter_jacobians s in
  '(vis, c) ← advance Stride starts (requested jacobians i) (scatter_cursors s);
  match vis with
  | Hit d =>
      let size := get 0 parameter_block_sizes (Z.of_nat i) in
      Some (mkScattering
              (alter (fmap (write_column output_jets num_residuals size j d))
                     i jacobians)
              c
              (scatter_log s ++
                 ((λ k, EvJacobianWrite i k j) <$> seqZ 0 num_residuals)))
  | _ => Some (mkScattering jacobians c (scatter_log s))
  end.

(** Lines 278-282: copy the residuals. *)
Definition copy_residuals (output_jets : list (Jet T)) (num_residuals : Z)
    (residuals : list T) : list T :=
  foldl (λ res k, <[Z.to_nat k := jet_a (get (zero_jet 0) output_jets k)]> res)
        residuals (seqZ 0 num_residuals).

(** The parameter pack handed to the functor: [jet_parameters[i]] points
    at the first jet of block [i] inside [input_jets]. *)
Definition jet_blocks (parameter_block_sizes : list Z) (jet_parameters : list Z)
    (jets : list (Jet T)) : list (list (Jet T)) :=
  zip_with (λ offset size, take (Z.to_nat size) (drop (Z.to_nat offset) jets))
           jet_parameters parameter_block_sizes.

(** *** Lines 214-283: the stride passes *)

Record pass_state := mkPassState {
  ps_jets : list (Jet T);
  ps_outputs : list (Jet T);
  ps_section : Z;
  ps_section_cursor : Z;
  ps_residuals : list T;
  ps_jacobians : list (option (list T));
  ps_log : list event;
}.

Definition finish (ok : bool) (s : pass_state) : outcome T * list event :=
  (Returned ok (ps_residuals s) (Some (ps_jacobians s)), ps_log s).

Section Passes.
Variable functor_ : CostFunctor T.
Variables (Stride : Z) (parameter_block_sizes : list Z) (num_residuals : Z).
Variables (starts jet_params : list Z) (strides : Z).

(** One iteration of [for (int pass = 0; pass < num_strides; ++pass)].
    [inl] is an early exit of [Evaluate]. *)
Definition run_pass (pass : Z) (s : pass_state)
    : outcome T * list event + pass_state :=
  let space := index_space 0 parameter_block_sizes in
  let initial := mkCursors 0 0 (ps_section s) (ps_section_cursor s) in
  match for_each (seed_body Stride starts (ps_jacobians s) pass) space
                 (mkSeeding (ps_jets s) initial (ps_log s)) with
  | None => inl (SectionOutOfBounds, ps_log s)
  | Some seeded =>
      let '(ok, outputs) :=
        call_jet functor_ Stride
                 (jet_blocks parameter_block_sizes jet_params (seed_jets seeded))
                 (ps_outputs s) in
      let log := seed_log seeded ++ [EvCallJet pass ok] in
      if negb ok then
        inl (Returned false (ps_residuals s) (Some (ps_jacobians s)), log)
      else
        match for_each (scatter_body Stride starts parameter_block_sizes
                                     num_residuals outputs) space
                       (mkScattering (ps_jacobians s) initial log) with
        | None => inl (SectionOutOfBounds, log)
        | Some scattered =>
            let c := scatter_cursors scattered in
            let last := bool_decide (pass = strides - 1) in
            inr (mkPassState
                   (seed_jets seeded) outputs
                   (current_derivative_section c)
                   (current_derivative_section_cursor c)
                   (if last then copy_residuals outputs num_residuals
                                                (ps_residuals s)
                    else ps_residuals s)
                   (scatter_jacobians scattered)
                   (if last then
                      scatter_log scattered ++
                        (EvResidualWrite <$> seqZ 0 num_residuals)
                    else scatter_log scattered))
        end
  end.

Fixpoint run_passes (passes : list Z) (s : pass_state)
    : outcome T * list event :=
  match passes with
  | [] => finish true s
  | pass :: rest =>
      match run_pass pass s with
      | inl exit => exit
      | inr s' => run_passes rest s'
      end
  end.
End Passes.

(** *** Lines 122-285: [Evaluate] *)

Definition direct (functor_ : CostFunctor T) (parameters : list (list T))
    (residuals : list T) (jacobians : option (list (option (list T))))
    : outcome T * list event :=
  let '(ok, residuals') := call_scalar functor_ parameters residuals in
  (Returned ok residuals' jacobians, [EvCallScalar ok]).

(** Lines 145-187: the scratch jets, all zero, then the discovery walk. *)
Definition discovery_walk (Stride : Z) (parameter_block_sizes : list Z)
    (parameters : list (list T)) (jacobians : list (option (list T)))
    : discovery :=
  let num_parameters := foldl Z.add 0 parameter_block_sizes in
  discover parameters jacobians 0 parameter_block_sizes
           (mkDiscovery (replicate (Z.to_nat num_parameters) (zero_jet Stride))
                        [] [] false 0 0).

(** Line 203: [start_derivative_section.push_back(parameter_cursor)]. *)
Definition section_starts (d : discovery) : list Z :=
  start_derivative_section d ++ [discovery_cursor d].

Definition Evaluate (functor_ : CostFunctor T) (Stride : Z)
    (parameter_block_sizes : list Z) (num_residuals : Z)
    (parameters : list (list T)) (residuals : list T)
    (jacobians : option (list (option (list T))))
    : outcome T * list event :=
  if negb (0 <? num_residuals) then (CheckFailed, [])
  else
    match jacobians with
    | None => direct functor_ parameters residuals None
    | Some slots =>
        let d := discovery_walk Stride parameter_block_sizes parameters slots in
        if bool_decide (num_active_parameters d = 0) then
          direct functor_ parameters residuals (Some slots)
        else
          match num_strides Stride (num_active_parameters d) with
          | None => (StrideCountUndefined, [])
          | Some strides =>
              run_passes functor_ Stride parameter_block_sizes num_residuals
                         (section_starts d) (jet_parameters d) strides
                         (seqZ 0 strides)
                         (mkPassState (input_jets d)
                                      (replicate (Z.to_nat num_residuals)
                                                 (zero_jet Stride))
                                      0 0 residuals slots [])
          end
    end.
End Engine.

Arguments discovery : clear implicits.
Arguments seeding : clear implicits.
Arguments scattering : clear implicits.
Arguments pass_state : clear implicits.

(** ** Dual-number arithmetic and concrete functors *)

(** Modelled from the spec: the dual-number primitive of [ceres/jet.h],
    which is not part of the sources at hand.  Section 4.1 of the
    specification asks for the arithmetic closure whose derivative vector
    follows the chain rule; sums and products are all the functors below
    use. *)
Definition jet_of_scalar {T} `{Scalar T} (Stride : Z) (x : T) : Jet T :=
  mkJet x (replicate (Z.to_nat Stride) s_zero).

Definition jet_add {T} `{Scalar T} (f g : Jet T) : Jet T :=
  mkJet (s_add (jet_a f) (jet_a g)) (zip_with s_add (jet_v f) (jet_v g)).

Definition jet_mul {T} `{Scalar T} (f g : Jet T) : Jet T :=
  mkJet (s_mul (jet_a f) (jet_a g))
        (zip_with s_add (s_mul (jet_a f) <$> jet_v g)
                        ((λ x, s_mul x (jet_a g)) <$> jet_v f)).

Definition Jet_Scalar {T} `{Scalar T} (Stride : Z) : Scalar (Jet T) :=
  {| s_zero := jet_of_scalar Stride s_zero;
     s_one := jet_of_scalar Stride s_one;
     s_add := jet_add;
     s_mul := jet_mul |}.

(** A functor written once for every numeric kind, instantiated at the
    plain scalar and at the jets of each stride. *)
Definition instantiate {T} `{Scalar T}
    (f : ∀ U, Scalar U → list (list U) → list U → bool * list U)
    : CostFunctor T :=
  {| call_scalar := f T _;
     call_jet Stride := f (Jet T) (Jet_Scalar Stride) |}.

Global Instance float_Scalar : Scalar float :=
  {| s_zero := 0%float; s_one := 1%float;
     s_add := PrimFloat.add; s_mul := PrimFloat.mul |}.

(** [f(x1, x2) = [x1[0]^2 + x2[0]^2, x1[1]^2 + x2[1]^2]] *)
Definition squares (U : Type) (SU : Scalar U) (parameters : list (list U))
    (residuals : list U) : bool * list U :=
  let x (i j : Z) := get s_zero (get [] parameters i) j in
  let r0 := s_add (s_mul (x 0 0) (x 0 0)) (s_mul (x 1 0) (x 1 0)) in
  let r1 := s_add (s_mul (x 0 1) (x 0 1)) (s_mul (x 1 1) (x 1 1)) in
  (true, <[1%nat := r1]> (<[0%nat := r0]> residuals)).


(** [f(x) = [x[0]^2]]: one residual of one parameter block. *)
Definition first_squared (U : Type) (SU : Scalar U) (parameters : list (list U))
    (residuals : list U) : bool * list U :=
  let x0 := get s_zero (get [] parameters 0) 0 in
  (true, <[0%nat := s_mul x0 x0]> residuals).

(** A functor that always reports failure and writes nothing. *)
Definition never (U : Type) (SU : Scalar U) (parameters : list (list U))
    (residuals : list U) : bool * list U :=
  (false, residuals).

(** A functor over [double] whose dual-number instantiation fails exactly
    when the first parameter of block 1 carries the seed of direction 0,
    and otherwise behaves as [squares]. *)
Definition picky : CostFunctor float :=
  {| call_scalar := squares float _;
     call_jet Stride blocks outputs :=
       let seed := get 0%float (jet_v (get (zero_jet 0) (get [] blocks 1) 0)) 0 in
       if PrimFloat.eqb seed 1 then (false, outputs)
       else squares (Jet float) (Jet_Scalar Stride) blocks outputs |}.

(** ** Specification vocabulary *)

(** The positions a loop over [xs] hits, with their derivative
    directions, and the cursors it ends with: the control skeleton shared
    by the seeding and the scatter loop. *)
Fixpoint walk {X : Type} (Stride : Z) (starts : list Z) (act : X → bool)
    (xs : list X) (c : cursors) : option (list (X * Z * Z) * cursors) :=
  match xs with
  | [] => Some ([], c)
  | x :: rest =>
      '(vis, c1) ← advance Stride starts (act x) c;
      '(hits, c2) ← walk Stride starts act rest c1;
      Some (match vis with
            | Hit d => (x, parameter_cursor c, d) :: hits
            | _ => hits
            end, c2)
  end.

(** The active items of [xs], numbered from position [p] and direction [d]. *)
Fixpoint hits_of {X : Type} (act : X → bool) (p d : Z) (xs : list X)
    : list (X * Z * Z) :=
  match xs with
  | [] => []
  | x :: rest =>
      if act x then (x, p, d) :: hits_of act (p + 1) (d + 1) rest
      else hits_of act (p + 1) d rest
  end.

(** Number of active items. *)
Definition count_active {X : Type} (act : X → bool) (xs : list X) : Z :=
  Z.of_nat (length (filter (λ x, act x = true) xs)).

(** Starts of the maximal runs of active positions in [acts], which begin
    at position [p] after a position of activity [prev]; the total count
    closes the list. *)
Fixpoint run_starts (prev : bool) (p : Z) (acts : list bool) : list Z :=
  match acts with
  | [] => [p]
  | a :: rest =>
      if a && negb prev then p :: run_starts a (p + 1) rest
      else run_starts a (p + 1) rest
  end.

Definition last_flag (prev : bool) (acts : list bool) : bool :=
  foldl (λ _ a, a) prev acts.

(** The section cursors [(sec, cur)] point at position [p]: every active
    position before [p] has been handled, [acts] are the positions from [p]
    on, and [prev] is the activity of position [p - 1]. *)
Definition Frontier (starts : list Z) (p : Z) (prev : bool) (acts : list bool)
    (sec cur : Z) : Prop :=
  0 ≤ sec ∧
  if prev
  then ∃ s, drop (Z.to_nat sec) starts = s :: run_starts true p acts ∧ s + cur = p
  else cur = 0 ∧ drop (Z.to_nat sec) starts = run_starts false p acts.

(** [n] more steps of [parameter_cursor++]. *)
Definition shift_cursor (c : cursors) (n : Z) : cursors :=
  mkCursors (parameter_cursor c + n) (active_parameter_count c)
            (current_derivative_section c) (current_derivative_section_cursor c).

(** Which slots of a Jacobian request are non-null, and the length of
    their buffers. *)
Definition shape {T} (jacobians : list (option (list T))) : list (option nat) :=
  (λ slot : option (list T), length <$> slot) <$> jacobians.

(** The events of one pass, given the positions [hits] it handles. *)
Definition seed_events (pass : Z) (hits : list (nat * Z * Z * Z)) : list event :=
  (λ h, EvSeed pass h.1.2 h.2) <$> hits.

Definition write_events (num_residuals : Z) (hits : list (nat * Z * Z * Z))
    : list event :=
  hits ≫= λ h, (λ k, EvJacobianWrite h.1.1.1 k h.1.1.2) <$> seqZ 0 num_residuals.

(** Projections of a call's events. *)
Definition seeded (log : list event) : list Z :=
  omap (λ e, match e with EvSeed _ p _ => Some p | _ => None end) log.

Definition written (log : list event) : list (nat * Z * Z) :=
  omap (λ e, match e with EvJacobianWrite i k j => Some (i, k, j) | _ => None end)
       log.

Definition jet_calls (log : list event) : list bool :=
  omap (λ e, match e with EvCallJet _ ok => Some ok | _ => None end) log.

Definition scalar_calls (log : list event) : list bool :=
  omap (λ e, match e with EvCallScalar ok => Some ok | _ => None end) log.

Definition residual_writes (log : list event) : list Z :=
  omap (λ e, match e with EvResidualWrite k => Some k | _ => None end) log.

(** The flattened parameter space of a call: position [p] is the [p]-th
    pair of [index_space 0 sizes]; it is active when its block has a
    non-null Jacobian slot. *)
Definition active {T} (slots : list (option (list T))) (ij : nat * Z) : bool :=
  requested slots ij.1.

Definition positions_of (hits : list (nat * Z * Z * Z)) : list Z :=
  (λ h, h.1.2) <$> hits.

Definition columns_of (num_residuals : Z) (hits : list (nat * Z * Z * Z))
    : list (nat * Z * Z) :=
  hits ≫= λ h, (λ k, (h.1.1.1, k, h.1.1.2)) <$> seqZ 0 num_residuals.

(** The state between two passes: the positions [xs1] are behind the
    frontier, the positions [xs2] ahead of it. *)
Definition between_passes {T} (sizes starts : list Z)
    (slots : list (option (list T))) (xs1 xs2 : list (nat * Z))
    (s : pass_state T) : Prop :=
  index_space 0 sizes = xs1 ++ xs2 ∧
  shape (ps_jacobians s) = shape slots ∧
  Frontier starts (Z.of_nat (length xs1)) (last_flag false (active slots <$> xs1))
           (active slots <$> xs2) (ps_section s) (ps_section_cursor s).

(** The section index stays inside [start_derivative_section], whose last
    entry is the total parameter count [N]. *)
Definition in_bounds (starts : list Z) (N sec cur : Z) : Prop :=
  0 ≤ sec ∧ 0 ≤ cur ∧
  ∃ front, starts = front ++ [N] ∧ (Z.to_nat sec ≤ length front)%nat.

(** The dual numbers of a pass carry the parameter values [x], and each
    has [Stride] derivative entries. *)
Definition jets_carry {T} (Stride : Z) (x : list T) (jets : list (Jet T)) : Prop :=
  jet_a <$> jets = x ∧
  Forall (λ jet, length (jet_v jet) = Z.to_nat Stride) jets.

(** The state between two passes, whatever the block layout: the section
    index is in bounds and the scratch jets cover at most the positions
    the loops visit. *)
Definition pass_inv {T} (sizes starts : list Z) (N : Z) (s : pass_state T) : Prop :=
  in_bounds starts N (ps_section s) (ps_section_cursor s) ∧
  (length (ps_jets s) ≤ length (index_space 0 sizes))%nat.

(** The dual-number invocation of a pass, on the seeded jets [jets]. *)
Definition pass_call {T} (functor_ : CostFunctor T) (Stride : Z)
    (sizes jet_params : list Z) (jets outputs : list (Jet T))
    : bool * list (Jet T) :=
  call_jet functor_ Stride (jet_blocks sizes jet_params jets) outputs.

(** The blocks [sizes] given at [offsets] inside a flat list. *)
Definition blocks_at {A} (sizes offsets : list Z) (l : list A) : list (list A) :=
  zip_with (λ offset size, take (Z.to_nat size) (drop (Z.to_nat offset) l))
           offsets sizes.

(** Where the blocks start when laid end to end from position [c]. *)
Fixpoint block_offsets (c : Z) (sizes : list Z) : list Z :=
  match sizes with
  | [] => []
  | size :: rest => c :: block_offsets (c + Z.max 0 size) rest
  end.

(** The caller passes one array per block, of the block's size. *)
Definition well_formed {T} (sizes : list Z) (parameters : list (list T)) : Prop :=
  Forall2 (λ size block, Z.of_nat (length block) = size) sizes parameters.

(** The primal values of a list of dual numbers. *)
Definition primal {T} (jets : list (Jet T)) : list T := jet_a <$> jets.

(** Section 4.2 of the specification: the functor, instantiated at the
    plain scalars and at the dual numbers, produces consistent primal
    values.  [value] is the function it computes: [None] when it reports
    failure. *)
Record consistent {T} (f : CostFunctor T) (num_residuals : Z)
    (value : list (list T) → option (list T)) : Prop := {
  value_length : ∀ x r,
    value x = Some r → length r = Z.to_nat num_residuals;
  scalar_value : ∀ x residuals r,
    length residuals = Z.to_nat num_residuals →
    value x = Some r → call_scalar f x residuals = (true, r);
  jet_value : ∀ Stride blocks outputs r,
    Forall (Forall (λ jet : Jet T, length (jet_v jet) = Z.to_nat Stride))
           blocks →
    length outputs = Z.to_nat num_residuals →
    value (primal <$> blocks) = Some r →
    (call_jet f Stride blocks outputs).1 = true ∧
    primal (call_jet f Stride blocks outputs).2 = r;
}.

(** The value [squares] computes. *)
Definition squares_value {T} `{Scalar T} (x : list (list T)) : option (list T) :=
  Some (squares T _ x [s_zero; s_zero]).2.

(** The conversion of the stride count to [int] is defined for the
    request [jacobians] (it is not when the quotient exceeds the range of
    [int]). *)
Definition stride_count_defined {T} `{Scalar T} (Stride : Z) (sizes : list Z)
    (parameters : list (list T)) (jacobians : option (list (option (list T))))
    : Prop :=
  match jacobians with
  | None => True
  | Some slots =>
      let n := num_active_parameters
                 (discovery_walk Stride sizes parameters slots) in
      n = 0 ∨ is_Some (num_strides Stride n)
  end.

(** Derivative direction [d] of [jets] is the unit vector of position
    [p]: the jet at [p] carries [1] there, every other jet [0]. *)
Definition one_hot_at {T} `{Scalar T} (d p : nat) (jets : list (Jet T)) : Prop :=
  ∀ q jet, jets !! q = Some jet →
    jet_v jet !! d = Some (if decide (q = p) then s_one else s_zero).

(** Sections 3 and 4.1 of the specification: after the dual-number
    instantiation has run on one-hot seeded inputs, entry [d] of the
    derivative vector of output [k] is the partial derivative of that
    output with respect to the position seeded in direction [d].
    [partial x k p] is that derivative at the parameter values [x]. *)
Record differentiates {T} `{Scalar T} (f : CostFunctor T) (num_residuals : Z)
    (partial : list (list T) → nat → nat → T) : Prop := {
  jet_partial : ∀ Stride blocks outputs d p k out,
    Forall (Forall (λ jet : Jet T, length (jet_v jet) = Z.to_nat Stride))
           blocks →
    length outputs = Z.to_nat num_residuals →
    (d < Z.to_nat Stride)%nat →
    (p < length (concat blocks))%nat →
    one_hot_at d p (concat blocks) →
    (call_jet f Stride blocks outputs).2 !! k = Some out →
    jet_v out !! d = Some (partial (primal <$> blocks) k p);
}.

(** The Jacobian writes of the positions [hits] of one pass, lines
    262-265 for each of them. *)
Definition scatter_writes {T} `{Scalar T} (output_jets : list (Jet T))
    (num_residuals : Z) (parameter_block_sizes : list Z)
    (hits : list (nat * Z * Z * Z)) (jacobians : list (option (list T)))
    : list (option (list T)) :=
  foldl (λ jac h,
           alter (fmap (write_column output_jets num_residuals
                          (get 0 parameter_block_sizes (Z.of_nat h.1.1.1))
                          h.1.1.2 h.2))
                 h.1.1.1 jac)
        jacobians hits.

(** The columns of the positions [xs], numbered from 0, hold the partial
    derivatives in every requested buffer. *)
Definition jacobian_done {T} (partial : nat → nat → T) (sizes : list Z)
    (num_residuals : Z) (xs : list (nat * Z)) (jac : list (option (list T)))
    : Prop :=
  ∀ n i j b k,
    xs !! n = Some (i, j) → jac !! i = Some (Some b) → 0 ≤ k < num_residuals →
    b !! Z.to_nat (k * get 0 sizes (Z.of_nat i) + j)
      = Some (partial (Z.to_nat k) n).

(** Every requested buffer has [num_residuals * block_size] entries. *)
Definition buffers_sized {T} (sizes : list Z) (num_residuals : Z)
    (slots : list (option (list T))) : Prop :=
  ∀ i b, slots !! i = Some (Some b) →
    length b = Z.to_nat (num_residuals * get 0 sizes (Z.of_nat i)).

(** The seed a one-hot direction of position [p] gives element [k] of
    block [i]: one when that element is position [p], zero otherwise. *)
Definition seed_of {T} `{Scalar T} (x : list (list T)) (i k : Z) (p : nat) : T :=
  if decide (Z.to_nat k < length (get [] x i) ∧
             p = length (concat (take (Z.to_nat i) x)) + Z.to_nat k)%nat
  then s_one else s_zero.

(** The partial derivatives [squares] computes, with the operations of
    the dual-number product and sum. *)
Definition squares_partial {T} `{Scalar T} (x : list (list T)) (k p : nat) : T :=
  let term i :=
    let a := get s_zero (get [] x i) (Z.of_nat k) in
    let e := seed_of x i (Z.of_nat k) p in
    s_add (s_mul a e) (s_mul e a) in
  s_add (term 0) (term 1).

(** ** Further vocabulary *)

(** The call returned [true]. *)
Definition returned_true {T} (o : outcome T) : bool :=
  match o with
  | Returned true _ _ => true
  | _ => false
  end.

(** * [internal/ceres/array_utils.cc]

    Arrays of [double] are lists of binary64 floats, a null pointer is
    [None], [int64_t] sizes are [Z].  A function that reads or writes
    outside its array has no defined result: [None]. *)

Module ArrayUtils.
Import String.StringSyntax.
Local Delimit Scope string_scope with string.

(** [x[i] = v] *)
Definition store {A} (i : Z) (v : A) (x : list A) : option (list A) :=
  if decide (Z.to_nat i < length x)%nat then Some (<[Z.to_nat i := v]> x)
  else None.

Section Sentinel.
(** [kImpossibleValue], a [double] constant that [array_utils.h]
    declares: the functions are modelled for any value of it. *)
Variable kImpossibleValue : float.

(** The test of lines 47 and 61:
    [!std::isfinite(x[i]) || (x[i] == kImpossibleValue)]. *)
Definition invalid_value (v : float) : bool :=
  negb (PrimFloat.is_finite v) || PrimFloat.eqb v kImpossibleValue.

(** Lines 46-50: the loop of [IsArrayValid] over the indices left. *)
Fixpoint IsArrayValid_loop (x : list float) (indices : list Z) : option bool :=
  match indices with
  | [] => Some true
  | i :: rest =>
      v ← x !! Z.to_nat i;
      if invalid_value v then Some false else IsArrayValid_loop x rest
  end.

(** Lines 44-53. *)
Definition IsArrayValid (size : Z) (x : option (list float)) : option bool :=
  match x with
  | None => Some true
  | Some a => IsArrayValid_loop a (seqZ 0 size)
  end.

(** Lines 60-66: the loop of [FindInvalidValue]. *)
Fixpoint FindInvalidValue_loop (size : Z) (x : list float) (indices : list Z)
    : option Z :=
  match indices with
  | [] => Some size
  | i :: rest =>
      v ← x !! Z.to_nat i;
      if invalid_value v then Some i else FindInvalidValue_loop size x rest
  end.

(** Lines 55-67. *)
Definition FindInvalidValue (size : Z) (x : option (list float)) : option Z :=
  match x with
  | None => Some size
  | Some a => FindInvalidValue_loop size a (seqZ 0 size)
  end.

(** Lines 69-75. *)
Definition InvalidateArray (size : Z) (x : option (list float))
    : option (option (list float)) :=
  match x with
  | None => Some None
  | Some a =>
      Some <$> for_each (λ i, store i kImpossibleValue) (seqZ 0 size) a
  end.

(** The text [absl::StrAppendFormat(result, "%12g ", v)] appends. *)
Variable format_12g : float → String.string.

(** Lines 81-89: one iteration of the loop of [AppendArrayToString]. *)
Definition AppendArrayToString_body (x : option (list float)) (i : Z)
    (result : String.string) : option String.string :=
  match x with
  | None => Some (String.append result "Not Computed  ")
  | Some a =>
      v ← a !! Z.to_nat i;
      Some (String.append result
              (if PrimFloat.eqb v kImpossibleValue then "Uninitialized "
               else format_12g v))
  end.

(** Lines 77-91. *)
Definition AppendArrayToString (size : Z) (x : option (list float))
    (result : String.string) : option String.string :=
  for_each (AppendArrayToString_body x) (seqZ 0 size) result.
End Sentinel.

(** [n] copies of a text, one after the other. *)
Fixpoint copies (n : nat) (s : String.string) : String.string :=
  match n with
  | O => ""%string
  | S n' => String.append s (copies n' s)
  end.

(** [std::sort] on [int]: the values in ascending order. *)
Definition sort (l : list Z) : list Z := merge_sort Z.le l.

(** [std::unique]: every element equal to the one before it is dropped. *)
Fixpoint unique_after (previous : Z) (l : list Z) : list Z :=
  match l with
  | [] => []
  | x :: rest =>
      if decide (x = previous) then unique_after previous rest
      else x :: unique_after x rest
  end.

Definition unique (l : list Z) : list Z :=
  match l with
  | [] => []
  | x :: rest => x :: unique_after x rest
  end.

(** [std::lower_bound(first, last, v) - first] on a range partitioned
    by [< v]: the number of leading elements less than [v]. *)
Fixpoint lower_bound (l : list Z) (v : Z) : Z :=
  match l with
  | [] => 0
  | x :: rest => if decide (x < v) then 1 + lower_bound rest v else 0
  end.

(** The conversion of the iterator difference, a [ptrdiff_t], to [int]:
    the value modulo [2^32]. *)
Definition to_int (d : Z) : Z := (d + 2 ^ 31) `mod` 2 ^ 32 - 2 ^ 31.

(** Lines 99-103: [array[i] = lower_bound(unique_values, array[i])]. *)
Definition MapValues_body (unique_values : list Z) (i : Z) (array : list Z)
    : option (list Z) :=
  v ← array !! Z.to_nat i;
  store i (to_int (lower_bound unique_values v)) array.

(** Lines 93-104.  The copy of line 94 reads [array[0 .. size)]. *)
Definition MapValuesToContiguousRange (size : Z) (array : list Z)
    : option (list Z) :=
  if decide (0 ≤ size ≤ Z.of_nat (length array)) then
    let unique_values := unique (sort (take (Z.to_nat size) array)) in
    for_each (MapValues_body unique_values) (seqZ 0 size) array
  else None.
End ArrayUtils.

(** * [internal/ceres/cost_function_to_functor_test.cc] *)

(** Lines 292-303, [DynamicTwoParameterBlockFunctor::operator()]: the
    loop over the two blocks stores into the same two residuals on each
    round.  A read outside the arrays gives zero, as for [squares]. *)
Definition DynamicTwoParameterBlockFunctor (U : Type) (SU : Scalar U)
    (parameters : list (list U)) (residuals : list U) : bool * list U :=
  let x (i j : Z) := get s_zero (get [] parameters i) j in
  let body (residuals : list U) (i : Z) :=
    <[1%nat := s_mul (x i 1) (x i 1)]>
      (<[0%nat := s_mul (x i 0) (x i 0)]> residuals) in
  (true, foldl body residuals (seqZ 0 2)).

(** The residuals the functor leaves: the squares of the last block. *)
Definition DynamicTwoParameterBlockFunctor_value {T} `{Scalar T}
    (x : list (list T)) : option (list T) :=
  Some [s_mul (get s_zero (get [] x 1) 0) (get s_zero (get [] x 1) 0);
        s_mul (get s_zero (get [] x 1) 1) (get s_zero (get [] x 1) 1)].

(** Its partial derivatives, with the operations of the dual-number
    product. *)
Definition DynamicTwoParameterBlockFunctor_partial {T} `{Scalar T}
    (x : list (list T)) (k p : nat) : T :=
  let a := get s_zero (get [] x 1) (Z.of_nat k) in
  let e := seed_of x 1 (Z.of_nat k) p in
  s_add (s_mul a e) (s_mul e a).

(** * Ownership of the functor

    The constructors, the defaulted move operations and the destructor
    of [DynamicAutoDiffCostFunction].  A functor on the heap is named
    by its address, a [nat]; [std::unique_ptr<CostFunctor>] is an
    [option] of an address, and the deallocations are logged. *)

Module Lifetime.
Inductive Ownership := DO_NOT_TAKE_OWNERSHIP | TAKE_OWNERSHIP.

Global Instance Ownership_eq_dec : EqDecision Ownership.
Proof. solve_decision. Defined.

(** The members of lines 294-295. *)
Record cost_function := mkCostFunction {
  functor_ : option nat;
  ownership_ : Ownership;
}.

(** Lines 290-292, the constructor the public ones delegate to:
    lines 94-97 pass the raw pointer and the flag on, lines 99-100 and
    lines 86-91 pass [TAKE_OWNERSHIP]. *)
Definition construct (functor : option nat) (ownership : Ownership)
    : cost_function :=
  mkCostFunction functor ownership.

(** Lines 106-107, the defaulted move constructor: the new object takes
    the pointer, [other] keeps a null pointer and its flag. *)
Definition move_construct (other : cost_function)
    : cost_function * cost_function :=
  (mkCostFunction (functor_ other) (ownership_ other),
   mkCostFunction None (ownership_ other)).

(** Lines 108-109, the defaulted move assignment from another object:
    the move assignment of [functor_] deletes the functor the target
    held. Returns the target, [other] and the address deleted. *)
Definition move_assign (this other : cost_function)
    : cost_function * cost_function * option nat :=
  (mkCostFunction (functor_ other) (ownership_ other),
   mkCostFunction None (ownership_ other),
   functor_ this).

(** Lines 111-120: the body releases the pointer of an object that does
    not own its functor; the destructor of [functor_] then deletes what
    is left.  Returns the address deleted. *)
Definition destroy (this : cost_function) : option nat :=
  match ownership_ this with
  | DO_NOT_TAKE_OWNERSHIP => None
  | TAKE_OWNERSHIP => functor_ this
  end.

(** What deleted a functor. *)
Inductive cause := Destructor | MoveAssignment.

Global Instance cause_eq_dec : EqDecision cause.
Proof. solve_decision. Defined.

(** The statements of a client: cost functions are named by numbers. *)
Inductive statement :=
  | Construct (c : nat) (functor : option nat) (ownership : Ownership)
  | MoveConstruct (c other : nat)
  | MoveAssign (c other : nat)
  | Destroy (c : nat).

Record state := mkState {
  objects : gmap nat cost_function;
  deleted : list (nat * cause);
}.

Definition log (σ : state) (what : cause) (address : option nat) : state :=
  mkState (objects σ)
          (deleted σ ++ match address with
                        | Some p => [(p, what)]
                        | None => []
                        end).

Definition set_object (c : nat) (o : cost_function) (σ : state) : state :=
  mkState (<[c := o]> (objects σ)) (deleted σ).

(** One statement.  Naming a cost function that is not alive, or
    constructing one under a name in use, is not defined.  A move
    assignment of an object to itself leaves it as it is. *)
Definition step (s : statement) (σ : state) : option state :=
  match s with
  | Construct c functor ownership =>
      match objects σ !! c with
      | None => Some (set_object c (construct functor ownership) σ)
      | Some _ => None
      end
  | MoveConstruct c other =>
      match objects σ !! c, objects σ !! other with
      | None, Some o =>
          let '(new, o') := move_construct o in
          Some (set_object c new (set_object other o' σ))
      | _, _ => None
      end
  | MoveAssign c other =>
      match objects σ !! c, objects σ !! other with
      | Some this, Some o =>
          if decide (c = other) then Some σ
          else
            let '(this', o', gone) := move_assign this o in
            Some (log (set_object c this' (set_object other o' σ))
                      MoveAssignment gone)
      | _, _ => None
      end
  | Destroy c =>
      match objects σ !! c with
      | Some this =>
          Some (log (mkState (delete c (objects σ)) (deleted σ))
                    Destructor (destroy this))
      | None => None
      end
  end.

Definition run (program : list statement) (σ : state) : option state :=
  foldl (λ acc s, acc ≫= step s) (Some σ) program.

Definition initial : state := mkState ∅ [].

(** The functors a program hands to its cost functions, with the flag
    of each. *)
Definition given (program : list statement) : list (nat * Ownership) :=
  program ≫= λ s,
    match s with
    | Construct _ (Some p) ownership => [(p, ownership)]
    | _ => []
    end.
(** The statement names cost function [c]. *)
Definition mentions (s : statement) (c : nat) : Prop :=
  match s with
  | Construct c' _ _ | Destroy c' => c' = c
  | MoveConstruct c' other | MoveAssign c' other => c' = c ∨ other = c
  end.

(** Cost function [c] is alive and holds the functor at [p], with flag
    [o]. *)
Definition holds (σ : state) (c p : nat) (o : Ownership) : Prop :=
  objects σ !! c = Some (mkCostFunction (Some p) o).

Record invariant (g : list (nat * Ownership)) (σ : state) : Prop := {
  given_once : NoDup g.*1;
  held_given : ∀ c p o, holds σ c p o → (p, o) ∈ g;
  held_once : ∀ c1 c2 p o1 o2, holds σ c1 p o1 → holds σ c2 p o2 → c1 = c2;
  held_alive : ∀ c p o, holds σ c p o → p ∉ (deleted σ).*1;
  deleted_once : NoDup (deleted σ).*1;
  deleted_given : ∀ p, p ∈ (deleted σ).*1 → p ∈ g.*1;
  destructor_owned :
    ∀ p, (p, Destructor) ∈ deleted σ → (p, TAKE_OWNERSHIP) ∈ g;
  given_kept :
    ∀ p, (p, TAKE_OWNERSHIP) ∈ g →
         p ∈ (deleted σ).*1 ∨ ∃ c, holds σ c p TAKE_OWNERSHIP;
}.
End Lifetime.

(** ** The walk *)

Lemma walk_app {X} Stride starts (act : X → bool) xs ys c :
  walk Stride starts act (xs ++ ys) c =
  '(h1, c1) ← walk Stride starts act xs c;
  '(h2, c2) ← walk Stride starts act ys c1; Some (h1 ++ h2, c2).
Proof.
  revert c. induction xs as [|x xs IH]; intros c; simpl.
  - destruct (walk _ _ _ ys c) as [[h2 c2]|]; reflexivity.
  - destruct (advance Stride starts (act x) c) as [[vis c1]|]; simpl; [|done].
    rewrite IH. destruct (walk _ _ _ xs c1) as [[h1 c1']|]; simpl; [|done].
    destruct (walk _ _ _ ys c1') as [[h2 c2]|]; simpl; [|done].
    destruct vis; reflexivity.
Qed.

Lemma walk_ext {X} Stride starts (act act' : X → bool) xs c :
  (∀ x, act x = act' x) →
  walk Stride starts act xs c = walk Stride starts act' xs c.
Proof.
  intros E. revert c. induction xs as [|x xs IH]; intros c; simpl; [done|].
  rewrite E. destruct (advance _ _ _ _) as [[vis c1]|]; simpl; [|done].
  by rewrite IH.
Qed.


Lemma shift_cursor_0 c : shift_cursor c 0 = c.
Proof. destruct c; unfold shift_cursor; simpl. f_equal; lia. Qed.

Lemma shift_cursor_add c n m :
  shift_cursor (shift_cursor c n) m = shift_cursor c (n + m).
Proof. unfold shift_cursor; simpl. f_equal; lia. Qed.

(** Once [Stride] directions are taken, the rest of the loop changes
    nothing, and reads no section start. *)
Lemma walk_frozen {X} Stride starts (act : X → bool) xs c :
  Stride ≤ active_parameter_count c →
  walk Stride starts act xs c = Some ([], shift_cursor c (Z.of_nat (length xs))).
Proof.
  revert c. induction xs as [|x xs IH]; intros c Hc.
  - simpl. by rewrite shift_cursor_0.
  - cbn [walk]. unfold advance.
    destruct (Z.ltb_spec (active_parameter_count c) Stride); [lia|].
    cbn. rewrite IH by (simpl; lia). cbn.
    do 2 f_equal. unfold shift_cursor; simpl. f_equal; lia.
Qed.

(** Positions before the frontier are passed over. *)
Lemma walk_skip {X} Stride starts (act : X → bool) xs c s :
  starts !! Z.to_nat (current_derivative_section c) = Some s →
  parameter_cursor c + Z.of_nat (length xs)
    ≤ s + current_derivative_section_cursor c →
  walk Stride starts act xs c = Some ([], shift_cursor c (Z.of_nat (length xs))).
Proof.
  revert c. induction xs as [|x xs IH]; intros c Hs Hle.
  - simpl. by rewrite shift_cursor_0.
  - cbn [walk]. unfold advance. rewrite Hs. cbn [mbind option_bind].
    cbn [length] in Hle.
    assert (walk Stride starts act xs (shift_cursor c 1) =
            Some ([], shift_cursor (shift_cursor c 1) (Z.of_nat (length xs)))) as E.
    { apply IH; simpl; [done|lia]. }
    rewrite shift_cursor_add in E.
    replace (1 + Z.of_nat (length xs)) with (Z.of_nat (length (x :: xs))) in E
      by (cbn [length]; lia).
    destruct (Z.ltb_spec (active_parameter_count c) Stride).
    + destruct (Z.leb_spec (s + current_derivative_section_cursor c)
                           (parameter_cursor c)); [lia|].
      cbn. unfold shift_cursor in E at 1. rewrite E. reflexivity.
    + cbn. unfold shift_cursor in E at 1. rewrite E. reflexivity.
Qed.

Lemma run_starts_head prev p acts :
  ∃ s rest, run_starts prev p acts = s :: rest ∧ p ≤ s.
Proof.
  revert prev p. induction acts as [|a acts IH]; intros prev p; simpl.
  - exists p, []. split; [done|lia].
  - destruct (a && negb prev).
    + eexists _, _. split; [done|lia].
    + destruct (IH a (p + 1)) as (s & rest & -> & ?).
      exists s, rest. split; [done|lia].
Qed.

Lemma count_active_nil {X} (act : X → bool) : count_active act [] = 0.
Proof. reflexivity. Qed.

Lemma count_active_cons {X} (act : X → bool) x xs :
  count_active act (x :: xs) =
  (if act x then 1 else 0) + count_active act xs.
Proof.
  unfold count_active. rewrite filter_cons.
  destruct (act x); destruct (decide _); try done; cbn [length]; lia.
Qed.

Lemma count_active_app {X} (act : X → bool) xs ys :
  count_active act (xs ++ ys) = count_active act xs + count_active act ys.
Proof.
  unfold count_active. rewrite filter_app, length_app. lia.
Qed.

Lemma count_active_nonneg {X} (act : X → bool) xs : 0 ≤ count_active act xs.
Proof. unfold count_active. lia. Qed.

Lemma drop_cons_lookup {A} (l : list A) n x rest :
  drop n l = x :: rest → l !! n = Some x ∧ drop (S n) l = rest.
Proof.
  revert l. induction n as [|n IH]; intros [|y l]; simpl; try done.
  - intros [= -> ->]. done.
  - apply IH.
Qed.

(** The walk from the frontier on: the active positions are hit in order
    until [Stride] directions are taken or the positions run out, and the
    cursors again point at the frontier. *)
Lemma walk_track {X} Stride starts (act : X → bool) xs : ∀ c prev,
  Frontier starts (parameter_cursor c) prev (act <$> xs)
           (current_derivative_section c) (current_derivative_section_cursor c) →
  0 ≤ active_parameter_count c ≤ Stride →
  ∃ xs1 xs2 c',
    xs = xs1 ++ xs2 ∧
    walk Stride starts act xs c =
      Some (hits_of act (parameter_cursor c) (active_parameter_count c) xs1, c') ∧
    parameter_cursor c' = parameter_cursor c + Z.of_nat (length xs) ∧
    active_parameter_count c' = active_parameter_count c + count_active act xs1 ∧
    active_parameter_count c' ≤ Stride ∧
    Frontier starts (parameter_cursor c + Z.of_nat (length xs1))
             (last_flag prev (act <$> xs1)) (act <$> xs2)
             (current_derivative_section c')
             (current_derivative_section_cursor c') ∧
    (active_parameter_count c' = Stride ∨ xs2 = []).
Proof.
  induction xs as [|x xs IH]; intros [p cnt sec cur] prev HF Hc; simpl in *.
  { exists [], [], (mkCursors p cnt sec cur). simpl.
    rewrite count_active_nil, !Z.add_0_r. split_and!; auto; lia. }
  destruct (decide (cnt = Stride)) as [->|Hne].
  { exists [], (x :: xs), (shift_cursor (mkCursors p Stride sec cur)
                                        (Z.of_nat (length (x :: xs)))).
    split; [done|]. split.
    { change (walk Stride starts act (x :: xs) (mkCursors p Stride sec cur) = 
              Some ([], shift_cursor (mkCursors p Stride sec cur)
                                     (Z.of_nat (length (x :: xs))))).
      apply walk_frozen. simpl. lia. }
    simpl. rewrite count_active_nil, !Z.add_0_r.
    split_and!; auto; lia. }
  unfold advance; simpl.
  destruct (Z.ltb_spec cnt Stride) as [_|]; [|lia].
  destruct HF as [Hsec HF].
  (* the four cases of the step *)
  assert (∃ vis c1,
    (start ← starts !! Z.to_nat sec;
     if start + cur <=? p
     then if act x
          then Some (Hit cnt, mkCursors (p + 1) (cnt + 1) sec (cur + 1))
          else Some (NextSection, mkCursors (p + 1) cnt (sec + 1) 0)
     else Some (Skip, mkCursors (p + 1) cnt sec cur)) = Some (vis, c1) ∧
    parameter_cursor c1 = p + 1 ∧
    (if act x then vis = Hit cnt else vis = Skip ∨ vis = NextSection) ∧
    active_parameter_count c1 = (if act x then cnt + 1 else cnt) ∧
    Frontier starts (p + 1) (act x) (act <$> xs)
             (current_derivative_section c1)
             (current_derivative_section_cursor c1))
    as (vis & c1 & -> & Hp1 & Hvis & Hcnt1 & HF1).
  { unfold Frontier. destruct prev.
    - destruct HF as (s & Hdrop & Hs).
      apply drop_cons_lookup in Hdrop as [Hlook Hdrop]. rewrite Hlook. cbn.
      destruct (Z.leb_spec (s + cur) p); [|lia].
      destruct (act x) eqn:Hx; simpl in Hdrop.
      + eexists _, _. split; [done|]. simpl. rewrite ?Hx. split_and!; auto.
        exists s. split; [|lia].
        by rewrite (drop_S _ _ _ Hlook), Hdrop.
      + eexists _, _. split; [done|]. simpl. rewrite ?Hx. split_and!; auto; [lia|].
        replace (Z.to_nat (sec + 1)) with (S (Z.to_nat sec)) by lia. exact Hdrop.
    - destruct HF as (-> & Hdrop).
      destruct (act x) eqn:Hx; simpl in Hdrop.
      + apply drop_cons_lookup in Hdrop as [Hlook Hdrop]. rewrite Hlook. cbn.
        destruct (Z.leb_spec (p + 0) p); [|lia].
        eexists _, _. split; [done|]. simpl. rewrite ?Hx. split_and!; auto.
        exists p. split; [|lia].
        by rewrite (drop_S _ _ _ Hlook), Hdrop.
      + destruct (run_starts_head false (p + 1) (act <$> xs)) as (s & rest & E & Hle).
        change (list_fmap X bool act xs) with (act <$> xs) in Hdrop.
        rewrite E in Hdrop.
        pose proof Hdrop as Hdrop'.
        apply drop_cons_lookup in Hdrop' as [Hlook _]. rewrite Hlook. cbn.
        destruct (Z.leb_spec (s + 0) p); [lia|].
        eexists _, _. split; [done|]. simpl. rewrite ?Hx. split_and!; auto.
        congruence. }
  cbn [mbind option_bind].
  destruct (IH c1 (act x)) as (xs1 & xs2 & c' & -> & Hw & Hp & Hcnt & Hle & HF' & Hend).
  { by rewrite Hp1. }
  { rewrite Hcnt1. destruct (act x); lia. }
  exists (x :: xs1), xs2, c'. split; [done|].
  rewrite Hw. cbn [mbind option_bind].
  rewrite Hp1, Hcnt1 in *. cbn [hits_of length fmap list_fmap last_flag foldl].
  rewrite count_active_cons.
  split.
  { destruct (act x); [by rewrite Hvis|by destruct Hvis as [-> | ->]]. }
  split_and!; try lia.
  - destruct (act x); lia.
  - replace (p + Z.of_nat (S (length xs1))) with (p + 1 + Z.of_nat (length xs1)) by lia.
    exact HF'.
  - done.
Qed.

(** A pass starts over at position 0 and resumes at the frontier. *)
Lemma walk_pass {X} Stride starts (act : X → bool) xs1 xs2 sec cur :
  0 ≤ Stride →
  Frontier starts (Z.of_nat (length xs1)) (last_flag false (act <$> xs1))
           (act <$> xs2) sec cur →
  ∃ ys zs c',
    xs2 = ys ++ zs ∧
    walk Stride starts act (xs1 ++ xs2) (mkCursors 0 0 sec cur) =
      Some (hits_of act (Z.of_nat (length xs1)) 0 ys, c') ∧
    active_parameter_count c' = count_active act ys ∧
    count_active act ys ≤ Stride ∧
    Frontier starts (Z.of_nat (length (xs1 ++ ys)))
             (last_flag false (act <$> (xs1 ++ ys))) (act <$> zs)
             (current_derivative_section c')
             (current_derivative_section_cursor c') ∧
    (count_active act ys = Stride ∨ zs = []).
Proof.
  intros HS HF.
  assert (∃ s, starts !! Z.to_nat sec = Some s ∧ Z.of_nat (length xs1) ≤ s + cur)
    as (s & Hs & Hle).
  { destruct HF as [Hsec HF]. destruct (last_flag _ _).
    - destruct HF as (s & Hdrop & Hs).
      apply drop_cons_lookup in Hdrop as [Hlook _]. exists s. split; [done|lia].
    - destruct HF as (-> & Hdrop).
      destruct (run_starts_head false (Z.of_nat (length xs1)) (act <$> xs2))
        as (s & rest & E & Hle).
      rewrite E in Hdrop. apply drop_cons_lookup in Hdrop as [Hlook _].
      exists s. split; [done|lia]. }
  rewrite walk_app.
  rewrite (walk_skip _ _ _ _ _ s); [|done|simpl; lia].
  cbn [mbind option_bind].
  destruct (walk_track Stride starts act xs2
              (shift_cursor (mkCursors 0 0 sec cur) (Z.of_nat (length xs1)))
              (last_flag false (act <$> xs1)))
    as (ys & zs & c' & -> & Hw & Hp & Hcnt & Hcle & HF' & Hend).
  { simpl. exact HF. }
  { simpl. lia. }
  simpl in Hw, Hcnt, HF', Hp. rewrite Hw. cbn.
  exists ys, zs, c'.
  split_and!; auto; try lia.
  2: { destruct Hend as [?|?]; [left; lia|by right]. }
  rewrite length_app, fmap_app. unfold last_flag in *. rewrite foldl_app.
  replace (Z.of_nat (length xs1 + length ys)) with
    (0 + Z.of_nat (length xs1) + Z.of_nat (length ys)) by lia.
  exact HF'.
Qed.

(** *** The two loops follow the walk *)

Lemma shape_requested {T} (j1 j2 : list (option (list T))) i :
  shape j1 = shape j2 → requested j1 i = requested j2 i.
Proof.
  intros E. apply (f_equal (λ l, l !! i)) in E.
  unfold shape in E. rewrite !list_lookup_fmap in E. unfold requested.
  destruct (j1 !! i) as [[?|]|], (j2 !! i) as [[?|]|]; simpl in E; congruence.
Qed.

Lemma seed_body_spec {T} `{Scalar T} Stride starts
    (slots : list (option (list T))) pass x s :
  match seed_body Stride starts slots pass x s,
        advance Stride starts (requested slots x.1) (seed_cursors s) with
  | Some s1, Some (vis, c1) =>
      seed_cursors s1 = c1 ∧
      seed_log s1 = seed_log s ++
        match vis with
        | Hit d => seed_events pass [(x, parameter_cursor (seed_cursors s), d)]
        | _ => []
        end
  | None, None => True
  | _, _ => False
  end.
Proof.
  unfold seed_body.
  destruct (advance _ _ _ _) as [[[] c1]|]; simpl; rewrite ?app_nil_r; done.
Qed.

Lemma seed_loop_walk {T} `{Scalar T} Stride starts
    (slots : list (option (list T))) pass xs s :
  match for_each (seed_body Stride starts slots pass) xs s,
        walk Stride starts (λ ij, requested slots ij.1) xs (seed_cursors s) with
  | Some s', Some (hits, c') =>
      seed_cursors s' = c' ∧
      seed_log s' = seed_log s ++ seed_events pass hits
  | None, None => True
  | _, _ => False
  end.
Proof.
  revert s. induction xs as [|x xs IH]; intros s; cbn [for_each walk].
  { split; [done|]. by rewrite app_nil_r. }
  pose proof (seed_body_spec Stride starts slots pass x s) as Hstep.
  destruct (seed_body _ _ _ _ x s) as [s1|],
           (advance _ _ _ (seed_cursors s)) as [[vis c1]|];
    cbn [mbind option_bind]; try done.
  destruct Hstep as [<- Hlog]. specialize (IH s1).
  destruct (for_each _ xs s1) as [s'|],
           (walk _ _ _ xs (seed_cursors s1)) as [[hits c']|];
    cbn [mbind option_bind]; try done.
  destruct IH as [-> ->]. split; [done|]. rewrite Hlog, <- app_assoc.
  destruct vis; done.
Qed.

Lemma shape_alter_write {T} (f : list T → list T) i (jac : list (option (list T))) :
  (∀ b, length (f b) = length b) →
  shape (alter (fmap f) i jac) = shape jac.
Proof.
  intros Hf. unfold shape. apply list_eq. intros k.
  rewrite !list_lookup_fmap.
  destruct (decide (k = i)) as [->|Hne].
  - rewrite list_lookup_alter_eq. destruct (jac !! i) as [[b|]|]; simpl; [|done..].
    by rewrite Hf.
  - by rewrite list_lookup_alter_ne.
Qed.

Lemma length_write_column {T} `{Scalar T} outputs num_residuals size j d
    (buffer : list T) :
  length (write_column outputs num_residuals size j d buffer) = length buffer.
Proof.
  unfold write_column. generalize (seqZ 0 num_residuals). intros ks.
  revert buffer. induction ks as [|k ks IH]; intros buffer; simpl; [done|].
  by rewrite IH, length_insert.
Qed.

Lemma scatter_body_spec {T} `{Scalar T} Stride starts sizes num_residuals
    outputs (slots : list (option (list T))) x s :
  shape (scatter_jacobians s) = shape slots →
  match scatter_body Stride starts sizes num_residuals outputs x s,
        advance Stride starts (requested slots x.1) (scatter_cursors s) with
  | Some s1, Some (vis, c1) =>
      scatter_cursors s1 = c1 ∧
      scatter_log s1 = scatter_log s ++
        match vis with
        | Hit d => write_events num_residuals
                                [(x, parameter_cursor (scatter_cursors s), d)]
        | _ => []
        end ∧
      shape (scatter_jacobians s1) = shape slots
  | None, None => True
  | _, _ => False
  end.
Proof.
  intros Hshape. destruct x as [i j]. unfold scatter_body.
  rewrite (shape_requested _ _ i Hshape). cbn [fst].
  destruct (advance _ _ _ _) as [[[] c1]|]; simpl; rewrite ?app_nil_r; try done.
  split_and!; try done.
  rewrite shape_alter_write by apply length_write_column. done.
Qed.

Lemma scatter_loop_walk {T} `{Scalar T} Stride starts sizes num_residuals
    outputs (slots : list (option (list T))) xs s :
  shape (scatter_jacobians s) = shape slots →
  match for_each (scatter_body Stride starts sizes num_residuals outputs) xs s,
        walk Stride starts (λ ij, requested slots ij.1) xs (scatter_cursors s) with
  | Some s', Some (hits, c') =>
      scatter_cursors s' = c' ∧
      scatter_log s' = scatter_log s ++ write_events num_residuals hits ∧
      shape (scatter_jacobians s') = shape slots
  | None, None => True
  | _, _ => False
  end.
Proof.
  revert s. induction xs as [|x xs IH]; intros s Hshape; cbn [for_each walk].
  { split_and!; [done| |done]. by rewrite app_nil_r. }
  pose proof (scatter_body_spec Stride starts sizes num_residuals outputs
                                slots x s Hshape) as Hstep.
  destruct (scatter_body _ _ _ _ _ x s) as [s1|],
           (advance _ _ _ (scatter_cursors s)) as [[vis c1]|];
    cbn [mbind option_bind]; try done.
  destruct Hstep as (<- & Hlog & Hshape1). specialize (IH s1 Hshape1).
  destruct (for_each _ xs s1) as [s'|],
           (walk _ _ _ xs (scatter_cursors s1)) as [[hits c']|];
    cbn [mbind option_bind]; try done.
  destruct IH as (-> & -> & ?). split_and!; try done.
  rewrite Hlog, <- app_assoc. destruct vis; try done.
  unfold write_events. cbn [mbind list_bind]. by rewrite app_nil_r.
Qed.

(** *** Projections of the events of a pass *)

Lemma seeded_app l1 l2 : seeded (l1 ++ l2) = seeded l1 ++ seeded l2.
Proof. apply omap_app. Qed.
Lemma written_app l1 l2 : written (l1 ++ l2) = written l1 ++ written l2.
Proof. apply omap_app. Qed.
Lemma jet_calls_app l1 l2 : jet_calls (l1 ++ l2) = jet_calls l1 ++ jet_calls l2.
Proof. apply omap_app. Qed.
Lemma scalar_calls_app l1 l2 :
  scalar_calls (l1 ++ l2) = scalar_calls l1 ++ scalar_calls l2.
Proof. apply omap_app. Qed.
Lemma residual_writes_app l1 l2 :
  residual_writes (l1 ++ l2) = residual_writes l1 ++ residual_writes l2.
Proof. apply omap_app. Qed.

Lemma omap_fmap_None {A B C} (f : B → option C) (g : A → B) (l : list A) :
  (∀ x, f (g x) = None) → omap f (g <$> l) = [].
Proof.
  intros E. induction l as [|x l IH]; [done|].
  rewrite fmap_cons. cbn [omap list_omap]. by rewrite E.
Qed.

Lemma omap_fmap_Some {A B C} (f : B → option C) (g : A → B) (h : A → C)
    (l : list A) :
  (∀ x, f (g x) = Some (h x)) → omap f (g <$> l) = h <$> l.
Proof.
  intros E. induction l as [|x l IH]; [done|].
  rewrite !fmap_cons. cbn [omap list_omap]. by rewrite E, IH.
Qed.

Lemma seed_events_projections pass hits :
  seeded (seed_events pass hits) = positions_of hits ∧
  written (seed_events pass hits) = [] ∧
  jet_calls (seed_events pass hits) = [] ∧
  scalar_calls (seed_events pass hits) = [] ∧
  residual_writes (seed_events pass hits) = [].
Proof.
  unfold seed_events, positions_of. split_and!.
  - by apply omap_fmap_Some.
  - by apply omap_fmap_None.
  - by apply omap_fmap_None.
  - by apply omap_fmap_None.
  - by apply omap_fmap_None.
Qed.

Lemma write_events_projections num_residuals hits :
  seeded (write_events num_residuals hits) = [] ∧
  written (write_events num_residuals hits) = columns_of num_residuals hits ∧
  jet_calls (write_events num_residuals hits) = [] ∧
  scalar_calls (write_events num_residuals hits) = [] ∧
  residual_writes (write_events num_residuals hits) = [].
Proof.
  unfold write_events, columns_of.
  induction hits as [|h hits (IH1 & IH2 & IH3 & IH4 & IH5)]; [done|].
  rewrite !bind_cons.
  rewrite seeded_app, written_app, jet_calls_app, scalar_calls_app,
    residual_writes_app, IH1, IH2, IH3, IH4, IH5.
  split_and!; try (rewrite app_nil_r; by apply omap_fmap_None).
  f_equal. by apply omap_fmap_Some.
Qed.

Lemma residual_events_projections ks :
  seeded (EvResidualWrite <$> ks) = [] ∧
  written (EvResidualWrite <$> ks) = [] ∧
  jet_calls (EvResidualWrite <$> ks) = [] ∧
  scalar_calls (EvResidualWrite <$> ks) = [] ∧
  residual_writes (EvResidualWrite <$> ks) = ks.
Proof.
  split_and!; try by apply omap_fmap_None.
  rewrite <- (list_fmap_id ks) at 2. by apply omap_fmap_Some.
Qed.

(** *** The discovery walk *)

Lemma length_index_space i sizes :
  Z.of_nat (length (index_space i sizes)) = foldr (λ s n, Z.max 0 s + n) 0 sizes.
Proof.
  revert i. induction sizes as [|size sizes IH]; intros i; simpl; [done|].
  rewrite length_app, length_fmap, length_seqZ, Nat2Z.inj_add, IH. lia.
Qed.

Lemma run_starts_replicate a p k acts :
  run_starts a p (replicate k a ++ acts) = run_starts a (p + Z.of_nat k) acts.
Proof.
  revert p. induction k as [|k IH]; intros p; simpl.
  - f_equal. lia.
  - destruct a; simpl; rewrite IH; f_equal; lia.
Qed.

Lemma active_block {T} (slots : list (option (list T))) i size :
  active slots <$> ((λ j, (i, j)) <$> seqZ 0 size) =
  replicate (Z.to_nat size) (requested slots i).
Proof.
  rewrite <- list_fmap_compose, <- (length_seqZ 0 size).
  generalize (seqZ 0 size). intros l.
  induction l as [|j l IH]; [done|].
  rewrite fmap_cons. cbn [length replicate]. by rewrite IH.
Qed.

Lemma discover_sections {T} `{Scalar T} parameters
    (slots : list (option (list T))) sizes : ∀ i d,
  Forall (λ size, 0 < size) sizes →
  let D := discover parameters slots i sizes d in
  start_derivative_section D ++ [discovery_cursor D] =
  start_derivative_section d ++
    run_starts (in_derivative_section d) (discovery_cursor d)
               (active slots <$> index_space i sizes).
Proof.
  induction sizes as [|size sizes IH]; intros i d Hpos; simpl; [done|].
  inversion Hpos as [|? ? Hsize Hrest]; subst.
  rewrite IH by done. rewrite fmap_app, active_block.
  unfold discover_block; simpl.
  destruct (Z.to_nat size) as [|k] eqn:Hk; [lia|]. simpl.
  rewrite run_starts_replicate.
  replace (discovery_cursor d + 1 + Z.of_nat k) with
    (discovery_cursor d + Z.max 0 size) by lia.
  destruct (requested slots i), (in_derivative_section d); simpl;
    rewrite <- ?app_assoc; done.
Qed.

Lemma discover_cursor {T} `{Scalar T} parameters
    (slots : list (option (list T))) sizes : ∀ i d,
  discovery_cursor (discover parameters slots i sizes d) =
  discovery_cursor d + Z.of_nat (length (index_space i sizes)).
Proof.
  induction sizes as [|size sizes IH]; intros i d; simpl; [lia|].
  rewrite IH, length_app, length_fmap, length_seqZ. simpl. lia.
Qed.

Lemma discover_active {T} `{Scalar T} parameters
    (slots : list (option (list T))) sizes : ∀ i d,
  Forall (λ size, 0 ≤ size) sizes →
  num_active_parameters (discover parameters slots i sizes d) =
  num_active_parameters d + count_active (active slots) (index_space i sizes).
Proof.
  induction sizes as [|size sizes IH]; intros i d Hpos; simpl.
  { rewrite count_active_nil. lia. }
  inversion Hpos as [|? ? Hsize Hrest]; subst.
  rewrite IH by done. rewrite count_active_app. simpl.
  assert (count_active (active slots) ((λ j, (i, j)) <$> seqZ 0 size) =
          if requested slots i then size else 0) as ->.
  { assert (∀ l : list Z, count_active (active slots) ((λ j, (i, j)) <$> l) =
              if requested slots i then Z.of_nat (length l) else 0) as Hl.
    { induction l as [|j l IHl]; [by destruct (requested slots i)|].
      rewrite fmap_cons, count_active_cons, IHl. unfold active. cbn [fst length].
      destruct (requested slots i); lia. }
    rewrite Hl, length_seqZ. destruct (requested slots i); lia. }
  destruct (requested slots i); lia.
Qed.

(** *** One pass *)

Lemma hits_of_app {X} (act : X → bool) p d xs ys :
  hits_of act p d (xs ++ ys) =
  hits_of act p d xs ++
  hits_of act (p + Z.of_nat (length xs)) (d + count_active act xs) ys.
Proof.
  revert p d. induction xs as [|x xs IH]; intros p d.
  - simpl. rewrite count_active_nil, !Z.add_0_r. done.
  - cbn [app hits_of length]. rewrite count_active_cons.
    replace (p + Z.of_nat (S (length xs))) with (p + 1 + Z.of_nat (length xs))
      by lia.
    destruct (act x); rewrite IH; cbn [app].
    + by replace (d + (1 + count_active act xs)) with (d + 1 + count_active act xs)
        by lia.
    + by replace (d + (0 + count_active act xs)) with (d + count_active act xs)
        by lia.
Qed.

Lemma positions_of_hits_shift (act : nat * Z → bool) p d d' xs :
  positions_of (hits_of act p d xs) = positions_of (hits_of act p d' xs).
Proof.
  revert p d d'. induction xs as [|x xs IH]; intros p d d'; [done|].
  cbn [hits_of]. destruct (act x); [|apply IH].
  unfold positions_of in *. rewrite !fmap_cons. f_equal. apply IH.
Qed.

Lemma columns_of_hits_shift num_residuals (act : nat * Z → bool) p p' d d' xs :
  columns_of num_residuals (hits_of act p d xs) =
  columns_of num_residuals (hits_of act p' d' xs).
Proof.
  revert p p' d d'. induction xs as [|x xs IH]; intros p p' d d'; [done|].
  cbn [hits_of]. destruct (act x); [|apply IH].
  unfold columns_of in *. rewrite !bind_cons. f_equal. apply IH.
Qed.

Section PassSpec.
Context {T : Type} `{Scalar T}.
Variable functor_ : CostFunctor T.
Variables (Stride : Z) (sizes : list Z) (num_residuals : Z).
Variables (starts jet_params : list Z) (strides : Z).
Variable slots : list (option (list T)).
Hypothesis Stride_nonneg : 0 ≤ Stride.

Local Abbreviation space := (index_space 0 sizes).
Local Abbreviation act := (active slots).

Lemma run_pass_spec pass (s : pass_state T) xs1 xs2 :
  between_passes sizes starts slots xs1 xs2 s →
  ∃ ys zs seeded,
    let hits := hits_of act (Z.of_nat (length xs1)) 0 ys in
    let initial := mkCursors 0 0 (ps_section s) (ps_section_cursor s) in
    xs2 = ys ++ zs ∧
    count_active act ys ≤ Stride ∧
    (count_active act ys = Stride ∨ zs = []) ∧
    (∃ c', walk Stride starts act space initial = Some (hits, c')) ∧
    for_each (seed_body Stride starts (ps_jacobians s) pass) space
             (mkSeeding (ps_jets s) initial (ps_log s)) = Some seeded ∧
    seed_log seeded = ps_log s ++ seed_events pass hits ∧
    let call := call_jet functor_ Stride
                  (jet_blocks sizes jet_params (seed_jets seeded))
                  (ps_outputs s) in
    if call.1 then
      ∃ scattered,
        for_each (scatter_body Stride starts sizes num_residuals call.2) space
                 (mkScattering (ps_jacobians s) initial
                               (seed_log seeded ++ [EvCallJet pass true]))
          = Some scattered ∧
        scatter_log scattered =
          seed_log seeded ++ [EvCallJet pass true] ++
          write_events num_residuals hits ∧
        let last := bool_decide (pass = strides - 1) in
        let s' := mkPassState
                    (seed_jets seeded) call.2
                    (current_derivative_section (scatter_cursors scattered))
                    (current_derivative_section_cursor (scatter_cursors scattered))
                    (if last then copy_residuals call.2 num_residuals
                                                 (ps_residuals s)
                     else ps_residuals s)
                    (scatter_jacobians scattered)
                    (if last then
                       scatter_log scattered ++
                         (EvResidualWrite <$> seqZ 0 num_residuals)
                     else scatter_log scattered) in
        run_pass functor_ Stride sizes num_residuals starts jet_params strides
                 pass s = inr s' ∧
        between_passes sizes starts slots (xs1 ++ ys) zs s'
    else
      run_pass functor_ Stride sizes num_residuals starts jet_params strides
               pass s =
      inl (Returned false (ps_residuals s) (Some (ps_jacobians s)),
           seed_log seeded ++ [EvCallJet pass false]).
Proof.
  intros (Hspace & Hshape & HF).
  destruct (walk_pass Stride starts act xs1 xs2 _ _ Stride_nonneg HF)
    as (ys & zs & c' & -> & Hwalk & Hcnt & Hle & HF' & Hend).
  rewrite <- Hspace in Hwalk.
  pose proof (seed_loop_walk Stride starts (ps_jacobians s) pass space
    (mkSeeding (ps_jets s) (mkCursors 0 0 (ps_section s) (ps_section_cursor s))
               (ps_log s))) as Hseed.
  rewrite (walk_ext _ _ _ act) in Hseed
    by (intros x; apply shape_requested, Hshape).
  cbn [seed_cursors seed_log] in Hseed. rewrite Hwalk in Hseed.
  destruct (for_each (seed_body _ _ _ _) _ _) as [seeded|] eqn:Eseed; [|done].
  destruct Hseed as [Hc Hlog].
  exists ys, zs, seeded. cbn zeta. split_and!; try done; [by exists c'|].
  unfold run_pass. rewrite Eseed.
  destruct (call_jet _ _ _ _) as [ok outputs]. cbn [fst snd].
  destruct ok; cbn [negb]; [|done].
  pose proof (scatter_loop_walk Stride starts sizes num_residuals outputs slots
    space (mkScattering (ps_jacobians s)
                        (mkCursors 0 0 (ps_section s) (ps_section_cursor s))
                        (seed_log seeded ++ [EvCallJet pass true])) Hshape)
    as Hscatter.
  cbn [scatter_cursors scatter_log] in Hscatter.
  change (λ ij : nat * Z, requested slots ij.1) with act in Hscatter.
  rewrite Hwalk in Hscatter.
  destruct (for_each (scatter_body _ _ _ _ _) _ _) as [scattered|]; [|done].
  destruct Hscatter as (Hc' & Hlog' & Hshape').
  exists scattered. split_and!; try done.
  { by rewrite Hlog', <- app_assoc. }
  { unfold between_passes. cbn [ps_jacobians ps_section ps_section_cursor].
    rewrite Hc', <- app_assoc. done. }
Qed.
End PassSpec.

(** *** All passes *)

Lemma pass_log_projections log0 pass hits num_residuals (last : bool) :
  let log := (log0 ++ seed_events pass hits) ++ [EvCallJet pass true] ++
             write_events num_residuals hits in
  let log' := if last then log ++ (EvResidualWrite <$> seqZ 0 num_residuals)
              else log in
  seeded log' = seeded log0 ++ positions_of hits ∧
  written log' = written log0 ++ columns_of num_residuals hits ∧
  jet_calls log' = jet_calls log0 ++ [true] ∧
  scalar_calls log' = scalar_calls log0 ∧
  residual_writes log' =
    residual_writes log0 ++ (if last then seqZ 0 num_residuals else []).
Proof.
  destruct (seed_events_projections pass hits) as (S1 & S2 & S3 & S4 & S5).
  destruct (write_events_projections num_residuals hits)
    as (W1 & W2 & W3 & W4 & W5).
  destruct (residual_events_projections (seqZ 0 num_residuals))
    as (R1 & R2 & R3 & R4 & R5).
  cbn zeta. destruct last;
    rewrite ?seeded_app, ?written_app, ?jet_calls_app, ?scalar_calls_app,
      ?residual_writes_app, S1, S2, S3, S4, S5, W1, W2, W3, W4, W5,
      ?R1, ?R2, ?R3, ?R4, ?R5; cbn; rewrite ?app_nil_r; done.
Qed.

Section RunSpec.
Context {T : Type} `{Scalar T}.
Variable functor_ : CostFunctor T.
Variables (Stride : Z) (sizes : list Z) (num_residuals : Z).
Variables (starts jet_params : list Z) (strides : Z).
Variable slots : list (option (list T)).
Hypothesis Stride_nonneg : 0 ≤ Stride.

Local Abbreviation act := (active slots).
Local Abbreviation passes :=
  (run_passes functor_ Stride sizes num_residuals starts jet_params strides).

(** What the events of the passes [t0, t0 + len) are: no section read
    leaves the vector; as long as the functor succeeds every pass takes
    the next [Stride] active positions; the first failing invocation ends
    the call, and the residuals stay as they were. *)
Lemma run_passes_spec (len : nat) : ∀ t0 (s : pass_state T) xs1 xs2,
  between_passes sizes starts slots xs1 xs2 s →
  t0 + Z.of_nat len ≤ strides →
  ∃ ok res jac log,
    passes (seqZ t0 (Z.of_nat len)) s = (Returned ok res (Some jac), log) ∧
    shape jac = shape slots ∧
    scalar_calls log = scalar_calls (ps_log s) ∧
    if ok then
      ∃ ys zs,
        let hits := hits_of act (Z.of_nat (length xs1)) 0 ys in
        xs2 = ys ++ zs ∧
        count_active act ys =
          Z.min (Z.of_nat len * Stride) (count_active act xs2) ∧
        seeded log = seeded (ps_log s) ++ positions_of hits ∧
        written log = written (ps_log s) ++ columns_of num_residuals hits ∧
        jet_calls log = jet_calls (ps_log s) ++ replicate len true ∧
        residual_writes log =
          residual_writes (ps_log s) ++
          (if bool_decide (len ≠ 0%nat ∧ t0 + Z.of_nat len = strides)
           then seqZ 0 num_residuals else [])
    else
      res = ps_residuals s ∧
      residual_writes log = residual_writes (ps_log s) ∧
      ∃ k log',
        (k < len)%nat ∧
        log = log' ++ [EvCallJet (t0 + Z.of_nat k) false] ∧
        jet_calls log' = jet_calls (ps_log s) ++ replicate k true.
Proof.
  induction len as [|len IH]; intros t0 s xs1 xs2 Hinv Hlen.
  { exists true, (ps_residuals s), (ps_jacobians s), (ps_log s).
    destruct Hinv as (? & ? & ?). split_and!; try done.
    exists [], xs2. cbn. rewrite !app_nil_r, count_active_nil.
    split_and!; try done.
    pose proof (count_active_nonneg act xs2). lia. }
  rewrite seqZ_cons by lia. cbn [run_passes].
  replace (Z.pred (Z.of_nat (S len))) with (Z.of_nat len) by lia.
  destruct (run_pass_spec functor_ Stride sizes num_residuals starts jet_params
              strides slots Stride_nonneg t0 s xs1 xs2 Hinv)
    as (ys & zs & sd & Hxs & Hcle & Hend & _ & _ & Hslog & Hcall).
  cbn zeta in Hcall.
  destruct (call_jet _ _ _ _) as [[] outputs]; cbn [fst snd] in Hcall.
  2: { (* the functor fails in this pass *)
    rewrite Hcall. destruct Hinv as (? & ? & ?).
    destruct (seed_events_projections t0
                (hits_of act (Z.of_nat (length xs1)) 0 ys))
      as (S1 & S2 & S3 & S4 & S5).
    eexists false, _, _, _. split; [done|]. split_and!; try done.
    - rewrite Hslog, !scalar_calls_app, S4. cbn. by rewrite !app_nil_r.
    - rewrite Hslog, !residual_writes_app, S5. cbn. by rewrite !app_nil_r.
    - exists 0%nat, (seed_log sd). split_and!; [lia| |].
      + by rewrite Z.add_0_r.
      + rewrite Hslog, jet_calls_app, S3. cbn. done. }
  destruct Hcall as (sc & _ & Hclog & Hrun & Hinv'). rewrite Hrun.
  match type of Hrun with _ = inr ?s1 => set (s' := s1) in * end.
  destruct (IH (Z.succ t0) s' (xs1 ++ ys) zs Hinv') as
    (ok & res & jac & log & Hpasses & Hshape & Hscalar & Hrest); [lia|].
  rewrite Hpasses. exists ok, res, jac, log. split; [done|].
  (* the events of this pass *)
  pose proof (pass_log_projections (ps_log s) t0
                (hits_of act (Z.of_nat (length xs1)) 0 ys) num_residuals
                (bool_decide (t0 = strides - 1))) as Hproj.
  cbn zeta in Hproj. rewrite <- Hslog, <- Hclog in Hproj.
  change (if bool_decide (t0 = strides - 1)
          then scatter_log sc ++ (EvResidualWrite <$> seqZ 0 num_residuals)
          else scatter_log sc) with (ps_log s') in Hproj.
  destruct Hproj as (P1 & P2 & P3 & P4 & P5).
  split; [done|]. split; [congruence|].
  destruct ok.
  - destruct Hrest as (ys' & zs' & -> & Hcount & Hseeded & Hwritten & Hcalls & Hres).
    subst xs2. exists (ys ++ ys'), zs'. cbn zeta. split_and!.
    + by rewrite app_assoc.
    + rewrite !count_active_app in *.
      pose proof (count_active_nonneg act ys).
      pose proof (count_active_nonneg act ys').
      pose proof (count_active_nonneg act zs').
      destruct Hend as [Hend|Hend]; [nia|].
      apply (f_equal (count_active act)) in Hend.
      rewrite count_active_app, count_active_nil in Hend. nia.
    + rewrite Hseeded, P1, <- app_assoc. f_equal.
      rewrite hits_of_app. unfold positions_of. rewrite fmap_app. f_equal.
      rewrite length_app, Nat2Z.inj_add.
      apply (positions_of_hits_shift act).
    + rewrite Hwritten, P2, <- app_assoc. f_equal.
      rewrite hits_of_app. unfold columns_of. rewrite bind_app. f_equal.
      apply (columns_of_hits_shift num_residuals act).
    + rewrite Hcalls, P3, <- app_assoc. done.
    + rewrite Hres, P5, <- app_assoc. f_equal.
      repeat case_bool_decide; try done; try lia; rewrite ?app_nil_r; try done.
      all: exfalso; destruct len; lia || tauto.
  - destruct Hrest as (Hres & Hrw & k & log' & Hk & -> & Hcalls).
    assert (t0 ≠ strides - 1) as Hnotlast by lia.
    split_and!.
    + rewrite Hres. subst s'. cbn. by rewrite bool_decide_eq_false_2.
    + rewrite Hrw, P5. rewrite bool_decide_eq_false_2 by done.
      by rewrite app_nil_r.
    + exists (S k), log'. split_and!; [lia| |].
      * do 3 f_equal. lia.
      * rewrite Hcalls, P3, <- app_assoc. done.
Qed.
End RunSpec.

(** ** Properties that hold for every block layout *)

Lemma walk_in_bounds {X} Stride starts (act : X → bool) N xs : ∀ c,
  in_bounds starts N (current_derivative_section c)
            (current_derivative_section_cursor c) →
  parameter_cursor c + Z.of_nat (length xs) ≤ N →
  ∃ hits c',
    walk Stride starts act xs c = Some (hits, c') ∧
    in_bounds starts N (current_derivative_section c')
              (current_derivative_section_cursor c') ∧
    Forall (λ h, act h.1.1 = true) hits.
Proof.
  induction xs as [|x xs IH]; intros [p cnt sec cur] Hb Hp; simpl in *.
  { eexists _, _. split; [done|]. split; [done|]. constructor. }
  destruct Hb as (Hsec & Hcur & front & -> & Hfront).
  unfold advance; simpl.
  destruct (lookup_lt_is_Some_2 (front ++ [N]) (Z.to_nat sec)) as [start Hstart].
  { rewrite length_app. simpl. lia. }
  rewrite Hstart. cbn [mbind option_bind].
  assert (∀ vis c1, parameter_cursor c1 = p + 1 →
    in_bounds (front ++ [N]) N (current_derivative_section c1)
              (current_derivative_section_cursor c1) →
    (∀ d, vis = Hit d → act x = true) →
    ∃ hits c',
      ('(hits0, c2) ← walk Stride (front ++ [N]) act xs c1;
       Some (match vis with
             | Hit d => (x, p, d) :: hits0
             | _ => hits0
             end, c2)) = Some (hits, c') ∧
      in_bounds (front ++ [N]) N (current_derivative_section c')
                (current_derivative_section_cursor c') ∧
      Forall (λ h, act h.1.1 = true) hits) as Hrest.
  { intros vis c1 Hp1 Hb1 Hvis.
    destruct (IH c1 Hb1) as (hits & c' & -> & Hb' & Hact); [lia|].
    cbn. eexists _, _. split; [done|]. split; [done|].
    destruct vis; try done. constructor; [|done]. simpl. by eapply Hvis. }
  destruct (cnt <? Stride).
  - destruct (Z.leb_spec (start + cur) p).
    + destruct (act x) eqn:Hx; cbn [mbind option_bind].
      * apply (Hrest (Hit cnt)); simpl; [done| |done].
        split_and!; [lia..|]. by exists front.
      * apply (Hrest NextSection); simpl; [done| |done].
        split_and!; [lia..|]. exists front. split; [done|].
        destruct (decide (Z.to_nat sec = length front)) as [E|]; [|lia].
        rewrite E, list_lookup_middle in Hstart by done.
        assert (start = N) by congruence. lia.
    + cbn [mbind option_bind]. apply (Hrest Skip); simpl; [done| |done].
      split_and!; [lia..|]. by exists front.
  - cbn [mbind option_bind]. apply (Hrest Skip); simpl; [done| |done].
    split_and!; [lia..|]. by exists front.
Qed.

Lemma set_v_carry {T} `{Scalar T} (jets : list (Jet T)) p v :
  jet_a <$> set_v jets p v = jet_a <$> jets ∧
  length (set_v jets p v) = length jets.
Proof.
  unfold set_v. rewrite length_alter. split; [|done].
  apply list_eq. intros q. rewrite !list_lookup_fmap.
  destruct (decide (q = Z.to_nat p)) as [->|].
  - rewrite list_lookup_alter_eq. by destruct (jets !! _).
  - by rewrite list_lookup_alter_ne.
Qed.

Lemma set_v_entry_carry {T} `{Scalar T} (jets : list (Jet T)) p d x :
  jet_a <$> set_v_entry jets p d x = jet_a <$> jets ∧
  length (set_v_entry jets p d x) = length jets.
Proof.
  unfold set_v_entry. rewrite length_alter. split; [|done].
  apply list_eq. intros q. rewrite !list_lookup_fmap.
  destruct (decide (q = Z.to_nat p)) as [->|].
  - rewrite list_lookup_alter_eq. by destruct (jets !! _).
  - by rewrite list_lookup_alter_ne.
Qed.

Lemma advance_cursor Stride starts req c vis c1 :
  advance Stride starts req c = Some (vis, c1) →
  parameter_cursor c1 = parameter_cursor c + 1.
Proof.
  unfold advance. intros Hadv.
  destruct (active_parameter_count c <? Stride); [|by simplify_eq].
  destruct (starts !! _) as [st|]; simpl in Hadv; [|done].
  destruct (st + _ <=? _); [destruct req|]; by simplify_eq.
Qed.

(** Seeding keeps the primal values, and leaves [Stride] derivative
    entries in every jet it visits. *)
Lemma seed_loop_jets {T} `{Scalar T} Stride starts
    (slots : list (option (list T))) pass xs : ∀ s s',
  0 ≤ parameter_cursor (seed_cursors s) →
  for_each (seed_body Stride starts slots pass) xs s = Some s' →
  jet_a <$> seed_jets s' = jet_a <$> seed_jets s ∧
  length (seed_jets s') = length (seed_jets s) ∧
  ∀ q jet,
    seed_jets s' !! q = Some jet →
    (Z.of_nat q < parameter_cursor (seed_cursors s) →
       seed_jets s !! q = Some jet) ∧
    (parameter_cursor (seed_cursors s) ≤ Z.of_nat q
       < parameter_cursor (seed_cursors s) + Z.of_nat (length xs) →
       length (jet_v jet) = Z.to_nat Stride).
Proof.
  induction xs as [|x xs IH]; intros s s' Hp0 Hrun; cbn [for_each] in Hrun.
  { injection Hrun as <-. split_and!; try done.
    intros q jet Hq. split; [done|]. simpl. lia. }
  destruct (seed_body _ _ _ _ x s) as [s1|] eqn:Hstep; [|done].
  cbn [mbind option_bind] in Hrun.
  unfold seed_body in Hstep.
  destruct (advance _ _ _ _) as [[vis c1]|] eqn:Hadv; [|done].
  assert (parameter_cursor c1 = parameter_cursor (seed_cursors s) + 1) as Hp1.
  { by apply advance_cursor in Hadv. }
  cbn [mbind option_bind] in Hstep.
  set (p := parameter_cursor (seed_cursors s)) in *.
  set (zeros := replicate (Z.to_nat Stride) s_zero) in *.
  assert (∃ jets1, seed_jets s1 = jets1 ∧ seed_cursors s1 = c1 ∧
            jet_a <$> jets1 = jet_a <$> seed_jets s ∧
            length jets1 = length (seed_jets s) ∧
            ∀ q jet, jets1 !! q = Some jet →
              (q ≠ Z.to_nat p → seed_jets s !! q = Some jet) ∧
              (q = Z.to_nat p → length (jet_v jet) = Z.to_nat Stride))
    as (jets1 & Ej & Ec & Ha & Hl & Hq1).
  { destruct (set_v_carry (seed_jets s) p zeros) as [A1 L1].
    destruct (set_v_entry_carry (set_v (seed_jets s) p zeros) p 0 s_one)
      as [_ _].
    assert (∀ q jet, set_v (seed_jets s) p zeros !! q = Some jet →
              (q ≠ Z.to_nat p → seed_jets s !! q = Some jet) ∧
              (q = Z.to_nat p → length (jet_v jet) = Z.to_nat Stride)) as Hz.
    { intros q jet. unfold set_v.
      destruct (decide (q = Z.to_nat p)) as [->|Hne].
      - rewrite list_lookup_alter_eq. destruct (seed_jets s !! _); [|done].
        intros [= <-]. split; [done|]. intros _. simpl.
        unfold zeros. by rewrite length_replicate.
      - rewrite list_lookup_alter_ne by done. intros ?. split; [done|]. done. }
    destruct vis; simplify_eq/=; eexists; split_and!; try done.
    - by rewrite (proj1 (set_v_entry_carry _ _ _ _)).
    - by rewrite (proj2 (set_v_entry_carry _ _ _ _)).
    - intros q jet. unfold set_v_entry.
      destruct (decide (q = Z.to_nat p)) as [->|Hne].
      + rewrite list_lookup_alter_eq.
        destruct (set_v (seed_jets s) p zeros !! Z.to_nat p) as [jet0|] eqn:E;
          [|done].
        intros [= <-]. split; [done|]. intros _. simpl.
        rewrite length_insert. by apply (Hz _ _ E).
      + rewrite list_lookup_alter_ne by done. apply Hz. }
  destruct (IH s1 s') as (Ha' & Hl' & Hq'); [rewrite Ec, Hp1; lia|done|].
  rewrite Ej, Ec, Hp1 in *.
  split_and!; [congruence..|].
  intros q jet Hq. destruct (Hq' q jet Hq) as [Hlow Hhigh]. split.
  - intros Hlt. apply Hq1; [|lia]. apply Hlow. lia.
  - intros Hrange. cbn [length] in Hrange.
    destruct (decide (q = Z.to_nat p)) as [->|Hne].
    + apply (Hq1 (Z.to_nat p)); [|done]. apply Hlow. lia.
    + apply Hhigh. lia.
Qed.

Section General.
Context {T : Type} `{Scalar T}.
Variable functor_ : CostFunctor T.
Variables (Stride : Z) (sizes : list Z) (num_residuals : Z).
Variables (starts jet_params : list Z) (strides N : Z).
Hypothesis space_bound : Z.of_nat (length (index_space 0 sizes)) ≤ N.

Local Abbreviation space := (index_space 0 sizes).
Local Abbreviation pass_of :=
  (run_pass functor_ Stride sizes num_residuals starts jet_params strides).
Local Abbreviation passes :=
  (run_passes functor_ Stride sizes num_residuals starts jet_params strides).
Local Abbreviation call := (pass_call functor_ Stride sizes jet_params).

Lemma run_pass_general pass (s : pass_state T) :
  pass_inv sizes starts N s →
  ∃ hits jets,
    Forall (λ h, requested (ps_jacobians s) h.1.1.1 = true) hits ∧
    jet_a <$> jets = jet_a <$> ps_jets s ∧
    Forall (λ jet, length (jet_v jet) = Z.to_nat Stride) jets ∧
    let log := ps_log s ++ seed_events pass hits in
    if (call jets (ps_outputs s)).1 then
      ∃ s',
        pass_of pass s = inr s' ∧
        pass_inv sizes starts N s' ∧
        shape (ps_jacobians s') = shape (ps_jacobians s) ∧
        jet_a <$> ps_jets s' = jet_a <$> ps_jets s ∧
        ps_outputs s' = (call jets (ps_outputs s)).2 ∧
        ps_residuals s' =
          (if bool_decide (pass = strides - 1)
           then copy_residuals (call jets (ps_outputs s)).2 num_residuals
                               (ps_residuals s)
           else ps_residuals s) ∧
        ps_log s' =
          let log' := log ++ [EvCallJet pass true] ++
                      write_events num_residuals hits in
          if bool_decide (pass = strides - 1)
          then log' ++ (EvResidualWrite <$> seqZ 0 num_residuals) else log'
    else
      pass_of pass s =
      inl (Returned false (ps_residuals s) (Some (ps_jacobians s)),
           log ++ [EvCallJet pass false]).
Proof.
  intros [Hb Hlen].
  pose (initial := mkCursors 0 0 (ps_section s) (ps_section_cursor s)).
  destruct (walk_in_bounds Stride starts (λ ij, requested (ps_jacobians s) ij.1)
              N space initial Hb) as (hits & c' & Hwalk & Hb' & Hact);
    [simpl; lia|].
  pose proof (seed_loop_walk Stride starts (ps_jacobians s) pass space
                (mkSeeding (ps_jets s) initial (ps_log s))) as Hseed.
  cbn [seed_cursors seed_log] in Hseed. rewrite Hwalk in Hseed.
  destruct (for_each (seed_body _ _ _ _) _ _) as [seeded|] eqn:Eseed; [|done].
  destruct Hseed as [Hc Hlog].
  pose proof (λ Hp, seed_loop_jets _ _ _ _ _ _ _ Hp Eseed) as Hjets.
  destruct Hjets as (Ha & Hl & Hq); [simpl; lia|].
  cbn [seed_jets seed_cursors parameter_cursor initial] in Ha, Hl, Hq.
  exists hits, (seed_jets seeded). split; [done|]. split; [done|]. split.
  { apply Forall_lookup. intros q jet Hjet. apply (Hq q jet Hjet).
    apply lookup_lt_Some in Hjet. lia. }
  cbn zeta. unfold pass_call, run_pass. fold initial. rewrite Eseed.
  destruct (call_jet _ _ _ _) as [ok outputs]. cbn [fst snd].
  destruct ok; cbn [negb]; [|by rewrite Hlog].
  pose proof (scatter_loop_walk Stride starts sizes num_residuals outputs
    (ps_jacobians s) space
    (mkScattering (ps_jacobians s) initial
                  (seed_log seeded ++ [EvCallJet pass true])) eq_refl)
    as Hscatter.
  cbn [scatter_cursors scatter_log] in Hscatter. rewrite Hwalk in Hscatter.
  destruct (for_each (scatter_body _ _ _ _ _) _ _) as [scattered|]; [|done].
  destruct Hscatter as (Hc' & Hlog' & Hshape').
  eexists. split; [done|]. cbn.
  rewrite Hc', Hlog', Hlog, <- !app_assoc. split_and!; try done.
  split; [done|]. cbn [ps_jets]. lia.
Qed.

(** The passes [t0, t0 + len) never read past the section vector and
    return; the first failing invocation ends them with the residuals
    untouched. *)
Lemma run_passes_general (len : nat) : ∀ t0 (s : pass_state T),
  pass_inv sizes starts N s →
  t0 + Z.of_nat len ≤ strides →
  ∃ ok res jac log ws,
    passes (seqZ t0 (Z.of_nat len)) s = (Returned ok res (Some jac), log) ∧
    shape jac = shape (ps_jacobians s) ∧
    scalar_calls log = scalar_calls (ps_log s) ∧
    written log = written (ps_log s) ++ ws ∧
    Forall (λ w, requested (ps_jacobians s) w.1.1 = true) ws ∧
    if ok then
      jet_calls log = jet_calls (ps_log s) ++ replicate len true ∧
      if bool_decide (len ≠ 0%nat ∧ t0 + Z.of_nat len = strides) then
        residual_writes log = residual_writes (ps_log s) ++ seqZ 0 num_residuals ∧
        ∃ jets outputs,
          jet_a <$> jets = jet_a <$> ps_jets s ∧
          Forall (λ jet, length (jet_v jet) = Z.to_nat Stride) jets ∧
          res = copy_residuals (call jets outputs).2 num_residuals (ps_residuals s)
      else
        residual_writes log = residual_writes (ps_log s) ∧ res = ps_residuals s
    else
      res = ps_residuals s ∧
      residual_writes log = residual_writes (ps_log s) ∧
      ∃ k log' jets outputs,
        (k < len)%nat ∧
        log = log' ++ [EvCallJet (t0 + Z.of_nat k) false] ∧
        jet_calls log' = jet_calls (ps_log s) ++ replicate k true ∧
        jet_a <$> jets = jet_a <$> ps_jets s ∧
        Forall (λ jet, length (jet_v jet) = Z.to_nat Stride) jets ∧
        (call jets outputs).1 = false.
Proof.
  induction len as [|len IH]; intros t0 s Hinv Hlen.
  { exists true, (ps_residuals s), (ps_jacobians s), (ps_log s), [].
    cbn. rewrite !app_nil_r. split_and!; try done. }
  rewrite seqZ_cons by lia. cbn [run_passes].
  replace (Z.pred (Z.of_nat (S len))) with (Z.of_nat len) by lia.
  destruct (run_pass_general t0 s Hinv) as (hits & jets & Hact & Ha & Hv & Hcall).
  cbn zeta in Hcall.
  destruct (seed_events_projections t0 hits) as (S1 & S2 & S3 & S4 & S5).
  destruct (call jets (ps_outputs s)) as [[] outputs] eqn:Ecall;
    cbn [fst snd] in Hcall.
  2: { rewrite Hcall.
    eexists false, _, _, _, []. split; [done|]. split_and!; try done.
    - rewrite !scalar_calls_app, S4. cbn. by rewrite !app_nil_r.
    - rewrite !written_app, S2. cbn. by rewrite !app_nil_r.
    - rewrite !residual_writes_app, S5. cbn. by rewrite !app_nil_r.
    - exists 0%nat, (ps_log s ++ seed_events t0 hits), jets, (ps_outputs s).
      split_and!; try done; [lia|by rewrite Z.add_0_r| |by rewrite Ecall].
      rewrite jet_calls_app, S3. done. }
  destruct Hcall as (s' & Hrun & Hinv' & Hshape' & Ha' & _ & Hres' & Hlog').
  rewrite Hrun.
  destruct (IH (Z.succ t0) s' Hinv') as
    (ok & res & jac & log & ws & Hpasses & Hshape & Hscalar & Hwritten & Hws & Hrest);
    [lia|].
  rewrite Hpasses.
  pose proof (pass_log_projections (ps_log s) t0 hits num_residuals
                (bool_decide (t0 = strides - 1))) as Hproj.
  cbn zeta in Hproj, Hlog'. rewrite <- Hlog' in Hproj.
  destruct Hproj as (P1 & P2 & P3 & P4 & P5).
  exists ok, res, jac, log, (columns_of num_residuals hits ++ ws).
  split; [done|]. split; [congruence|]. split; [congruence|].
  split; [by rewrite Hwritten, P2, <- app_assoc|]. split.
  { apply Forall_app. split.
    - unfold columns_of. apply Forall_bind.
      eapply Forall_impl; [exact Hact|]. intros h Hh. cbn beta.
      apply Forall_fmap, Forall_true. done.
    - eapply Forall_impl; [exact Hws|]. intros w Hw. cbn beta in *.
      by rewrite <- (shape_requested _ _ _ Hshape'). }
  destruct ok.
  - destruct Hrest as [Hcalls Hrest]. split.
    { by rewrite Hcalls, P3, <- app_assoc. }
    destruct len as [|len'].
    + (* this was the only pass of the list *)
      rewrite bool_decide_eq_false_2 in Hrest by tauto.
      destruct Hrest as [Hrw ->]. rewrite Hrw, P5, Hres'.
      case_bool_decide as Hlast.
      * rewrite bool_decide_eq_true_2 by lia. split; [done|].
        exists jets, (ps_outputs s). by rewrite Ecall.
      * rewrite bool_decide_eq_false_2 by lia. by rewrite app_nil_r.
    + assert (t0 ≠ strides - 1) as Hnotlast by lia.
      rewrite bool_decide_eq_false_2 in Hres', P5 by done.
      rewrite app_nil_r in P5.
      destruct (decide (Z.succ t0 + Z.of_nat (S len') = strides)) as [E|E].
      * rewrite bool_decide_eq_true_2 in Hrest by (split; lia).
        rewrite bool_decide_eq_true_2 by (split; lia).
        destruct Hrest as (Hrw & jets' & outputs' & ? & ? & ->).
        split; [congruence|]. exists jets', outputs'.
        split_and!; [congruence|done|congruence].
      * rewrite bool_decide_eq_false_2 in Hrest by (intros [? ?]; lia).
        rewrite bool_decide_eq_false_2 by (intros [? ?]; lia).
        destruct Hrest as [Hrw ->]. split; congruence.
  - destruct Hrest as (-> & Hrw & k & log' & jets' & outputs' & Hk & -> & Hcalls & ? & ? & ?).
    assert (t0 ≠ strides - 1) as Hnotlast by lia.
    rewrite bool_decide_eq_false_2 in Hres', P5 by done.
    rewrite app_nil_r in P5.
    split_and!; [congruence..|].
    exists (S k), log', jets', outputs'.
    split_and!; try done; [lia| | |congruence].
    + do 3 f_equal. lia.
    + by rewrite Hcalls, P3, <- app_assoc.
Qed.
End General.

(** ** [Evaluate] on the derivative path, for every block layout *)

Lemma length_load_block {T} `{Scalar T} (block : list T) size jets cursor :
  length (load_block block size jets cursor) = length jets.
Proof.
  unfold load_block. generalize (seqZ 0 size). intros js. revert jets.
  induction js as [|j js IH]; intros jets; simpl; [done|].
  rewrite IH. unfold set_a. by rewrite length_alter.
Qed.

Lemma length_discover {T} `{Scalar T} parameters
    (slots : list (option (list T))) sizes : ∀ i d,
  length (input_jets (discover parameters slots i sizes d)) =
  length (input_jets d).
Proof.
  induction sizes as [|size sizes IH]; intros i d; simpl; [done|].
  rewrite IH. unfold discover_block. simpl. apply length_load_block.
Qed.

Lemma sum_sizes_le_space sizes : ∀ i acc,
  foldl Z.add acc sizes ≤ acc + Z.of_nat (length (index_space i sizes)).
Proof.
  induction sizes as [|size sizes IH]; intros i acc; simpl; [lia|].
  rewrite length_app, length_fmap, length_seqZ.
  specialize (IH (S i) (acc + size)). lia.
Qed.

Lemma seqZ_to_nat m len : seqZ m len = seqZ m (Z.of_nat (Z.to_nat len)).
Proof. unfold seqZ. by rewrite Nat2Z.id. Qed.

Section EvaluateGeneral.
Context {T : Type} `{Scalar T}.
Variable functor_ : CostFunctor T.
Variables (Stride : Z) (sizes : list Z) (num_residuals : Z).
Variables (parameters : list (list T)) (residuals : list T).
Variable slots : list (option (list T)).

Local Abbreviation D := (discovery_walk Stride sizes parameters slots).
Local Abbreviation call :=
  (pass_call functor_ Stride sizes (jet_parameters D)).

Lemma discovery_cursor_total :
  discovery_cursor D = Z.of_nat (length (index_space 0 sizes)).
Proof. unfold discovery_walk. by rewrite discover_cursor. Qed.

Lemma discovery_pass_inv outputs log :
  pass_inv sizes (section_starts D) (discovery_cursor D)
           (mkPassState (input_jets D) outputs 0 0 residuals slots log).
Proof.
  split; cbn.
  - split_and!; [done..|]. exists (start_derivative_section D).
    split; [done|]. cbn. lia.
  - unfold discovery_walk. rewrite length_discover. simpl.
    rewrite length_replicate.
    pose proof (sum_sizes_le_space sizes 0 0). lia.
Qed.

Lemma Evaluate_passes strides :
  0 < num_residuals →
  num_active_parameters D ≠ 0 →
  num_strides Stride (num_active_parameters D) = Some strides →
  ∃ ok res jac log,
    Evaluate functor_ Stride sizes num_residuals parameters residuals
             (Some slots) = (Returned ok res (Some jac), log) ∧
    shape jac = shape slots ∧
    scalar_calls log = [] ∧
    Forall (λ w, requested slots w.1.1 = true) (written log) ∧
    if ok then
      jet_calls log = replicate (Z.to_nat strides) true ∧
      if bool_decide (0 < strides) then
        residual_writes log = seqZ 0 num_residuals ∧
        ∃ jets outputs,
          jet_a <$> jets = jet_a <$> input_jets D ∧
          Forall (λ jet, length (jet_v jet) = Z.to_nat Stride) jets ∧
          res = copy_residuals (call jets outputs).2 num_residuals residuals
      else residual_writes log = [] ∧ res = residuals
    else
      res = residuals ∧
      residual_writes log = [] ∧
      ∃ k log' jets outputs,
        (k < Z.to_nat strides)%nat ∧
        log = log' ++ [EvCallJet (Z.of_nat k) false] ∧
        jet_calls log' = replicate k true ∧
        jet_a <$> jets = jet_a <$> input_jets D ∧
        Forall (λ jet, length (jet_v jet) = Z.to_nat Stride) jets ∧
        (call jets outputs).1 = false.
Proof.
  intros Hres Hactive Hstrides. unfold Evaluate.
  destruct (Z.ltb_spec 0 num_residuals) as [_|]; [|lia]. cbn [negb].
  rewrite bool_decide_eq_false_2 by done. rewrite Hstrides.
  destruct (Z.le_gt_cases strides 0) as [Hneg|Hpos].
  { (* no pass at all *)
    replace (seqZ 0 strides) with (@nil Z)
      by (unfold seqZ; by replace (Z.to_nat strides) with 0%nat by lia).
    cbn. eexists true, _, _, _. split; [done|].
    replace (Z.to_nat strides) with 0%nat by lia.
    rewrite bool_decide_eq_false_2 by lia. split_and!; done. }
  rewrite seqZ_to_nat.
  destruct (run_passes_general functor_ Stride sizes num_residuals
              (section_starts D) (jet_parameters D) strides (discovery_cursor D)
              ltac:(rewrite discovery_cursor_total; lia)
              (Z.to_nat strides) 0
              (mkPassState (input_jets D)
                           (replicate (Z.to_nat num_residuals) (zero_jet Stride))
                           0 0 residuals slots [])
              (discovery_pass_inv _ _))
    as (ok & res & jac & log & ws & Hrun & Hshape & Hscalar & Hwritten & Hws & Hrest);
    [lia|].
  rewrite Hrun. exists ok, res, jac, log. cbn in *.
  split_and!; try done; [by rewrite Hwritten|].
  destruct ok.
  - rewrite bool_decide_eq_true_2 in Hrest by lia.
    rewrite bool_decide_eq_true_2 by lia. done.
  - destruct Hrest as (? & ? & k & log' & jets & outputs & ? & -> & ?).
    split_and!; try done. exists k, log', jets, outputs.
    by rewrite Z.add_0_l in *.
Qed.
End EvaluateGeneral.

(** ** [Evaluate] on the derivative path, for blocks of positive size *)

Section EvaluateStrides.
Context {T : Type} `{Scalar T}.
Variable functor_ : CostFunctor T.
Variables (Stride : Z) (sizes : list Z) (num_residuals : Z).
Variables (parameters : list (list T)) (residuals : list T).
Variable slots : list (option (list T)).

Local Abbreviation D := (discovery_walk Stride sizes parameters slots).
Local Abbreviation space := (index_space 0 sizes).
Local Abbreviation act := (active slots).

Lemma discovery_between_passes outputs log :
  Forall (λ size, 0 < size) sizes →
  between_passes sizes (section_starts D) slots [] space
                 (mkPassState (input_jets D) outputs 0 0 residuals slots log).
Proof.
  intros Hpos. split_and!; [done..|]. cbn. split; [done|]. split; [done|].
  unfold section_starts, discovery_walk.
  by rewrite (discover_sections parameters slots sizes 0 _ Hpos).
Qed.

(** A successful call makes [num_strides] passes, and these handle the
    active positions in order, [Stride] at a time. *)
Lemma Evaluate_stride_passes strides res jac log :
  0 < num_residuals → 0 ≤ Stride →
  Forall (λ size, 0 < size) sizes →
  num_active_parameters D ≠ 0 →
  num_strides Stride (num_active_parameters D) = Some strides →
  Evaluate functor_ Stride sizes num_residuals parameters residuals (Some slots)
    = (Returned true res jac, log) →
  ∃ ys zs,
    let hits := hits_of act 0 0 ys in
    space = ys ++ zs ∧
    count_active act ys =
      Z.min (Z.max 0 strides * Stride) (count_active act space) ∧
    seeded log = positions_of hits ∧
    written log = columns_of num_residuals hits ∧
    jet_calls log = replicate (Z.to_nat strides) true.
Proof.
  intros Hres HS Hpos Hactive Hstrides. unfold Evaluate.
  destruct (Z.ltb_spec 0 num_residuals) as [_|]; [|lia]. cbn [negb].
  rewrite bool_decide_eq_false_2 by done. rewrite Hstrides.
  destruct (Z.le_gt_cases strides 0) as [Hneg|Hposs].
  { replace (seqZ 0 strides) with (@nil Z)
      by (unfold seqZ; by replace (Z.to_nat strides) with 0%nat by lia).
    cbn. intros [= <- <- <-]. exists [], space. cbn.
    replace (Z.to_nat strides) with 0%nat by lia.
    rewrite count_active_nil. split_and!; try done.
    pose proof (count_active_nonneg act space). lia. }
  rewrite seqZ_to_nat.
  destruct (run_passes_spec functor_ Stride sizes num_residuals
              (section_starts D) (jet_parameters D) strides slots HS
              (Z.to_nat strides) 0
              (mkPassState (input_jets D)
                           (replicate (Z.to_nat num_residuals) (zero_jet Stride))
                           0 0 residuals slots [])
              [] space (discovery_between_passes _ _ Hpos))
    as (ok & res' & jac' & log' & Hrun & _ & _ & Hrest); [lia|].
  rewrite Hrun. intros [= -> <- <- <-].
  destruct Hrest as (ys & zs & Hsplit & Hcount & Hseeded & Hwritten & Hcalls & _).
  exists ys, zs. cbn in *.
  rewrite Z.max_r, <- (Z2Nat.id strides) at 1 by lia.
  split_and!; done.
Qed.
End EvaluateStrides.

(** ** The single-precision stride count *)

Lemma digits2_log2 p : Zpos (digits2_pos p) = Z.log2 (Zpos p) + 1.
Proof.
  induction p as [p IH|p IH|]; simpl; try done.
  - rewrite Pos2Z.inj_succ, IH. destruct p; simpl; lia.
  - rewrite Pos2Z.inj_succ, IH. destruct p; simpl; lia.
Qed.

Lemma shr_1_m mrs : 0 ≤ shr_m mrs → shr_m (shr_1 mrs) = shr_m mrs / 2.
Proof.
  destruct mrs as [m r s]. simpl. intros Hm.
  destruct m as [|[p|p|]|]; cbn [shr_m]; try lia; try done.
  - apply Z.div_unique with 1; lia.
  - apply Z.div_unique with 0; lia.
Qed.

Lemma iter_shr_1_m p : ∀ mrs,
  0 ≤ shr_m mrs → shr_m (SpecFloat.iter_pos shr_1 p mrs) = shr_m mrs / 2 ^ Zpos p.
Proof.
  induction p as [p IH|p IH|]; intros mrs Hm; cbn [SpecFloat.iter_pos].
  - assert (0 ≤ shr_m (shr_1 mrs)) as H1.
    { rewrite shr_1_m by done. apply Z.div_pos; lia. }
    assert (0 ≤ shr_m (SpecFloat.iter_pos shr_1 p (shr_1 mrs))) as H2.
    { rewrite IH by done. apply Z.div_pos; lia. }
    rewrite (IH _ H2), (IH _ H1), shr_1_m by done.
    rewrite !Z.div_div by lia. f_equal.
    rewrite <- Z.pow_add_r, <- Z.pow_succ_r by lia. f_equal. lia.
  - assert (0 ≤ shr_m (SpecFloat.iter_pos shr_1 p mrs)) as H2.
    { rewrite IH by done. apply Z.div_pos; lia. }
    rewrite (IH _ H2), (IH _ Hm).
    rewrite !Z.div_div by lia. f_equal.
    rewrite <- Z.pow_add_r by lia. f_equal. lia.
  - by rewrite shr_1_m.
Qed.

Lemma shr_record_of_loc_m m l : shr_m (shr_record_of_loc m l) = m.
Proof. by destruct l as [|[]]. Qed.

Lemma fexp_binary32 e : fexp 24 128 e = Z.max (e - 24) (-149).
Proof. reflexivity. Qed.

Lemma Zdigits2_log2 m : 0 < m → Zdigits2 m = Z.log2 m + 1.
Proof. destruct m as [|p|p]; [lia| |lia]. intros _. apply digits2_log2. Qed.

Lemma shr_fexp_spec m e l :
  0 < m → -149 ≤ e →
  0 < shr_m (shr_fexp 24 128 m e l).1 ∧
  e ≤ (shr_fexp 24 128 m e l).2 ∧
  Z.log2 (shr_m (shr_fexp 24 128 m e l).1) + (shr_fexp 24 128 m e l).2
    = Z.log2 m + e.
Proof.
  intros Hm He. unfold shr_fexp. rewrite fexp_binary32, Zdigits2_log2 by done.
  pose proof (Z.log2_nonneg m) as Hlog.
  pose proof (Z.log2_spec m Hm) as [Hlow _].
  unfold shr.
  destruct (Z.max (Z.log2 m + 1 + e - 24) (-149) - e) as [|k|k] eqn:Hk;
    cbn [fst snd]; rewrite ?shr_record_of_loc_m; try (split_and!; lia).
  rewrite iter_shr_1_m by (rewrite shr_record_of_loc_m; lia).
  rewrite shr_record_of_loc_m.
  assert (Z.pos k ≤ Z.log2 m) as Hle by lia.
  assert (2 ^ Z.pos k ≤ m) as Hpow.
  { etrans; [|exact Hlow]. apply Z.pow_le_mono_r; lia. }
  split_and!.
  - apply Z.div_str_pos. lia.
  - lia.
  - rewrite <- Z.shiftr_div_pow2 by lia. rewrite Z.log2_shiftr by done. lia.
Qed.

Lemma round_nearest_even_bounds m l :
  m ≤ round_nearest_even m l ≤ m + 1.
Proof. destruct l as [|[]]; simpl; try destruct (Z.even m); lia. Qed.

Lemma binary_round_aux_spec sx mx ex lx :
  0 < mx → -149 ≤ ex →
  ∃ m e,
    ex ≤ e ∧
    Z.log2 mx + ex ≤ Z.log2 (Zpos m) + e ≤ Z.log2 mx + ex + 1 ∧
    binary_round_aux 24 128 sx mx ex lx =
      if e <=? 104 then S754_finite sx m e else S754_infinity sx.
Proof.
  intros Hm He. unfold binary_round_aux.
  destruct (shr_fexp_spec mx ex lx Hm He) as (H1 & H2 & H3).
  destruct (shr_fexp 24 128 mx ex lx) as [mrs' e']. cbn [fst snd] in *.
  pose proof (round_nearest_even_bounds (shr_m mrs') (loc_of_shr_record mrs'))
    as Hround.
  set (m2 := round_nearest_even (shr_m mrs') (loc_of_shr_record mrs')) in *.
  assert (Z.log2 (shr_m mrs') ≤ Z.log2 m2 ≤ Z.log2 (shr_m mrs') + 1) as Hlog2.
  { split; [apply Z.log2_le_mono; lia|].
    etrans; [apply Z.log2_le_mono; apply Hround|].
    replace (shr_m mrs' + 1) with (Z.succ (shr_m mrs')) by lia.
    pose proof (Z.log2_succ_le (shr_m mrs')). lia. }
  destruct (shr_fexp_spec m2 e' loc_Exact) as (H1' & H2' & H3'); [lia..|].
  destruct (shr_fexp 24 128 m2 e' loc_Exact) as [mrs'' e'']. cbn [fst snd] in *.
  destruct (shr_m mrs'') as [|m|m] eqn:Em; [lia| |lia].
  exists m, e''. split_and!; [lia..|]. reflexivity.
Qed.

Lemma Pos_iter_xO p c : Zpos (Pos.iter xO p c) = Zpos p * 2 ^ Zpos c.
Proof.
  apply Pos.iter_ind.
  - rewrite Pos2Z.inj_xO. change (2 ^ 1) with 2. lia.
  - intros q a' IH. rewrite Pos2Z.inj_xO, IH, Pos2Z.inj_succ, Z.pow_succ_r by lia.
    lia.
Qed.

Lemma of_int_spec n :
  0 < n < 2 ^ 31 →
  ∃ m e,
    binary_normalize 24 128 n 0 false = S754_finite false m e ∧
    -23 ≤ e ∧ 0 ≤ Z.log2 (Zpos m) + e ≤ 31.
Proof.
  intros [Hn Hlt]. destruct n as [|p|p]; [lia| |lia].
  assert (0 ≤ Z.log2 (Zpos p) ≤ 30) as Hlog.
  { split; [apply Z.log2_nonneg|].
    assert (Z.log2 (Z.pos p) < 31); [|lia]. by apply Z.log2_lt_pow2. }
  unfold binary_normalize, binary_round.
  rewrite fexp_binary32, digits2_log2.
  assert (∃ mz ez,
    shl_align p 0 (Z.max (Z.log2 (Z.pos p) + 1 + 0 - 24) (-149)) = (mz, ez) ∧
    -23 ≤ ez ∧ Z.log2 (Zpos mz) + ez = Z.log2 (Zpos p))
    as (mz & ez & -> & Hez & Hmz).
  { unfold shl_align.
    destruct (Z.max (Z.log2 (Z.pos p) + 1 + 0 - 24) (-149) - 0) as [|c|c] eqn:Hc;
      try (eexists _, _; split; [done|]; lia).
    eexists _, _. split; [done|]. split; [lia|].
    rewrite Pos_iter_xO, Z.log2_mul_pow2 by lia. lia. }
  destruct (binary_round_aux_spec false (Zpos mz) ez loc_Exact)
    as (m & e & He & Hme & ->); [lia..|].
  exists m, e.
  pose proof (Z.log2_nonneg (Z.pos m)).
  destruct (Z.leb_spec e 104); [|lia]. split_and!; [done|lia..].
Qed.

Lemma div_spec mx ex my ey :
  -23 ≤ ex → 0 ≤ Z.log2 (Zpos mx) + ex ≤ 31 →
  -23 ≤ ey → 0 ≤ Z.log2 (Zpos my) + ey ≤ 31 →
  ∃ m e,
    SFdiv 24 128 (S754_finite false mx ex) (S754_finite false my ey) =
      if e <=? 104 then S754_finite false m e else S754_infinity false.
Proof.
  intros Hex Hx Hey Hy. unfold SFdiv, SFdiv_core_binary.
  rewrite fexp_binary32, !Zdigits2_log2 by lia.
  pose proof (Z.log2_nonneg (Z.pos mx)) as Hlx.
  pose proof (Z.log2_nonneg (Z.pos my)) as Hly.
  pose proof (Z.log2_spec (Z.pos mx) ltac:(lia)) as [Hx1 Hx2].
  pose proof (Z.log2_spec (Z.pos my) ltac:(lia)) as [Hy1 Hy2].
  set (e' := Z.min (Z.max (Z.log2 (Z.pos mx) + 1 + ex - (Z.log2 (Z.pos my) + 1 + ey) - 24)
                          (-149)) (ex - ey)).
  set (m' := match ex - ey - e' with
             | 0 => Z.pos mx
             | Z.pos _ => Z.shiftl (Z.pos mx) (ex - ey - e')
             | Z.neg _ => 0
             end).
  assert (Z.pos my ≤ m') as Hm'.
  { subst m'. destruct (ex - ey - e') as [|s|s] eqn:Hs; [| |lia].
    - (* no shift: the dividend has at least 24 more digits *)
      assert (Z.log2 (Z.pos my) + 24 ≤ Z.log2 (Z.pos mx)) by lia.
      assert (2 ^ Z.succ (Z.log2 (Z.pos my)) ≤ 2 ^ Z.log2 (Z.pos mx))
        by (apply Z.pow_le_mono_r; lia).
      lia.
    - rewrite Z.shiftl_mul_pow2 by lia.
      assert (Z.log2 (Z.pos my) + 24 ≤ Z.log2 (Z.pos mx) + Z.pos s) by lia.
      assert (2 ^ Z.succ (Z.log2 (Z.pos my))
                ≤ 2 ^ (Z.log2 (Z.pos mx) + Z.pos s))
        by (apply Z.pow_le_mono_r; lia).
      rewrite Z.pow_add_r in * by lia.
      assert (0 < 2 ^ Z.pos s) by (apply Z.pow_pos_nonneg; lia).
      nia. }
  pose proof (Z.div_str_pos m' (Z.pos my) ltac:(lia)) as Hq.
  unfold Z.div in Hq. destruct (Z.div_eucl m' (Z.pos my)) as [q r].
  destruct (binary_round_aux_spec (xorb false false) q e'
              (new_location (Z.pos my) r))
    as (m & e & _ & _ & ->); [lia|subst e'; lia|].
  by exists m, e.
Qed.

(** At least one pass is made whenever the stride count is defined. *)
Lemma num_strides_pos Stride n strides :
  0 < Stride < 2 ^ 31 → 0 < n < 2 ^ 31 →
  num_strides Stride n = Some strides → 1 ≤ strides.
Proof.
  intros HS Hn. unfold num_strides, Binary32.of_int, Binary32.div.
  destruct (of_int_spec n Hn) as (mx & ex & -> & Hex & Hx).
  destruct (of_int_spec Stride HS) as (my & ey & -> & Hey & Hy).
  destruct (div_spec mx ex my ey Hex Hx Hey Hy) as (m & e & ->).
  destruct (e <=? 104); [|done]. cbn [Binary32.ceil mbind option_bind].
  unfold Binary32.to_int. case_match; [|done]. intros [= <-].
  destruct e as [|e|e].
  - lia.
  - assert (0 < 2 ^ Z.pos e) by (apply Z.pow_pos_nonneg; lia). nia.
  - assert (0 < Z.pow_pos 2 e) by (apply (Z.pow_pos_nonneg 2 (Z.pos e)); lia).
    assert (- Z.pos m / Z.pow_pos 2 e < 0); [|lia].
    apply Z.div_lt_upper_bound; lia.
Qed.

(** *** Below [2^24] the stride count is exact *)

Lemma log2_23 m : 2 ^ 23 ≤ m < 2 ^ 24 → Z.log2 m = 23.
Proof. intros Hm. apply Z.log2_unique; [lia|]. exact Hm. Qed.

Lemma round_canonical s m e :
  2 ^ 23 ≤ Zpos m < 2 ^ 24 → -149 ≤ e ≤ 104 →
  binary_round_aux 24 128 s (Zpos m) e loc_Exact = S754_finite s m e.
Proof.
  intros Hm He. unfold binary_round_aux, shr_fexp.
  rewrite fexp_binary32, Zdigits2_log2, (log2_23 _ Hm) by lia.
  replace (Z.max (23 + 1 + e - 24) (-149) - e) with 0 by lia.
  cbn [shr shr_record_of_loc loc_of_shr_record shr_m round_nearest_even].
  rewrite fexp_binary32, Zdigits2_log2, (log2_23 _ Hm) by lia.
  replace (Z.max (23 + 1 + e - 24) (-149) - e) with 0 by lia.
  cbn [shr shr_record_of_loc shr_m].
  destruct (Z.leb_spec e (128 - 24)); [done|lia].
Qed.

Lemma of_int_exact n :
  0 < n < 2 ^ 24 →
  ∃ m, Binary32.of_int n = S754_finite false m (Z.log2 n - 23) ∧
       Zpos m = n * 2 ^ (23 - Z.log2 n) ∧ 2 ^ 23 ≤ Zpos m < 2 ^ 24.
Proof.
  intros [Hn Hlt]. destruct n as [|p|p]; [lia| |lia].
  assert (0 ≤ Z.log2 (Zpos p) ≤ 23) as Hlog.
  { split; [apply Z.log2_nonneg|].
    assert (Z.log2 (Z.pos p) < 24); [|lia]. by apply Z.log2_lt_pow2. }
  pose proof (Z.log2_spec (Zpos p) ltac:(lia)) as [Hlo Hhi].
  unfold Binary32.of_int, binary_normalize, binary_round.
  rewrite fexp_binary32, digits2_log2.
  assert (∃ mz,
    shl_align p 0 (Z.max (Z.log2 (Z.pos p) + 1 + 0 - 24) (-149))
      = (mz, Z.log2 (Zpos p) - 23) ∧
    Zpos mz = Zpos p * 2 ^ (23 - Z.log2 (Zpos p)))
    as (mz & -> & Hmz).
  { unfold shl_align.
    destruct (Z.max (Z.log2 (Z.pos p) + 1 + 0 - 24) (-149) - 0) as [|c|c] eqn:Hc;
      [| lia |].
    - exists p. replace (Z.log2 (Z.pos p)) with 23 by lia. split; [done|]. simpl. lia.
    - eexists. split; [f_equal; lia|].
      rewrite Pos_iter_xO. f_equal. f_equal. lia. }
  assert (2 ^ 23 ≤ Zpos mz < 2 ^ 24) as Hrange; [rewrite Hmz; split|].
  - replace (2 ^ 23) with (2 ^ Z.log2 (Z.pos p) * 2 ^ (23 - Z.log2 (Z.pos p))).
    + apply Z.mul_le_mono_nonneg_r; [apply Z.pow_nonneg|]; lia.
    + rewrite <- Z.pow_add_r by lia. f_equal. lia.
  - replace (2 ^ 24) with (2 ^ Z.succ (Z.log2 (Z.pos p)) * 2 ^ (23 - Z.log2 (Z.pos p))).
    + apply Z.mul_lt_mono_pos_r; [apply Z.pow_pos_nonneg|]; lia.
    + rewrite <- Z.pow_add_r by lia. f_equal. lia.
  - exists mz. split; [|split; [done|exact Hrange]].
    apply round_canonical; lia.
Qed.

Lemma new_location_spec my r :
  0 < my → 0 ≤ r < my →
  (r = 0 → new_location my r = loc_Exact) ∧
  (r ≠ 0 → new_location my r ≠ loc_Exact) ∧
  (my < 2 * r → new_location my r = loc_Inexact Gt).
Proof.
  intros Hmy Hr. unfold new_location, new_location_even, new_location_odd.
  destruct (Z.even my); cbv beta;
    (destruct (Z.eqb_spec r 0) as [->|Hne]; [split_and!; [done|done|lia]|]);
    (split_and!; [done|done|]); intros Hgt;
    by rewrite (proj2 (Z.compare_gt_iff _ _)) by lia.
Qed.

Lemma loc_of_shr_record_of_loc m l :
  loc_of_shr_record (shr_record_of_loc m l) = l.
Proof. by destruct l as [|[]]. Qed.

Lemma shr_1_loc q l :
  0 < q →
  loc_of_shr_record (shr_1 (shr_record_of_loc q l)) =
    match Z.odd q, l with
    | false, loc_Exact => loc_Exact
    | false, _ => loc_Inexact Lt
    | true, loc_Exact => loc_Inexact Eq
    | true, _ => loc_Inexact Gt
    end.
Proof. intros Hq. destruct q as [|[p|p|]|]; try lia; by destruct l as [|[]]. Qed.

Lemma round_bounds m l :
  m ≤ round_nearest_even m l ≤ m + 1 ∧
  (l = loc_Exact → round_nearest_even m l = m) ∧
  (l = loc_Inexact Gt → round_nearest_even m l = m + 1).
Proof.
  split; [apply round_nearest_even_bounds|]. split; intros ->; reflexivity.
Qed.

Lemma renormalize m2 E :
  2 ^ 23 ≤ m2 ≤ 2 ^ 24 → -149 ≤ E →
  ∃ mrs m3 e3,
    shr_fexp 24 128 m2 E loc_Exact = (mrs, e3) ∧ shr_m mrs = Zpos m3 ∧
    (Zpos m3 = m2 ∧ e3 = E ∨ m2 = 2 ^ 24 ∧ Zpos m3 = 2 ^ 23 ∧ e3 = E + 1).
Proof.
  intros Hm HE. unfold shr_fexp.
  rewrite fexp_binary32, Zdigits2_log2 by lia.
  destruct (Z.eq_dec m2 (2 ^ 24)) as [->|Hne].
  - change (Z.log2 (2 ^ 24)) with 24.
    replace (Z.max (24 + 1 + E - 24) (-149) - E) with 1 by lia.
    eexists _, _, _. split; [reflexivity|]. split; [reflexivity|].
    right. split_and!; [done..|lia].
  - rewrite (log2_23 m2) by lia.
    replace (Z.max (23 + 1 + E - 24) (-149) - E) with 0 by lia.
    destruct m2 as [|p|p]; [lia| |lia].
    eexists _, p, _. split; [reflexivity|]. split; [reflexivity|].
    by left.
Qed.

Lemma round_quotient my q r e :
  0 < my → 0 ≤ r < my → 2 ^ 23 ≤ q < 2 ^ 25 → -149 ≤ e ≤ 100 →
  let sh := if q <? 2 ^ 24 then 0 else 1 in
  ∃ m2 m3 e3,
    binary_round_aux 24 128 false q e (new_location my r)
      = S754_finite false m3 e3 ∧
    (Zpos m3 = m2 ∧ e3 = e + sh ∨
     m2 = 2 ^ 24 ∧ Zpos m3 = 2 ^ 23 ∧ e3 = e + sh + 1) ∧
    (∀ c, q * my + r ≤ c * (2 ^ sh * my) → m2 ≤ c) ∧
    (∀ c, 2 ^ sh * my < 2 * (q * my + r - c * (2 ^ sh * my)) → c + 1 ≤ m2).
Proof.
  intros Hmy Hr Hq He.
  destruct (new_location_spec my r Hmy Hr) as (Hexact & Hinexact & Hgt).
  unfold binary_round_aux, shr_fexp at 1.
  rewrite fexp_binary32, Zdigits2_log2 by lia.
  destruct (Z.ltb_spec q (2 ^ 24)) as [Hlt|Hge]; cbn zeta.
  - rewrite (log2_23 q) by lia.
    replace (Z.max (23 + 1 + e - 24) (-149) - e) with 0 by lia.
    cbn [shr]. rewrite loc_of_shr_record_of_loc, shr_record_of_loc_m.
    destruct (round_bounds q (new_location my r)) as (Hb & Hbe & Hbg).
    set (m2 := round_nearest_even q (new_location my r)) in *.
    destruct (renormalize m2 e) as (mrs & m3 & e3 & -> & -> & Hcase); [lia..|].
    exists m2, m3, e3. split_and!.
    + destruct (Z.leb_spec e3 (128 - 24)); [done|lia].
    + rewrite Z.add_0_r. exact Hcase.
    + intros c Hc. destruct (Z.eq_dec r 0) as [->|Hne].
      * rewrite Hbe by auto. nia.
      * assert (q < c) by nia. lia.
    + intros c Hc. destruct (Z.le_gt_cases (c + 1) q) as [|Hle]; [lia|].
      assert (c = q) as -> by nia.
      rewrite Hbg; [lia|]. apply Hgt. nia.
  - assert (Z.log2 q = 24) as ->.
    { apply Z.log2_unique; [lia|]. change (2 ^ Z.succ 24) with (2 ^ 25). lia. }
    replace (Z.max (24 + 1 + e - 24) (-149) - e) with 1 by lia.
    cbn [shr SpecFloat.iter_pos].
    rewrite shr_1_loc by lia.
    rewrite shr_1_m by (rewrite shr_record_of_loc_m; lia).
    rewrite shr_record_of_loc_m.
    set (l := match Z.odd q with
              | true => match new_location my r with
                        | loc_Exact => loc_Inexact Eq
                        | loc_Inexact _ => loc_Inexact Gt
                        end
              | false => match new_location my r with
                         | loc_Exact => loc_Exact
                         | loc_Inexact _ => loc_Inexact Lt
                         end
              end).
    destruct (round_bounds (q / 2) l) as (Hb & Hbe & Hbg).
    set (m2 := round_nearest_even (q / 2) l) in *.
    pose proof (Z.div_mod q 2 ltac:(lia)) as Hdiv.
    pose proof (Z.mod_pos_bound q 2 ltac:(lia)) as Hmod.
    rewrite Zmod_odd in Hdiv, Hmod.
    destruct (renormalize m2 (e + 1)) as (mrs & m3 & e3 & -> & -> & Hcase);
      [lia..|].
    exists m2, m3, e3. split_and!.
    + destruct (Z.leb_spec e3 (128 - 24)); [done|lia].
    + exact Hcase.
    + intros c Hc. change (2 ^ 1) with 2 in Hc.
      destruct (Z.odd q) eqn:Hodd.
      * assert (q / 2 < c) by nia. lia.
      * destruct (Z.eq_dec r 0) as [->|Hne].
        -- subst l. rewrite Hexact in * by done. rewrite Hbe by done. nia.
        -- assert (q / 2 < c) by nia. lia.
    + intros c Hc. change (2 ^ 1) with 2 in Hc.
      destruct (Z.le_gt_cases (c + 1) (q / 2)) as [|Hle]; [lia|].
      assert (c = q / 2) as -> by (destruct (Z.odd q); nia).
      destruct (Z.odd q) eqn:Hodd; [|nia].
      assert (r ≠ 0) as Hne by nia.
      rewrite Hbg; [lia|]. subst l.
      specialize (Hinexact Hne). by destruct (new_location my r).
Qed.

Lemma div_canonical mx ex my ey :
  2 ^ 23 ≤ Zpos mx < 2 ^ 24 → 2 ^ 23 ≤ Zpos my < 2 ^ 24 →
  -23 ≤ ex ≤ 0 → -23 ≤ ey ≤ 0 →
  SFdiv 24 128 (S754_finite false mx ex) (S754_finite false my ey) =
  binary_round_aux 24 128 false (Zpos mx * 2 ^ 24 / Zpos my) (ex - ey - 24)
    (new_location (Zpos my) ((Zpos mx * 2 ^ 24) mod Zpos my)).
Proof.
  intros Hmx Hmy Hex Hey. unfold SFdiv, SFdiv_core_binary.
  rewrite fexp_binary32, !Zdigits2_log2, !log2_23 by lia.
  replace (Z.min (Z.max (23 + 1 + ex - (23 + 1 + ey) - 24) (-149)) (ex - ey))
    with (ex - ey - 24) by lia.
  replace (ex - ey - (ex - ey - 24)) with 24 by lia.
  rewrite Z.shiftl_mul_pow2 by lia.
  unfold Z.div, Z.modulo.
  by destruct (Z.div_eucl (Z.pos mx * 2 ^ 24) (Z.pos my)).
Qed.

Lemma ceil_div_spec n d : 0 < d → (ceil_div n d - 1) * d < n ≤ ceil_div n d * d.
Proof.
  intros Hd. unfold ceil_div.
  pose proof (Z.div_mod (n + d - 1) d ltac:(lia)).
  pose proof (Z.mod_pos_bound (n + d - 1) d Hd). nia.
Qed.

Lemma ceil_neg_exponent m p k :
  (k - 1) * 2 ^ Zpos p < m ≤ k * 2 ^ Zpos p →
  - (- m / Z.pow_pos 2 p) = k.
Proof.
  intros Hm. change (Z.pow_pos 2 p) with (2 ^ Zpos p).
  assert (0 < 2 ^ Zpos p) by (apply Z.pow_pos_nonneg; lia).
  rewrite <- (Z.div_unique (- m) (2 ^ Zpos p) (- k) (k * 2 ^ Zpos p - m)); lia.
Qed.

Lemma ceil_finite m3 e3 m2 w k :
  0 ≤ w →
  Zpos m3 = m2 ∧ e3 = - w ∨ m2 = 2 ^ 24 ∧ Zpos m3 = 2 ^ 23 ∧ e3 = - w + 1 →
  (k - 1) * 2 ^ w < m2 ≤ k * 2 ^ w →
  Binary32.ceil (S754_finite false m3 e3) = Some k.
Proof.
  intros Hw Hcase Hk. unfold Binary32.ceil. f_equal.
  destruct Hcase as [[Hm ->]|(-> & Hm & ->)].
  - destruct w as [|p|p]; [| |lia].
    + change (- 0) with 0. change (2 ^ 0) with 1 in *. cbv iota. lia.
    + change (- Z.pos p) with (Z.neg p). cbv iota. apply ceil_neg_exponent. lia.
  - destruct (Z.eq_dec w 0) as [->|Hw0].
    { change (- 0 + 1) with 1. change (2 ^ 0) with 1 in Hk.
      change (2 ^ 1) with 2. cbv iota. lia. }
    destruct (Z.eq_dec w 1) as [->|Hw1].
    { change (- (1) + 1) with 0. change (2 ^ 1) with 2 in Hk.
      change (2 ^ 0) with 1. cbv iota. lia. }
    destruct (- w + 1) as [|p|p] eqn:He; [lia..|].
    apply ceil_neg_exponent.
    replace w with (Z.succ (Z.pos p)) in Hk by lia.
    rewrite Z.pow_succ_r in Hk by lia. lia.
Qed.

(** Below [2^24] the single-precision stride count is the exact
    ceiling. *)
Lemma num_strides_exact Stride n :
  0 < Stride < 2 ^ 24 → 0 < n < 2 ^ 24 →
  num_strides Stride n = Some (ceil_div n Stride).
Proof.
  intros HS Hn. unfold num_strides, Binary32.div.
  destruct (of_int_exact n Hn) as (mx & -> & Hmx & Hxr).
  destruct (of_int_exact Stride HS) as (my & -> & Hmy & Hyr).
  assert (0 ≤ Z.log2 n ≤ 23) as Hln.
  { split; [apply Z.log2_nonneg|].
    assert (Z.log2 n < 24); [|lia]. apply Z.log2_lt_pow2; lia. }
  assert (0 ≤ Z.log2 Stride ≤ 23) as HlS.
  { split; [apply Z.log2_nonneg|].
    assert (Z.log2 Stride < 24); [|lia]. apply Z.log2_lt_pow2; lia. }
  set (a := 23 - Z.log2 n) in *. set (b := 23 - Z.log2 Stride) in *.
  replace (Z.log2 n - 23) with (- a) by lia.
  replace (Z.log2 Stride - 23) with (- b) by lia.
  rewrite div_canonical by lia.
  set (N := Zpos mx * 2 ^ 24) in *.
  pose proof (Z.div_mod N (Zpos my) ltac:(lia)) as Hdiv.
  pose proof (Z.mod_pos_bound N (Zpos my) ltac:(lia)) as Hmod.
  set (q := N / Zpos my) in *. set (r := N mod Zpos my) in *.
  assert (2 ^ 23 ≤ q < 2 ^ 25) as Hq.
  { subst q N. split.
    - apply Z.div_le_lower_bound; lia.
    - apply Z.div_lt_upper_bound; lia. }
  destruct (round_quotient (Zpos my) q r (- a - - b - 24)) as
    (m2 & m3 & e3 & -> & Hcase & Hup & Hdown); [lia..|].
  set (sh := if q <? 2 ^ 24 then 0 else 1) in *.
  assert (0 ≤ sh ≤ 1) as Hsh by (subst sh; destruct (q <? 2 ^ 24); lia).
  set (w := a + 24 - b - sh).
  assert (0 ≤ w) as Hw by lia.
  pose proof (ceil_div_spec n Stride ltac:(lia)) as Hk.
  set (k := ceil_div n Stride) in *.
  assert (2 ^ w * (2 ^ sh * Zpos my) = Stride * (2 ^ a * 2 ^ 24)) as Hscale.
  { rewrite Hmy.
    transitivity (Stride * (2 ^ w * 2 ^ sh * 2 ^ b)); [lia|].
    rewrite <- !Z.pow_add_r by lia. do 2 f_equal. lia. }
  assert (q * Zpos my + r = n * (2 ^ a * 2 ^ 24)) as HN.
  { rewrite Z.mul_comm, <- Hdiv. subst N. rewrite Hmx. lia. }
  assert (0 < 2 ^ a * 2 ^ 24) as HP
    by (apply Z.mul_pos_pos; apply Z.pow_pos_nonneg; lia).
  assert (1 ≤ 2 ^ a) as Ha by (pose proof (Z.pow_pos_nonneg 2 a); lia).
  assert (2 ^ sh ≤ 2) as Hsh2.
  { change 2 with (2 ^ 1) at 2. apply Z.pow_le_mono_r; lia. }
  assert (0 < 2 ^ sh) as Hsh0 by (apply Z.pow_pos_nonneg; lia).
  assert ((k - 1) * 2 ^ w < m2 ≤ k * 2 ^ w) as Hm2.
  { split.
    - assert ((k - 1) * 2 ^ w + 1 ≤ m2); [|lia]. apply Hdown.
      rewrite HN.
      replace ((k - 1) * 2 ^ w * (2 ^ sh * Z.pos my))
        with ((k - 1) * (2 ^ w * (2 ^ sh * Z.pos my))) by lia.
      rewrite Hscale.
      replace (n * (2 ^ a * 2 ^ 24) - (k - 1) * (Stride * (2 ^ a * 2 ^ 24)))
        with ((n - (k - 1) * Stride) * (2 ^ a * 2 ^ 24)) by lia.
      nia.
    - apply Hup. rewrite HN.
      replace (k * 2 ^ w * (2 ^ sh * Z.pos my))
        with (k * (2 ^ w * (2 ^ sh * Z.pos my))) by lia.
      rewrite Hscale. nia. }
  rewrite (ceil_finite m3 e3 m2 w k Hw); [|destruct Hcase as [[? ?]|(? & ? & ?)];
                                           [left|right]; split_and!; lia|done].
  cbn [mbind option_bind]. unfold Binary32.to_int.
  assert (1 ≤ k ≤ n) by nia.
  destruct (Z.leb_spec (- 2 ^ 31) k); [|lia].
  destruct (Z.ltb_spec k (2 ^ 31)); [done|lia].
Qed.

(** ** The positions and columns of the hits *)

Lemma elem_of_hits_of {X} (act : X → bool) xs : ∀ p d h,
  h ∈ hits_of act p d xs →
  ∃ n, xs !! n = Some h.1.1 ∧ h.1.2 = p + Z.of_nat n ∧ act h.1.1 = true.
Proof.
  induction xs as [|x xs IH]; intros p d h Hh; cbn [hits_of] in Hh.
  { by apply elem_of_nil in Hh. }
  destruct (act x) eqn:Hx.
  - apply elem_of_cons in Hh as [->|Hh].
    + exists 0%nat. cbn. split_and!; [done|lia|done].
    + destruct (IH _ _ _ Hh) as (n & ? & ? & ?). exists (S n).
      split_and!; [done|lia|done].
  - destruct (IH _ _ _ Hh) as (n & ? & ? & ?). exists (S n).
    split_and!; [done|lia|done].
Qed.

Lemma hits_of_complete {X} (act : X → bool) xs : ∀ p d n x,
  xs !! n = Some x → act x = true →
  ∃ d', (x, p + Z.of_nat n, d') ∈ hits_of act p d xs.
Proof.
  induction xs as [|y xs IH]; intros p d n x Hn Hx; [done|].
  cbn [hits_of]. destruct n as [|n]; simplify_eq/=.
  - rewrite Hx. exists d. rewrite Z.add_0_r. left.
  - destruct (IH (p + 1) (if act y then d + 1 else d) n x Hn Hx) as [d' Hd'].
    exists d'. replace (p + Z.of_nat (S n)) with (p + 1 + Z.of_nat n) by lia.
    destruct (act y); [right|]; done.
Qed.

Lemma NoDup_hit_positions (act : nat * Z → bool) xs : ∀ p d,
  NoDup (positions_of (hits_of act p d xs)).
Proof.
  induction xs as [|x xs IH]; intros p d; cbn [hits_of]; [constructor|].
  destruct (act x); [|apply IH].
  unfold positions_of. rewrite fmap_cons. constructor; [|apply IH].
  cbn. intros Hin. apply list_elem_of_fmap in Hin as (h & Hp & Hh).
  apply elem_of_hits_of in Hh as (n & _ & Hpos & _). lia.
Qed.

Lemma elem_of_index_space sizes : ∀ i0 i j,
  (i, j) ∈ index_space i0 sizes ↔
  ∃ size, (i0 ≤ i)%nat ∧ sizes !! (i - i0)%nat = Some size ∧ 0 ≤ j < size.
Proof.
  induction sizes as [|size sizes IH]; intros i0 i j; cbn [index_space].
  { split; [by intros ?%elem_of_nil|]. by intros (? & ? & ? & ?). }
  rewrite elem_of_app, list_elem_of_fmap, IH. split.
  - intros [(j' & [= -> ->] & Hj)|(size' & Hi & Hsize & Hj)].
    + apply elem_of_seqZ in Hj. exists size.
      rewrite Nat.sub_diag. split_and!; [lia|done|lia..].
    + exists size'. replace (i - i0)%nat with (S (i - S i0)) by lia.
      split_and!; [lia|done|lia..].
  - intros (size' & Hi & Hsize & Hj).
    destruct (decide (i = i0)) as [->|Hne].
    + rewrite Nat.sub_diag in Hsize. simplify_eq/=. left.
      exists j. split; [done|]. apply elem_of_seqZ. lia.
    + right. exists size'.
      replace (i - i0)%nat with (S (i - S i0)) in Hsize by lia.
      split_and!; [lia|done|lia..].
Qed.

Lemma NoDup_index_space sizes : ∀ i0, NoDup (index_space i0 sizes).
Proof.
  induction sizes as [|size sizes IH]; intros i0; cbn [index_space];
    [constructor|].
  apply NoDup_app. split_and!; [|
    |apply IH].
  - apply NoDup_fmap_2; [by intros ?? [= ->]|apply NoDup_seqZ].
  - intros [i j] (j' & [= -> ->] & _)%list_elem_of_fmap
                 (size' & Hi & _)%elem_of_index_space. lia.
Qed.

Lemma elem_of_columns_of num_residuals (hits : list (nat * Z * Z * Z)) i k j :
  (i, k, j) ∈ columns_of num_residuals hits ↔
  (∃ h, h ∈ hits ∧ h.1.1 = (i, j)) ∧ 0 ≤ k < num_residuals.
Proof.
  unfold columns_of. rewrite list_elem_of_bind. split.
  - intros (h & Hk & Hh). apply list_elem_of_fmap in Hk as (k' & [= -> -> ->] & Hk).
    apply elem_of_seqZ in Hk. split; [|lia]. exists h. by destruct h as [[[] ?] ?].
  - intros [(h & Hh & Hij) Hk]. exists h. split; [|done].
    apply list_elem_of_fmap. exists k. destruct h as [[[] ?] ?]. simplify_eq/=.
    split; [done|]. apply elem_of_seqZ. lia.
Qed.

Lemma NoDup_columns_of num_residuals (act : nat * Z → bool) xs : ∀ p d,
  NoDup xs → NoDup (columns_of num_residuals (hits_of act p d xs)).
Proof.
  induction xs as [|x xs IH]; intros p d Hnd; cbn [hits_of]; [constructor|].
  apply NoDup_cons in Hnd as [Hx Hnd].
  destruct (act x); [|by apply IH].
  unfold columns_of. rewrite bind_cons. apply NoDup_app. split_and!.
  - apply NoDup_fmap_2; [by intros ?? [= ->]|apply NoDup_seqZ].
  - intros [[i k] j] Hin1 Hin2.
    apply list_elem_of_fmap in Hin1 as (k' & [= -> -> ->] & _).
    apply (elem_of_columns_of num_residuals) in Hin2 as [(h & Hh & Hij) _].
    apply elem_of_hits_of in Hh as (n & Hn & _). apply Hx.
    apply list_elem_of_lookup. exists n. rewrite Hn, Hij. by destruct x.
  - by apply IH.
Qed.

Lemma count_active_all {X} (act : X → bool) xs :
  Forall (λ x, act x = true) xs → count_active act xs = Z.of_nat (length xs).
Proof.
  induction 1 as [|x xs Hx _ IH]; [done|].
  rewrite count_active_cons, Hx, IH. cbn [length]. lia.
Qed.

Lemma count_active_le {X} (act : X → bool) xs :
  count_active act xs ≤ Z.of_nat (length xs).
Proof.
  induction xs as [|x xs IH]; [done|].
  rewrite count_active_cons. cbn [length]. destruct (act x); lia.
Qed.

Lemma count_active_none {X} (act : X → bool) xs :
  count_active act xs = 0 → hits_of act 0 0 xs = [] ∧
  ∀ p d, hits_of act p d xs = [].
Proof.
  intros Hzero.
  assert (∀ p d, hits_of act p d xs = []) as Hall; [|by split].
  induction xs as [|x xs IH]; intros p d; [done|].
  rewrite count_active_cons in Hzero. pose proof (count_active_nonneg act xs).
  cbn [hits_of]. destruct (act x); [lia|]. apply IH. lia.
Qed.

(** ** Enough passes handle every active position once *)

Section Cover.
Context {T : Type} `{Scalar T}.
Variable functor_ : CostFunctor T.
Variables (Stride : Z) (sizes : list Z) (num_residuals : Z).
Variables (parameters : list (list T)) (residuals : list T).
Variable slots : list (option (list T)).

Local Abbreviation D := (discovery_walk Stride sizes parameters slots).
Local Abbreviation space := (index_space 0 sizes).
Local Abbreviation act := (active slots).

(** When the stride count reaches [ceil (n / Stride)] for the [n] active
    positions of blocks of positive size, a successful call seeds the
    active positions, each once and in order, and writes each pair of a
    residual and a column of a requested block once. *)
Lemma enough_passes_cover_once strides res jac log :
  0 < num_residuals → 0 ≤ Stride →
  Forall (λ size, 0 < size) sizes →
  num_active_parameters D ≠ 0 →
  num_strides Stride (num_active_parameters D) = Some strides →
  num_active_parameters D ≤ strides * Stride →
  Evaluate functor_ Stride sizes num_residuals parameters residuals (Some slots)
    = (Returned true res jac, log) →
  seeded log = positions_of (hits_of act 0 0 space) ∧
  written log = columns_of num_residuals (hits_of act 0 0 space) ∧
  NoDup (seeded log) ∧ NoDup (written log) ∧
  (∀ n ij, space !! n = Some ij → act ij = true → Z.of_nat n ∈ seeded log) ∧
  (∀ i k j, (i, k, j) ∈ written log ↔
            (i, j) ∈ space ∧ requested slots i = true ∧ 0 ≤ k < num_residuals) ∧
  jet_calls log = replicate (Z.to_nat strides) true.
Proof.
  intros Hres HS Hpos Hactive Hstrides Henough Heval.
  destruct (Evaluate_stride_passes functor_ Stride sizes num_residuals parameters
              residuals slots strides res jac log Hres HS Hpos Hactive Hstrides
              Heval)
    as (ys & zs & Hsplit & Hcount & Hseeded & Hwritten & Hcalls).
  cbn zeta in *.
  assert (num_active_parameters D = count_active act space) as Hn.
  { unfold discovery_walk. rewrite discover_active; [done|].
    eapply Forall_impl; [exact Hpos|]. intros; simpl in *; lia. }
  assert (count_active act zs = 0) as Hzs.
  { pose proof (count_active_nonneg act zs).
    rewrite Hsplit, count_active_app in Hcount, Hn. lia. }
  assert (hits_of act 0 0 space = hits_of act 0 0 ys) as Hhits.
  { rewrite Hsplit, hits_of_app.
    rewrite (proj2 (count_active_none act zs Hzs)). apply app_nil_r. }
  rewrite Hhits, <- Hseeded, <- Hwritten.
  assert (NoDup (written log)) as Hnd.
  { rewrite Hwritten, <- Hhits. apply NoDup_columns_of, NoDup_index_space. }
  split_and!; try done.
  - rewrite Hseeded. apply NoDup_hit_positions.
  - intros n ij Hlook Hact.
    destruct (hits_of_complete act space 0 0 n ij Hlook Hact) as [d Hd].
    rewrite Hseeded, <- Hhits. apply list_elem_of_fmap.
    exists (ij, 0 + Z.of_nat n, d). split; [cbn; lia|done].
  - intros i k j. rewrite Hwritten, <- Hhits, elem_of_columns_of. split.
    + intros [(h & Hh & Hij) Hk].
      apply elem_of_hits_of in Hh as (n & Hlook & _ & Hact).
      rewrite Hij in Hlook, Hact. split_and!; [|exact Hact|lia..].
      by eapply list_elem_of_lookup_2.
    + intros (Hin & Hreq & Hk). split; [|done].
      apply list_elem_of_lookup_1 in Hin as [n Hlook].
      destruct (hits_of_complete act space 0 0 n (i, j) Hlook Hreq) as [d Hd].
      by eexists.
Qed.

(** Below [2^24] active positions the stride count is exact, so the passes
    are [ceil (n / Stride)] and handle every active position once. *)
Lemma below_2p24_cover_once res jac log :
  0 < num_residuals → 0 < Stride < 2 ^ 24 →
  Forall (λ size, 0 < size) sizes →
  0 < num_active_parameters D < 2 ^ 24 →
  Evaluate functor_ Stride sizes num_residuals parameters residuals (Some slots)
    = (Returned true res jac, log) →
  NoDup (seeded log) ∧ NoDup (written log) ∧
  (∀ n ij, space !! n = Some ij → act ij = true → Z.of_nat n ∈ seeded log) ∧
  (∀ i k j, (i, k, j) ∈ written log ↔
            (i, j) ∈ space ∧ requested slots i = true ∧ 0 ≤ k < num_residuals) ∧
  jet_calls log =
    replicate (Z.to_nat (ceil_div (num_active_parameters D) Stride)) true.
Proof.
  intros Hres HS Hpos Hn Heval.
  pose proof (ceil_div_spec (num_active_parameters D) Stride ltac:(lia)) as Hk.
  destruct (enough_passes_cover_once
              (ceil_div (num_active_parameters D) Stride) res jac log)
    as (_ & _ & Hnd1 & Hnd2 & Hall & Hwritten & Hcalls);
    [lia..|done|lia|by apply num_strides_exact|lia|done|].
  by split_and!.
Qed.
End Cover.

(** ** A single requested block *)

Lemma all_active_positions (act : nat * Z → bool) xs : ∀ p d,
  Forall (λ x, act x = true) xs →
  positions_of (hits_of act p d xs) = seqZ p (Z.of_nat (length xs)) ∧
  ∀ num_residuals,
    columns_of num_residuals (hits_of act p d xs) =
    xs ≫= λ ij, (λ k, (ij.1, k, ij.2)) <$> seqZ 0 num_residuals.
Proof.
  induction xs as [|x xs IH]; intros p d Hall; [done|].
  apply Forall_cons in Hall as [Hx Hall]. cbn [hits_of]. rewrite Hx.
  destruct (IH (p + 1) (d + 1) Hall) as [IH1 IH2].
  unfold positions_of, columns_of in *. split.
  - rewrite fmap_cons, IH1. cbn [length fst snd].
    rewrite (seqZ_cons p) by lia. f_equal. f_equal; lia.
  - intros num_residuals. by rewrite !bind_cons, IH2.
Qed.

Lemma single_block_space {T} (buffer : list T) n :
  index_space 0 [n] = (λ j, (0%nat, j)) <$> seqZ 0 n ∧
  Forall (λ ij, active [Some buffer] ij = true) (index_space 0 [n]).
Proof.
  cbn [index_space]. rewrite app_nil_r. split; [done|].
  apply Forall_fmap, Forall_true. done.
Qed.

(** With one requested block of [n] parameters and a functor that never
    fails, a call handles the first [min (strides * Stride) n] positions,
    where [strides] is the single-precision stride count. *)
Lemma single_block_run {T} `{Scalar T} (f : CostFunctor T) Stride n
    num_residuals block residuals (buffer : list T) strides :
  (∀ N blocks outputs, (call_jet f N blocks outputs).1 = true) →
  0 < num_residuals → 0 ≤ Stride → 0 < n →
  num_strides Stride n = Some strides →
  let r := Evaluate f Stride [n] num_residuals [block] residuals
                    (Some [Some buffer]) in
  let m := Z.min (Z.max 0 strides * Stride) n in
  (∃ res jac, r.1 = Returned true res (Some jac)) ∧
  seeded r.2 = seqZ 0 m ∧
  written r.2 =
    (seqZ 0 m ≫= λ j, (λ k, (0%nat, k, j)) <$> seqZ 0 num_residuals) ∧
  jet_calls r.2 = replicate (Z.to_nat strides) true ∧
  scalar_calls r.2 = [].
Proof.
  intros Hok Hres HS Hn Hstrides. cbn zeta.
  destruct (single_block_space buffer n) as [Hspace Hall].
  assert (num_active_parameters (discovery_walk Stride [n] [block] [Some buffer])
          = n) as Hactive.
  { unfold discovery_walk.
    rewrite discover_active by (repeat constructor; lia). cbn [num_active_parameters].
    rewrite count_active_all by done.
    rewrite Hspace, length_fmap, length_seqZ. lia. }
  destruct (Evaluate_passes f Stride [n] num_residuals [block] residuals
              [Some buffer] strides Hres)
    as (ok & res & jac & log & Heval & _ & Hscalar & _ & Hrest);
    [rewrite Hactive; lia|by rewrite Hactive|].
  destruct ok.
  2: { destruct Hrest as (_ & _ & k & log' & jets & outputs & _ & _ & _ & _ & _ & Hfail).
       unfold pass_call in Hfail. by rewrite Hok in Hfail. }
  destruct (Evaluate_stride_passes f Stride [n] num_residuals [block] residuals
              [Some buffer] strides res (Some jac) log Hres HS)
    as (ys & zs & Hsplit & Hcount & Hseeded & Hwritten & Hcalls);
    [repeat constructor; lia|rewrite Hactive; lia|by rewrite Hactive|done|].
  rewrite Heval. cbn [fst snd]. split; [by eexists _, _|].
  cbn zeta in *.
  assert (Forall (λ ij, active [Some buffer] ij = true) ys) as Hys.
  { rewrite Hsplit in Hall. by apply Forall_app in Hall as [? _]. }
  rewrite count_active_all in Hcount by done.
  rewrite (count_active_all _ _ Hall), Hspace, length_fmap, length_seqZ,
    Z2Nat.id in Hcount by lia.
  set (m := Z.min (Z.max 0 strides * Stride) n) in *.
  assert (0 ≤ m ≤ n) as Hm by (subst m; nia).
  assert (ys = (λ j, (0%nat, j)) <$> seqZ 0 m) as ->.
  { rewrite Hspace in Hsplit.
    replace n with (m + (n - m)) in Hsplit by lia.
    rewrite seqZ_app, fmap_app in Hsplit by lia.
    symmetry in Hsplit.
    apply app_inj_1 in Hsplit as [-> _]; [done|].
    rewrite length_fmap, length_seqZ. lia. }
  destruct (all_active_positions (active [Some buffer])
              ((λ j, (0%nat, j)) <$> seqZ 0 m) 0 0 Hys) as [Hpos Hcol].
  rewrite Hseeded, Hwritten, Hpos, Hcol, Hcalls.
  rewrite length_fmap, length_seqZ, Z2Nat.id by lia.
  split_and!; [done| |done..].
  generalize (seqZ 0 m). intros js.
  induction js as [|j js IH]; [done|].
  by rewrite fmap_cons, !bind_cons, IH.
Qed.

Lemma first_squared_succeeds {T} `{Scalar T} N blocks outputs :
  (call_jet (instantiate (T:=T) first_squared) N blocks outputs).1 = true.
Proof. reflexivity. Qed.

(** The stride counts the single-precision computation gives for
    [2^24 + 1] active parameters, and the exact ceilings. *)
Lemma stride_counts_at_2p24_plus_1 :
  num_strides 4 16777217 = Some 4194304 ∧ ceil_div 16777217 4 = 4194305 ∧
  num_strides 3 16777217 = Some 5592406 ∧ ceil_div 16777217 3 = 5592406.
Proof. vm_compute. done. Qed.

(** ** The values a call carries *)

Lemma fmap_set_a {T} `{Scalar T} (jets : list (Jet T)) p x :
  jet_a <$> set_a jets p x = <[Z.to_nat p := x]> (jet_a <$> jets).
Proof.
  unfold set_a. apply list_eq. intros q. rewrite list_lookup_fmap.
  destruct (decide (q = Z.to_nat p)) as [->|Hne].
  - rewrite list_lookup_alter_eq.
    destruct (jets !! Z.to_nat p) as [jet|] eqn:E; cbn.
    + rewrite list_lookup_insert_eq; [done|].
      rewrite length_fmap. by eapply lookup_lt_Some.
    + rewrite list_insert_ge, list_lookup_fmap, E; [done|].
      rewrite length_fmap. by apply lookup_ge_None.
  - rewrite list_lookup_alter_ne, list_lookup_insert_ne, list_lookup_fmap by done.
    done.
Qed.

Lemma insert_first_of_drop {A} (l1 l : list A) n x y :
  length l1 = n → l !! n = Some y →
  <[n := x]> (l1 ++ drop n l) = (l1 ++ [x]) ++ drop (S n) l.
Proof.
  intros Hlen Hy. rewrite (drop_S _ _ _ Hy).
  rewrite insert_app_r_alt by lia. rewrite Hlen, Nat.sub_diag. cbn.
  by rewrite <- app_assoc.
Qed.

Lemma load_block_primal {T} `{Scalar T} (block : list T) (jets : list (Jet T))
    cursor :
  0 ≤ cursor →
  (Z.to_nat cursor + length block ≤ length jets)%nat →
  jet_a <$> load_block block (Z.of_nat (length block)) jets cursor =
  take (Z.to_nat cursor) (jet_a <$> jets) ++ block ++
  drop (Z.to_nat cursor + length block) (jet_a <$> jets).
Proof.
  intros Hc Hlen. unfold load_block.
  assert (∀ n, (n ≤ length block)%nat →
    jet_a <$> foldl (λ js j, set_a js (cursor + j) (get s_zero block j)) jets
                    (seqZ 0 (Z.of_nat n)) =
    (take (Z.to_nat cursor) (jet_a <$> jets) ++ take n block) ++
    drop (Z.to_nat cursor + n) (jet_a <$> jets)) as Hn.
  { induction n as [|n IH]; intros Hle.
    - cbn. by rewrite Nat.add_0_r, app_nil_r, take_drop.
    - rewrite seqZ_S, foldl_app. cbn [foldl].
      rewrite fmap_set_a, IH by lia.
      destruct (lookup_lt_is_Some_2 block n) as [x Hx]; [lia|].
      destruct (lookup_lt_is_Some_2 (jet_a <$> jets) (Z.to_nat cursor + n))
        as [y Hy]; [rewrite length_fmap; lia|].
      replace (Z.to_nat (cursor + (0 + Z.of_nat n)))
        with (Z.to_nat cursor + n)%nat by lia.
      rewrite (insert_first_of_drop _ _ _ _ y); [| |done].
      + rewrite <- app_assoc, (take_S_r _ _ x) by done.
        unfold get. rewrite Z.add_0_l, Nat2Z.id, Hx. cbn.
        by rewrite Nat.add_succ_r, <- !app_assoc.
      + rewrite length_app, !length_take, length_fmap. lia. }
  rewrite Hn by done. by rewrite firstn_all, <- app_assoc.
Qed.

Lemma sum_sizes_well_formed {T} sizes (blocks : list (list T)) acc :
  well_formed sizes blocks →
  foldl Z.add acc sizes = acc + Z.of_nat (length (concat blocks)).
Proof.
  intros Hwf. revert acc.
  induction Hwf as [|size b sizes blocks Hb _ IH]; intros acc; cbn; [lia|].
  rewrite IH, length_app. lia.
Qed.

Lemma discover_primal {T} `{Scalar T} parameters
    (slots : list (option (list T))) sizes : ∀ i d,
  well_formed sizes (drop i parameters) →
  0 ≤ discovery_cursor d →
  (Z.to_nat (discovery_cursor d) + length (concat (drop i parameters))
     ≤ length (input_jets d))%nat →
  jet_a <$> input_jets (discover parameters slots i sizes d) =
  take (Z.to_nat (discovery_cursor d)) (jet_a <$> input_jets d) ++
  concat (drop i parameters) ++
  drop (Z.to_nat (discovery_cursor d) + length (concat (drop i parameters)))
       (jet_a <$> input_jets d).
Proof.
  induction sizes as [|size sizes IH]; intros i d Hwf Hc Hlen.
  { apply Forall2_nil_inv_l in Hwf. rewrite Hwf in *. cbn.
    by rewrite Nat.add_0_r, take_drop. }
  apply Forall2_cons_inv_l in Hwf as (block & rest & Hsize & Hwf & Hdrop).
  assert (parameters !! i = Some block ∧ drop (S i) parameters = rest)
    as [Hblock Hrest] by by apply drop_cons_lookup.
  rewrite Hdrop in *. cbn [concat] in *. rewrite length_app in Hlen.
  cbn [discover]. rewrite IH; rewrite ?Hrest;
    unfold discover_block; cbn [discovery_cursor input_jets]; [|done|lia|].
  2: { rewrite length_load_block. lia. }
  assert (get [] parameters (Z.of_nat i) = block) as ->.
  { unfold get. by rewrite Nat2Z.id, Hblock. }
  rewrite <- Hsize, load_block_primal by lia.
  replace (Z.to_nat (discovery_cursor d + Z.max 0 (Z.of_nat (length block))))
    with (Z.to_nat (discovery_cursor d) + length block)%nat by lia.
  set (A := jet_a <$> input_jets d).
  set (c := Z.to_nat (discovery_cursor d)) in *.
  assert (length (take c A ++ block) = (c + length block)%nat) as Hpre.
  { rewrite length_app, length_take. unfold A. rewrite length_fmap. lia. }
  rewrite (app_assoc (take c A) block).
  rewrite take_app_length' by done.
  rewrite <- Hpre, drop_app_add, Hpre, drop_drop.
  rewrite length_app, <- !app_assoc. do 4 f_equal. lia.
Qed.

Lemma discover_jet_parameters {T} `{Scalar T} parameters
    (slots : list (option (list T))) sizes : ∀ i d,
  jet_parameters (discover parameters slots i sizes d) =
  jet_parameters d ++ block_offsets (discovery_cursor d) sizes.
Proof.
  induction sizes as [|size sizes IH]; intros i d; cbn; [by rewrite app_nil_r|].
  rewrite IH. cbn. by rewrite <- app_assoc.
Qed.

Lemma blocks_at_concat {A} sizes (blocks : list (list A)) :
  well_formed sizes blocks → ∀ pre post,
  blocks_at sizes (block_offsets (Z.of_nat (length pre)) sizes)
            (pre ++ concat blocks ++ post) = blocks.
Proof.
  induction 1 as [|size b sizes blocks Hb _ IH]; intros pre post; [done|].
  unfold blocks_at in *. cbn. f_equal.
  - rewrite Nat2Z.id, drop_app_length, <- Hb, Nat2Z.id, <- app_assoc.
    by rewrite take_app_length.
  - specialize (IH (pre ++ b) post).
    rewrite length_app, Nat2Z.inj_add in IH.
    replace (Z.max 0 size) with (Z.of_nat (length b)) by lia.
    etrans; [|exact IH]. by rewrite <- !app_assoc.
Qed.

Lemma jet_blocks_primal {T} `{Scalar T} sizes offsets (jets : list (Jet T)) :
  primal <$> jet_blocks sizes offsets jets =
  blocks_at sizes offsets (jet_a <$> jets).
Proof.
  unfold jet_blocks, blocks_at, primal. revert sizes.
  induction offsets as [|o offsets IH]; intros [|size sizes]; cbn; try done.
  by rewrite IH, fmap_take, fmap_drop.
Qed.

Lemma jet_blocks_Forall {T} `{Scalar T} (P : Jet T → Prop) sizes offsets jets :
  Forall P jets → Forall (Forall P) (jet_blocks sizes offsets jets).
Proof.
  intros HP. unfold jet_blocks. revert sizes.
  induction offsets as [|o offsets IH]; intros [|size sizes]; cbn;
    constructor; [|done].
  by apply Forall_take, Forall_drop.
Qed.

Lemma copy_residuals_all {T} `{Scalar T} (outputs : list (Jet T))
    num_residuals residuals :
  length residuals = Z.to_nat num_residuals →
  length outputs = Z.to_nat num_residuals →
  copy_residuals outputs num_residuals residuals = jet_a <$> outputs.
Proof.
  intros Hres Hout. unfold copy_residuals.
  rewrite (seqZ_to_nat 0 num_residuals).
  assert (∀ n, (n ≤ Z.to_nat num_residuals)%nat →
    foldl (λ res k, <[Z.to_nat k := jet_a (get (zero_jet 0) outputs k)]> res)
          residuals (seqZ 0 (Z.of_nat n)) =
    (jet_a <$> take n outputs) ++ drop n residuals) as Hn.
  { induction n as [|n IH]; intros Hle; [done|].
    rewrite seqZ_S, foldl_app. cbn [foldl]. rewrite IH by lia.
    destruct (lookup_lt_is_Some_2 outputs n) as [o Ho]; [lia|].
    destruct (lookup_lt_is_Some_2 residuals n) as [y Hy]; [lia|].
    rewrite Z.add_0_l, Nat2Z.id.
    rewrite (insert_first_of_drop _ _ _ _ y); [| |done].
    - rewrite (take_S_r _ _ o), fmap_app by done. unfold get.
      by rewrite Nat2Z.id, Ho.
    - rewrite length_fmap, length_take. lia. }
  rewrite Hn by done. rewrite <- Hout at 1. rewrite firstn_all.
  rewrite drop_ge by lia. by rewrite app_nil_r.
Qed.

Section Consistent.
Context {T : Type} `{Scalar T}.
Variable f : CostFunctor T.
Variable value : list (list T) → option (list T).
Variables (Stride : Z) (sizes : list Z) (num_residuals : Z).
Variables (parameters : list (list T)) (r : list T).
Hypothesis f_consistent : consistent f num_residuals value.
Hypothesis parameters_wf : well_formed sizes parameters.
Hypothesis value_r : value parameters = Some r.

Local Abbreviation D slots := (discovery_walk Stride sizes parameters slots).

Lemma discovery_carries slots :
  primal (input_jets (D slots)) = concat parameters ∧
  jet_parameters (D slots) = block_offsets 0 sizes.
Proof.
  unfold discovery_walk. split.
  - unfold primal. rewrite discover_primal; cbn; rewrite ?length_replicate;
      rewrite ?(sum_sizes_well_formed _ _ _ parameters_wf), ?drop_0;
      [|done|done|lia].
    rewrite drop_ge, app_nil_r; [done|].
    rewrite length_fmap, length_replicate. lia.
  - by rewrite discover_jet_parameters.
Qed.

(** A dual-number invocation on jets that carry the parameter values
    succeeds and computes the residuals [r]. *)
Lemma pass_call_value jets outputs :
  jets_carry Stride (concat parameters) jets →
  length outputs = Z.to_nat num_residuals →
  (pass_call f Stride sizes (block_offsets 0 sizes) jets outputs).1 = true ∧
  primal (pass_call f Stride sizes (block_offsets 0 sizes) jets outputs).2 = r.
Proof.
  intros [Hprimal Hlen] Hout. unfold pass_call.
  apply (jet_value _ _ _ f_consistent); [by apply jet_blocks_Forall|done|].
  rewrite jet_blocks_primal, Hprimal.
  pose proof (blocks_at_concat sizes parameters parameters_wf [] []) as Hblocks.
  cbn [app length] in Hblocks. rewrite app_nil_r in Hblocks.
  change (Z.of_nat 0) with 0 in Hblocks. by rewrite Hblocks.
Qed.

Variables (starts : list Z) (strides N : Z).
Hypothesis space_bound : Z.of_nat (length (index_space 0 sizes)) ≤ N.

(** Under a consistent functor every pass succeeds, and the last one
    leaves the residuals [r]. *)
Lemma run_passes_consistent (len : nat) : ∀ t0 (s : pass_state T),
  pass_inv sizes starts N s →
  primal (ps_jets s) = concat parameters →
  length (ps_outputs s) = Z.to_nat num_residuals →
  length (ps_residuals s) = Z.to_nat num_residuals →
  t0 + Z.of_nat len ≤ strides →
  ∃ jac log,
    run_passes f Stride sizes num_residuals starts (block_offsets 0 sizes)
               strides (seqZ t0 (Z.of_nat len)) s =
    (Returned true
       (if bool_decide (len ≠ 0%nat ∧ t0 + Z.of_nat len = strides)
        then r else ps_residuals s)
       (Some jac), log).
Proof.
  induction len as [|len IH]; intros t0 s Hinv Hprimal Hout Hres Hlen.
  { cbn. rewrite bool_decide_eq_false_2 by tauto. by eexists _, _. }
  rewrite seqZ_cons by lia. cbn [run_passes].
  replace (Z.pred (Z.of_nat (S len))) with (Z.of_nat len) by lia.
  destruct (run_pass_general f Stride sizes num_residuals starts
              (block_offsets 0 sizes) strides N space_bound t0 s Hinv)
    as (hits & jets & _ & Ha & Hv & Hcall).
  destruct (pass_call_value jets (ps_outputs s)) as [Hok Hvalue]; [|done|].
  { split; [|done]. by rewrite Ha. }
  cbn zeta in Hcall. rewrite Hok in Hcall.
  destruct Hcall as (s' & -> & Hinv' & _ & Ha' & Hout' & Hres' & _).
  assert (length r = Z.to_nat num_residuals) as Hr
    by by eapply value_length.
  assert (length (pass_call f Stride sizes (block_offsets 0 sizes) jets
                            (ps_outputs s)).2 = Z.to_nat num_residuals) as Hlen2.
  { rewrite <- Hr, <- Hvalue. unfold primal. by rewrite length_fmap. }
  assert (copy_residuals (pass_call f Stride sizes (block_offsets 0 sizes) jets
                                    (ps_outputs s)).2 num_residuals
                         (ps_residuals s) = r) as Hcopy.
  { rewrite copy_residuals_all by done. exact Hvalue. }
  rewrite Hcopy in Hres'.
  destruct (IH (Z.succ t0) s' Hinv') as (jac & log & ->).
  - unfold primal in *. by rewrite Ha'.
  - by rewrite Hout'.
  - rewrite Hres'. by case_bool_decide.
  - lia.
  - exists jac, log. f_equal. f_equal.
    destruct len as [|len'].
    + rewrite bool_decide_eq_false_2 by tauto. rewrite Hres'.
      case_bool_decide as Hlast.
      * by rewrite bool_decide_eq_true_2 by (split; lia).
      * by rewrite bool_decide_eq_false_2 by (intros [? ?]; lia).
    + destruct (decide (Z.succ t0 + Z.of_nat (S len') = strides)) as [E|E].
      * rewrite !bool_decide_eq_true_2 by (split; lia). done.
      * rewrite !bool_decide_eq_false_2 by (intros [? ?]; lia).
        rewrite Hres'. by rewrite bool_decide_eq_false_2 by lia.
Qed.
End Consistent.

Lemma well_formed_nonneg {T} sizes (parameters : list (list T)) :
  well_formed sizes parameters → Forall (λ size, 0 ≤ size) sizes.
Proof. induction 1 as [|???? Hb]; constructor; [lia|done]. Qed.

Lemma get_primal {T} `{Scalar T} Stride (blocks : list (list (Jet T))) i j :
  jet_a (get (jet_of_scalar Stride s_zero) (get [] blocks i) j) =
  get s_zero (get [] (primal <$> blocks) i) j.
Proof.
  unfold get, primal. rewrite list_lookup_fmap.
  destruct (blocks !! Z.to_nat i) as [block|]; cbn; [|done].
  rewrite list_lookup_fmap. by destruct (block !! Z.to_nat j).
Qed.

Lemma squares_consistent {T} `{Scalar T} :
  consistent (instantiate (T:=T) squares) 2 squares_value.
Proof.
  split.
  - intros x r [= <-]. done.
  - intros x [|a [|b [|]]] r Hlen [= <-]; done.
  - intros Stride blocks [|a [|b [|]]] r _ Hlen [= <-]; try done.
    split; [done|]. cbn. by rewrite !get_primal.
Qed.

(** ** The values scattered into the Jacobian buffers *)

Lemma walk_hit_positions {X} Stride starts (act : X → bool) xs : ∀ c hits c',
  walk Stride starts act xs c = Some (hits, c') →
  ∀ h, h ∈ hits →
    ∃ n, xs !! n = Some h.1.1 ∧ h.1.2 = parameter_cursor c + Z.of_nat n.
Proof.
  induction xs as [|x xs IH]; intros c hits c' Hwalk h Hh; cbn [walk] in Hwalk.
  { injection Hwalk as <- <-. by apply elem_of_nil in Hh. }
  destruct (advance _ _ _ _) as [[vis c1]|] eqn:Hadv; [|done].
  cbn [mbind option_bind] in Hwalk.
  destruct (walk _ _ _ xs c1) as [[hits1 c2]|] eqn:Hrest; [|done].
  cbn [mbind option_bind] in Hwalk. injection Hwalk as <- <-.
  pose proof (advance_cursor _ _ _ _ _ _ Hadv) as Hc1.
  assert (h ∈ hits1 → ∃ n, (x :: xs) !! n = Some h.1.1 ∧
            h.1.2 = parameter_cursor c + Z.of_nat n) as Htail.
  { intros Hin. destruct (IH _ _ _ Hrest h Hin) as (n & Hn & Hp).
    exists (S n). split; [done|lia]. }
  destruct vis as [|d|]; [by apply Htail| |by apply Htail].
  apply elem_of_cons in Hh as [->|Hin]; [|by apply Htail].
  exists 0%nat. split; [done|cbn; lia].
Qed.

Lemma seed_body_values {T} `{Scalar T} Stride starts
    (slots : list (option (list T))) pass x s s1 vis c1 :
  seed_body Stride starts slots pass x s = Some s1 →
  advance Stride starts (requested slots x.1) (seed_cursors s) = Some (vis, c1) →
  let p := parameter_cursor (seed_cursors s) in
  let zeroed := set_v (seed_jets s) p (replicate (Z.to_nat Stride) s_zero) in
  seed_cursors s1 = c1 ∧
  seed_jets s1 = match vis with
                 | Hit d => set_v_entry zeroed p d s_one
                 | _ => zeroed
                 end.
Proof.
  unfold seed_body. intros Hbody Hadv. rewrite Hadv in Hbody.
  cbn [mbind option_bind] in Hbody. by destruct vis; simplify_eq/=.
Qed.

(** After the seeding loop, a visited jet holds the unit vector of its
    direction when the pass handles its position, and zeros otherwise. *)
Lemma seed_loop_values {T} `{Scalar T} Stride starts
    (slots : list (option (list T))) pass xs : ∀ s s' hits c',
  0 ≤ parameter_cursor (seed_cursors s) →
  for_each (seed_body Stride starts slots pass) xs s = Some s' →
  walk Stride starts (λ ij, requested slots ij.1) xs (seed_cursors s)
    = Some (hits, c') →
  ∀ n jet,
    (n < length xs)%nat →
    seed_jets s' !! (Z.to_nat (parameter_cursor (seed_cursors s)) + n)%nat
      = Some jet →
    let p := parameter_cursor (seed_cursors s) + Z.of_nat n in
    let zeros := replicate (Z.to_nat Stride) s_zero in
    (jet_v jet = zeros ∧ ∀ h, h ∈ hits → h.1.2 ≠ p) ∨
    (∃ h, h ∈ hits ∧ h.1.2 = p ∧ jet_v jet = <[Z.to_nat h.2 := s_one]> zeros).
Proof.
  induction xs as [|x xs IH]; intros s s' hits c' Hp0 Hrun Hwalk n jet Hn Hjet;
    [cbn in Hn; lia|].
  cbn [for_each walk] in Hrun, Hwalk.
  destruct (seed_body _ _ _ _ x s) as [s1|] eqn:Hbody; [|done].
  destruct (advance _ _ _ _) as [[vis c1]|] eqn:Hadv; [|done].
  cbn [mbind option_bind] in Hrun, Hwalk.
  destruct (walk _ _ _ xs c1) as [[hits1 c2]|] eqn:Hrest; [|done].
  cbn [mbind option_bind] in Hwalk. injection Hwalk as <- <-.
  pose proof (advance_cursor _ _ _ _ _ _ Hadv) as Hc1.
  destruct (seed_body_values _ _ _ _ _ _ _ _ _ Hbody Hadv) as [Ec Ej].
  cbn zeta in *.
  set (p0 := parameter_cursor (seed_cursors s)) in *.
  set (zeros := replicate (Z.to_nat Stride) s_zero) in *.
  assert (∀ h, h ∈ hits1 → p0 + 1 ≤ h.1.2) as Hlater.
  { intros h Hh.
    destruct (walk_hit_positions _ _ _ _ _ _ _ Hrest h Hh) as (m & _ & ->). lia. }
  destruct n as [|n].
  - (* the position of this iteration: later iterations leave it alone *)
    rewrite Nat.add_0_r in Hjet. rewrite Z.add_0_r.
    destruct (seed_loop_jets Stride starts slots pass xs s1 s') as (_ & _ & Hq);
      [rewrite Ec; lia|done|].
    destruct (Hq _ _ Hjet) as [Hearlier _].
    rewrite Ec, Hc1 in Hearlier. specialize (Hearlier ltac:(lia)).
    rewrite Ej in Hearlier. unfold set_v_entry, set_v in Hearlier.
    destruct vis as [|d|].
    + left. rewrite list_lookup_alter_eq in Hearlier.
      destruct (seed_jets s !! Z.to_nat p0); simplify_eq/=.
      split; [done|]. intros h Hh. specialize (Hlater h Hh). lia.
    + right. exists (x, p0, d). split; [left|]. split; [done|].
      rewrite !list_lookup_alter_eq in Hearlier.
      destruct (seed_jets s !! Z.to_nat p0); by simplify_eq/=.
    + left. rewrite list_lookup_alter_eq in Hearlier.
      destruct (seed_jets s !! Z.to_nat p0); simplify_eq/=.
      split; [done|]. intros h Hh. specialize (Hlater h Hh). lia.
  - destruct (IH s1 s' hits1 c2) with (n := n) (jet := jet) as [[Hz Hno]|Hhit];
      [rewrite Ec; lia|done|by rewrite Ec|cbn in Hn; lia| |..].
    { rewrite Ec, Hc1. rewrite <- Hjet. f_equal. lia. }
    + left. split; [done|]. rewrite Ec, Hc1 in Hno.
      assert (∀ h, h ∈ hits1 → h.1.2 ≠ p0 + Z.of_nat (S n)) as Hno'.
      { intros h Hh. specialize (Hno h Hh). lia. }
      destruct vis as [|d|]; [done| |done].
      intros h [->|Hh]%elem_of_cons; [cbn; lia|by apply Hno'].
    + right. destruct Hhit as (h & Hh & Hp & Hv). exists h.
      rewrite Ec, Hc1 in Hp.
      split; [destruct vis; [done|by right|done]|]. split; [lia|done].
Qed.

Lemma hits_of_bounds {X} (act : X → bool) xs : ∀ p d h,
  h ∈ hits_of act p d xs →
  p ≤ h.1.2 ∧ d ≤ h.2 < d + count_active act xs.
Proof.
  induction xs as [|x xs IH]; intros p d h Hh; cbn [hits_of] in Hh.
  { by apply elem_of_nil in Hh. }
  rewrite count_active_cons. pose proof (count_active_nonneg act xs).
  destruct (act x).
  - apply elem_of_cons in Hh as [->|Hh]; [cbn; lia|].
    apply IH in Hh. lia.
  - apply IH in Hh. lia.
Qed.

(** Within a pass, positions and directions determine each other. *)
Lemma hits_of_injective {X} (act : X → bool) xs : ∀ p d h1 h2,
  h1 ∈ hits_of act p d xs → h2 ∈ hits_of act p d xs →
  h1.1.2 = h2.1.2 ↔ h1.2 = h2.2.
Proof.
  induction xs as [|x xs IH]; intros p d h1 h2 H1 H2; cbn [hits_of] in H1, H2.
  { by apply elem_of_nil in H1. }
  destruct (act x); [|by eapply IH].
  apply elem_of_cons in H1 as [->|H1], H2 as [->|H2].
  - done.
  - apply hits_of_bounds in H2. cbn. lia.
  - apply hits_of_bounds in H1. cbn. lia.
  - by eapply IH.
Qed.

(** The jets of a pass are seeded one-hot: direction [d] of the pass is
    the unit vector of the position it was given to. *)
Lemma seeded_one_hot {T} `{Scalar T} Stride starts
    (slots : list (option (list T))) pass xs s s' c' act p0 ys :
  parameter_cursor (seed_cursors s) = 0 →
  length (seed_jets s) = length xs →
  for_each (seed_body Stride starts slots pass) xs s = Some s' →
  walk Stride starts (λ ij, requested slots ij.1) xs (seed_cursors s)
    = Some (hits_of act p0 0 ys, c') →
  0 ≤ p0 →
  count_active act ys ≤ Stride →
  ∀ h, h ∈ hits_of act p0 0 ys →
    one_hot_at (Z.to_nat h.2) (Z.to_nat h.1.2) (seed_jets s').
Proof.
  intros Hc0 Hlen Hrun Hwalk Hp0 Hcount h Hh q jet Hq.
  destruct (seed_loop_jets Stride starts slots pass xs s s') as (_ & Hlen' & _);
    [lia|done|].
  pose proof (lookup_lt_Some _ _ _ Hq) as Hlt.
  pose proof (hits_of_bounds _ _ _ _ _ Hh) as [Hhp Hhd].
  set (zeros := replicate (Z.to_nat Stride) s_zero).
  assert (zeros !! Z.to_nat h.2 = Some s_zero) as Hzero.
  { apply lookup_replicate_2. lia. }
  destruct (seed_loop_values Stride starts slots pass xs s s' _ c'
              ltac:(lia) Hrun Hwalk q jet) as [[-> Hno]|(h' & Hh' & Hp' & ->)];
    [lia|by rewrite Hc0|..]; rewrite Hc0 in *; cbn in *.
  - destruct (decide (q = Z.to_nat h.1.2)) as [->|_]; [|done].
    specialize (Hno h Hh). lia.
  - pose proof (hits_of_bounds _ _ _ _ _ Hh') as [_ Hd'].
    pose proof (hits_of_injective _ _ _ _ _ _ Hh Hh') as Hinj.
    destruct (decide (q = Z.to_nat h.1.2)) as [->|Hne].
    + assert (h.2 = h'.2) as -> by (apply Hinj; lia).
      apply list_lookup_insert_eq. rewrite length_replicate. lia.
    + rewrite list_lookup_insert_ne; [done|].
      intros Heq. apply Hne. assert (h.1.2 = h'.1.2); [apply Hinj|]; lia.
Qed.

(** *** The scatter loop *)

Lemma foldl_insert_other {A} (idx : Z → nat) (val : Z → A) ks :
  ∀ (buf : list A) t,
  (∀ k, k ∈ ks → idx k ≠ t) →
  foldl (λ b k, <[idx k := val k]> b) buf ks !! t = buf !! t.
Proof.
  induction ks as [|k ks IH]; intros buf t Hother; [done|].
  cbn [foldl]. rewrite IH by (intros k' Hk'; apply Hother; by right).
  apply list_lookup_insert_ne, Hother. by left.
Qed.

Lemma foldl_insert_lookup {A} (idx : Z → nat) (val : Z → A) ks :
  ∀ (buf : list A) k,
  k ∈ ks → (∀ k', k' ∈ ks → idx k' = idx k → k' = k) →
  (idx k < length buf)%nat →
  foldl (λ b k, <[idx k := val k]> b) buf ks !! idx k = Some (val k).
Proof.
  induction ks as [|k0 ks IH]; intros buf k Hk Hinj Hlen.
  { by apply elem_of_nil in Hk. }
  cbn [foldl]. destruct (decide (k ∈ ks)) as [Hin|Hnotin].
  - apply IH; [done| |by rewrite length_insert].
    intros k' Hk'. apply Hinj. by right.
  - apply elem_of_cons in Hk as [->|?]; [|done].
    rewrite foldl_insert_other.
    + by apply list_lookup_insert_eq.
    + intros k' Hk' Heq. apply Hnotin.
      rewrite <- (Hinj k'); [done|by right|done].
Qed.

Lemma write_column_lookup {T} `{Scalar T} outputs num_residuals size j d
    (buffer : list T) k :
  0 < size → 0 ≤ j → 0 ≤ k < num_residuals →
  (Z.to_nat (k * size + j) < length buffer)%nat →
  write_column outputs num_residuals size j d buffer !! Z.to_nat (k * size + j)
    = Some (get s_zero (jet_v (get (zero_jet 0) outputs k)) d).
Proof.
  intros Hsize Hj Hk Hlen. unfold write_column.
  apply (foldl_insert_lookup (λ k, Z.to_nat (k * size + j))
           (λ k, get s_zero (jet_v (get (zero_jet 0) outputs k)) d)).
  - apply elem_of_seqZ. lia.
  - intros k' Hk' Heq. apply elem_of_seqZ in Hk'. nia.
  - done.
Qed.

Lemma write_column_other {T} `{Scalar T} outputs num_residuals size j d
    (buffer : list T) j' k :
  0 < size → 0 ≤ j < size → 0 ≤ j' < size → j' ≠ j → 0 ≤ k →
  write_column outputs num_residuals size j d buffer !! Z.to_nat (k * size + j')
    = buffer !! Z.to_nat (k * size + j').
Proof.
  intros Hsize Hj Hj' Hne Hk. unfold write_column.
  apply (foldl_insert_other (λ k, Z.to_nat (k * size + j))
           (λ k, get s_zero (jet_v (get (zero_jet 0) outputs k)) d)).
  intros k' Hk' Heq. apply elem_of_seqZ in Hk'.
  apply Z2Nat.inj in Heq; [|nia..].
  destruct (Z.lt_trichotomy k' k) as [?|[->|?]]; [nia|lia|nia].
Qed.

Lemma scatter_loop_values {T} `{Scalar T} Stride starts sizes num_residuals
    outputs (slots : list (option (list T))) xs : ∀ s s' hits c',
  shape (scatter_jacobians s) = shape slots →
  for_each (scatter_body Stride starts sizes num_residuals outputs) xs s
    = Some s' →
  walk Stride starts (λ ij, requested slots ij.1) xs (scatter_cursors s)
    = Some (hits, c') →
  scatter_jacobians s' =
    scatter_writes outputs num_residuals sizes hits (scatter_jacobians s).
Proof.
  induction xs as [|x xs IH]; intros s s' hits c' Hshape Hrun Hwalk;
    cbn [for_each walk] in Hrun, Hwalk.
  { by simplify_eq. }
  pose proof (scatter_body_spec Stride starts sizes num_residuals outputs
                                slots x s Hshape) as Hstep.
  destruct (scatter_body _ _ _ _ _ x s) as [s1|] eqn:Hbody; [|done].
  destruct (advance _ _ _ (scatter_cursors s)) as [[vis c1]|] eqn:Hadv; [|done].
  destruct Hstep as (Hc & _ & Hshape1).
  cbn [mbind option_bind] in Hrun, Hwalk.
  destruct (walk _ _ _ xs c1) as [[hits1 c2]|] eqn:Hrest; [|done].
  cbn [mbind option_bind] in Hwalk. injection Hwalk as <- <-.
  rewrite (IH s1 s' hits1 c2 Hshape1 Hrun) by (by rewrite Hc).
  destruct x as [i j]. unfold scatter_body in Hbody.
  rewrite (shape_requested _ _ i Hshape) in Hbody. cbn [fst] in Hadv.
  rewrite Hadv in Hbody. cbn [mbind option_bind] in Hbody.
  unfold scatter_writes. by destruct vis; injection Hbody as <-.
Qed.

(** What the scatter writes of a pass leave in the buffer of block [i]:
    the columns of other positions are kept, the column of a handled
    position holds the derivative entries of its direction. *)
Lemma scatter_writes_lookup {T} `{Scalar T} outputs num_residuals sizes hits :
  ∀ (jac : list (option (list T))) i b,
  jac !! i = Some (Some b) →
  let size := get 0 sizes (Z.of_nat i) in
  0 < size →
  (∀ h, h ∈ hits → h.1.1.1 = i → 0 ≤ h.1.1.2 < size) →
  ∃ b',
    scatter_writes outputs num_residuals sizes hits jac !! i = Some (Some b') ∧
    length b' = length b ∧
    ∀ j k,
      0 ≤ j < size → 0 ≤ k < num_residuals →
      (Z.to_nat (k * size + j) < length b)%nat →
      ((∀ h, h ∈ hits → h.1.1 ≠ (i, j)) →
         b' !! Z.to_nat (k * size + j) = b !! Z.to_nat (k * size + j)) ∧
      (∀ h, h ∈ hits → h.1.1 = (i, j) →
         (∀ h', h' ∈ hits → h'.1.1 = (i, j) → h'.2 = h.2) →
         b' !! Z.to_nat (k * size + j)
           = Some (get s_zero (jet_v (get (zero_jet 0) outputs k)) h.2)).
Proof.
  induction hits as [|h0 hits IH]; intros jac i b Hb size Hsize Hcols.
  { exists b. split_and!; [done..|]. intros j k Hj Hk Hlen. split; [done|].
    by intros h ?%elem_of_nil. }
  unfold scatter_writes. cbn [foldl].
  fold (scatter_writes outputs num_residuals sizes hits).
  set (wc := write_column outputs num_residuals
               (get 0 sizes (Z.of_nat h0.1.1.1)) h0.1.1.2 h0.2).
  set (b1 := if decide (h0.1.1.1 = i) then wc b else b).
  assert (alter (fmap wc) h0.1.1.1 jac !! i = Some (Some b1)) as Hb1.
  { subst b1. destruct (decide (h0.1.1.1 = i)) as [->|Hne].
    - by rewrite list_lookup_alter_eq, Hb.
    - by rewrite list_lookup_alter_ne. }
  assert (length b1 = length b) as Hlen1.
  { subst b1 wc. destruct (decide _); [apply length_write_column|done]. }
  destruct (IH _ i b1 Hb1 Hsize) as (b' & Hb' & Hlen' & Hcells).
  { intros h Hh. apply Hcols. by right. }
  cbn zeta in Hcells. fold size in Hcells.
  exists b'. split; [done|]. split; [congruence|].
  intros j k Hj Hk Hlen.
  destruct (Hcells j k Hj Hk ltac:(lia)) as [Hkeep Hwrite].
  assert (h0.1.1 ≠ (i, j) → b1 !! Z.to_nat (k * size + j)
                            = b !! Z.to_nat (k * size + j)) as Hstep.
  { intros Hne. subst b1 wc. destruct (decide (h0.1.1.1 = i)) as [Hi|]; [|done].
    rewrite Hi. fold size.
    apply write_column_other; [done| |done| |lia].
    - apply Hcols; [by left|done].
    - intros ->. apply Hne. destruct h0 as [[[i0 j0] p0] d0]. by simplify_eq/=. }
  split.
  - intros Hnone. rewrite Hkeep by (intros h Hh; apply Hnone; by right).
    apply Hstep, Hnone. by left.
  - intros h Hh Hpair Hsame.
    destruct (decide (Exists (λ h', h'.1.1 = (i, j)) hits)) as [Hex|Hnex].
    + apply Exists_exists in Hex as (h' & Hh' & Hpair').
      rewrite <- (Hsame h') by (by right || done).
      apply Hwrite; [done..|].
      intros h'' Hh'' Hpair''.
      rewrite (Hsame h'), (Hsame h'') by (by right || done). done.
    + assert (∀ h', h' ∈ hits → h'.1.1 ≠ (i, j)) as Hnone.
      { intros h' Hh' Hpair'. apply Hnex, Exists_exists. by exists h'. }
      apply elem_of_cons in Hh as [->|Hh]; [|by destruct (Hnone h Hh)].
      rewrite Hkeep by done. subst b1 wc.
      assert (h0.1.1.1 = i ∧ h0.1.1.2 = j) as [Hi Hj0]
        by (destruct h0 as [[[i0 j0] p0] d0]; by simplify_eq/=).
      rewrite decide_True by done. rewrite Hi, Hj0. fold size.
      apply write_column_lookup; [done|lia|done|done].
Qed.

Lemma concat_blocks_at {A} sizes : ∀ pre (l : list A),
  Forall (λ size, 0 ≤ size) sizes →
  Z.of_nat (length l) = foldr (λ s n, Z.max 0 s + n) 0 sizes →
  concat (blocks_at sizes (block_offsets (Z.of_nat (length pre)) sizes)
                    (pre ++ l)) = l.
Proof.
  induction sizes as [|size sizes IH]; intros pre l Hpos Hlen.
  { destruct l; [done|cbn in Hlen; lia]. }
  apply Forall_cons in Hpos as [Hsize Hpos]. cbn in Hlen.
  pose proof (length_index_space 0 sizes) as Hrest.
  unfold blocks_at in *. cbn [block_offsets zip_with concat].
  rewrite Nat2Z.id, drop_app_length.
  etrans; [|apply (take_drop (Z.to_nat size) l)]. f_equal.
  specialize (IH (pre ++ take (Z.to_nat size) l) (drop (Z.to_nat size) l) Hpos).
  rewrite length_app, length_take, length_drop, <- app_assoc, take_drop in IH.
  replace (Z.of_nat (length pre + Z.to_nat size `min` length l))
    with (Z.of_nat (length pre) + Z.max 0 size) in IH by lia.
  apply IH. lia.
Qed.

Lemma shape_lookup {T} (j1 j2 : list (option (list T))) i b1 :
  shape j1 = shape j2 → j1 !! i = Some (Some b1) →
  ∃ b2, j2 !! i = Some (Some b2) ∧ length b2 = length b1.
Proof.
  intros E Hb. apply (f_equal (λ l, l !! i)) in E.
  unfold shape in E. rewrite !list_lookup_fmap, Hb in E.
  destruct (j2 !! i) as [[b2|]|]; simplify_eq/=. by exists b2.
Qed.

Lemma count_active_elem {X} (act : X → bool) xs x :
  x ∈ xs → act x = true → 0 < count_active act xs.
Proof.
  induction xs as [|y xs IH]; intros Hx Hact; [by apply elem_of_nil in Hx|].
  rewrite count_active_cons. pose proof (count_active_nonneg act xs).
  apply elem_of_cons in Hx as [<-|Hx]; [rewrite Hact; lia|].
  specialize (IH Hx Hact). destruct (act y); lia.
Qed.

Lemma space_length_concat {T} sizes (blocks : list (list T)) :
  well_formed sizes blocks →
  length (index_space 0 sizes) = length (concat blocks).
Proof.
  intros Hwf.
  pose proof (length_index_space 0 sizes) as Hspace.
  pose proof (sum_sizes_well_formed _ _ 0 Hwf) as Hsum.
  assert (foldr (λ s n, Z.max 0 s + n) 0 sizes = foldl Z.add 0 sizes) as Hsame.
  { rewrite Hsum. clear -Hwf.
    induction Hwf as [|???? Hb _ IH]; cbn; [done|].
    rewrite IH, length_app. lia. }
  lia.
Qed.

Section Jacobian.
Context {T : Type} `{Scalar T}.
Variable f : CostFunctor T.
Variable value : list (list T) → option (list T).
Variable partial : list (list T) → nat → nat → T.
Variables (Stride : Z) (sizes : list Z) (num_residuals : Z).
Variables (parameters : list (list T)) (r : list T).
Variable slots : list (option (list T)).
Hypothesis f_consistent : consistent f num_residuals value.
Hypothesis f_differentiates : differentiates f num_residuals partial.
Hypothesis parameters_wf : well_formed sizes parameters.
Hypothesis value_r : value parameters = Some r.
Hypothesis sizes_positive : Forall (λ size, 0 < size) sizes.
Hypothesis Stride_nonneg : 0 ≤ Stride.
Hypothesis slots_sized : buffers_sized sizes num_residuals slots.
Variables (starts : list Z) (strides : Z).

Local Abbreviation space := (index_space 0 sizes).
Local Abbreviation act := (active slots).
Local Abbreviation filled :=
  (jacobian_done (partial parameters) sizes num_residuals).

Lemma sizes_nonneg : Forall (λ size, 0 ≤ size) sizes.
Proof. eapply Forall_impl; [exact sizes_positive|]. intros; simpl in *; lia. Qed.

Lemma space_length_parameters :
  length space = length (concat parameters).
Proof. by apply space_length_concat. Qed.

Lemma space_block i j :
  (i, j) ∈ space → 0 ≤ j < get 0 sizes (Z.of_nat i).
Proof.
  intros (size & _ & Hsize & Hj)%elem_of_index_space.
  unfold get. rewrite Nat2Z.id, Nat.sub_0_r in *. by rewrite Hsize.
Qed.

(** One pass fills the columns of the positions it handles with the
    partial derivatives, and keeps the columns filled before. *)
Lemma run_pass_jacobian pass (s : pass_state T) xs1 xs2 :
  between_passes sizes starts slots xs1 xs2 s →
  filled xs1 (ps_jacobians s) →
  primal (ps_jets s) = concat parameters →
  length (ps_outputs s) = Z.to_nat num_residuals →
  ∃ ys zs s',
    xs2 = ys ++ zs ∧
    count_active act ys ≤ Stride ∧
    (count_active act ys = Stride ∨ zs = []) ∧
    run_pass f Stride sizes num_residuals starts (block_offsets 0 sizes) strides
             pass s = inr s' ∧
    between_passes sizes starts slots (xs1 ++ ys) zs s' ∧
    filled (xs1 ++ ys) (ps_jacobians s') ∧
    primal (ps_jets s') = concat parameters ∧
    length (ps_outputs s') = Z.to_nat num_residuals.
Proof.
  intros Hbetween Hfilled Hprimal Hout.
  destruct (run_pass_spec f Stride sizes num_residuals starts
              (block_offsets 0 sizes) strides slots Stride_nonneg pass s xs1 xs2
              Hbetween)
    as (ys & zs & seeded & Hxs & Hcle & Hend & [c' Hwalk] & Hseed & _ & Hcall).
  destruct Hbetween as (Hspace & Hshape & _).
  cbn zeta in *.
  set (hits := hits_of act (Z.of_nat (length xs1)) 0 ys) in *.
  set (initial := mkCursors 0 0 (ps_section s) (ps_section_cursor s)) in *.
  (* the seeded jets *)
  assert (length (ps_jets s) = length space) as Hjets.
  { rewrite space_length_parameters, <- Hprimal. unfold primal.
    by rewrite length_fmap. }
  pose proof (λ Hp, seed_loop_jets _ _ _ _ _ _ _ Hp Hseed) as Hcarry.
  destruct Hcarry as (Ha & Hl & Hq); [simpl; lia|].
  cbn [seed_jets seed_cursors parameter_cursor initial] in Ha, Hl, Hq.
  assert (jets_carry Stride (concat parameters) (seed_jets seeded)) as Hjc.
  { split; [by rewrite Ha|].
    apply Forall_lookup. intros q jet Hjet. apply (Hq q jet Hjet).
    apply lookup_lt_Some in Hjet. lia. }
  destruct (pass_call_value f value Stride sizes num_residuals parameters r
              f_consistent parameters_wf value_r (seed_jets seeded)
              (ps_outputs s) Hjc Hout) as [Hok Hvalue].
  unfold pass_call in Hok, Hvalue.
  rewrite Hok in Hcall.
  destruct Hcall as (scattered & Hscatter & _ & Hrun & Hbetween').
  set (blocks := jet_blocks sizes (block_offsets 0 sizes) (seed_jets seeded)) in *.
  set (outputs := (call_jet f Stride blocks (ps_outputs s)).2) in *.
  assert (length outputs = Z.to_nat num_residuals) as Hout'.
  { rewrite <- (value_length _ _ _ f_consistent _ _ value_r), <- Hvalue.
    unfold primal. by rewrite length_fmap. }
  exists ys, zs. eexists.
  split_and!; [done|done|done|exact Hrun|exact Hbetween'|
               |cbn; unfold primal in *; by rewrite Ha|done].
  cbn [ps_jacobians].
  (* the one-hot directions and the derivative entries they give *)
  assert (walk Stride starts (λ ij, requested (ps_jacobians s) ij.1) space initial
          = Some (hits, c')) as Hwalk'.
  { rewrite <- Hwalk. apply walk_ext. intros x. apply shape_requested, Hshape. }
  assert (concat blocks = seed_jets seeded) as Hconcat.
  { subst blocks. pose proof (concat_blocks_at sizes [] (seed_jets seeded)
                                sizes_nonneg) as Hc.
    apply Hc. rewrite Hl, Hjets. apply length_index_space. }
  assert (primal <$> blocks = parameters) as Hblocks.
  { subst blocks. rewrite jet_blocks_primal, Ha.
    fold (primal (ps_jets s)). rewrite Hprimal.
    pose proof (blocks_at_concat sizes parameters parameters_wf [] []) as Hb.
    cbn [app length] in Hb. rewrite app_nil_r in Hb. exact Hb. }
  assert (∀ h k, h ∈ hits → 0 ≤ k < num_residuals →
            get s_zero (jet_v (get (zero_jet 0) outputs k)) h.2
            = partial parameters (Z.to_nat k) (Z.to_nat h.1.2)) as Hentry.
  { intros h k Hh Hk.
    pose proof (hits_of_bounds _ _ _ _ _ Hh) as [Hhp Hhd].
    destruct (elem_of_hits_of _ _ _ _ _ Hh) as (m & Hm & Hpos & _).
    destruct (lookup_lt_is_Some_2 outputs (Z.to_nat k)) as [out Hlook]; [lia|].
    unfold get at 2. rewrite Hlook.
    change (default (zero_jet 0) (Some out)) with out. unfold get.
    rewrite <- Hblocks.
    rewrite (jet_partial _ _ _ f_differentiates Stride blocks (ps_outputs s)
               (Z.to_nat h.2) (Z.to_nat h.1.2) (Z.to_nat k) out); [done|..].
    - apply jet_blocks_Forall, Hjc.
    - done.
    - lia.
    - rewrite Hconcat, Hl, Hjets, Hspace, length_app, Hxs, length_app.
      apply lookup_lt_Some in Hm. lia.
    - rewrite Hconcat.
      eapply (seeded_one_hot Stride starts (ps_jacobians s) pass space
                (mkSeeding (ps_jets s) initial (ps_log s)) seeded c' act);
        [done|done|exact Hseed|exact Hwalk'|lia|done|done].
    - done. }
  (* the buffers after the scatter loop *)
  pose proof (scatter_loop_values Stride starts sizes num_residuals outputs
                slots space
                (mkScattering (ps_jacobians s) initial
                              (seed_log seeded ++ [EvCallJet pass true]))
                _ _ _ Hshape Hscatter Hwalk) as Hjac.
  cbn [scatter_jacobians] in Hjac. rewrite Hjac.
  pose proof (NoDup_index_space sizes 0) as Hnodup.
  rewrite Hspace, Hxs in Hnodup.
  apply NoDup_app in Hnodup as (_ & Hdisjoint & Hnodup).
  apply NoDup_app in Hnodup as (Hnodup_ys & _ & _).
  intros n i j b' k Hn Hb' Hk.
  assert ((i, j) ∈ space) as Hin.
  { rewrite Hspace, Hxs, app_assoc. apply elem_of_app. left.
    by eapply list_elem_of_lookup_2. }
  pose proof (space_block i j Hin) as Hj.
  set (size := get 0 sizes (Z.of_nat i)) in *.
  assert (shape (scatter_writes outputs num_residuals sizes hits (ps_jacobians s))
          = shape slots) as Hshape'.
  { rewrite <- Hjac. by destruct Hbetween' as (_ & ? & _). }
  destruct (shape_lookup _ _ i b' Hshape' Hb') as (b0 & Hb0 & Hlen0).
  destruct (shape_lookup _ _ i b0 (eq_sym Hshape) Hb0) as (b & Hb & Hlen).
  pose proof (slots_sized i b0 Hb0) as Hsized. fold size in Hsized.
  destruct (scatter_writes_lookup outputs num_residuals sizes hits
              (ps_jacobians s) i b Hb) as (b'' & Hb'' & _ & Hcells);
    [fold size; lia| |].
  { intros h Hh Hi. fold size.
    destruct (elem_of_hits_of _ _ _ _ _ Hh) as (m & Hm & _ & _).
    destruct h as [[[i0 j0] p0] d0]. cbn in *. subst i0.
    apply space_block. rewrite Hspace, Hxs. apply elem_of_app. right.
    apply elem_of_app. left. by eapply list_elem_of_lookup_2. }
  rewrite Hb'' in Hb'. injection Hb' as ->.
  cbn zeta in Hcells. fold size in Hcells.
  destruct (Hcells j k Hj Hk) as [Hkeep Hwrite]; [nia|].
  destruct (decide (n < length xs1)%nat) as [Hlt|Hge].
  - (* a column filled by an earlier pass *)
    rewrite lookup_app_l in Hn by done.
    rewrite Hkeep.
    + by apply (Hfilled n i j b k).
    + intros h Hh Hpair.
      destruct (elem_of_hits_of _ _ _ _ _ Hh) as (m & Hm & _ & _).
      rewrite Hpair in Hm.
      apply (Hdisjoint (i, j)); [by eapply list_elem_of_lookup_2|].
      apply elem_of_app. left. by eapply list_elem_of_lookup_2.
  - (* a column of this pass *)
    rewrite lookup_app_r in Hn by lia.
    assert (act (i, j) = true) as Hact.
    { unfold active, requested. cbn. by rewrite Hb0. }
    destruct (hits_of_complete act ys (Z.of_nat (length xs1)) 0 _ _ Hn Hact)
      as [d Hd]. fold hits in Hd.
    rewrite (Hwrite _ Hd eq_refl).
    + rewrite (Hentry _ k Hd Hk). cbn. do 2 f_equal. lia.
    + intros h' Hh' Hpair'.
      destruct (elem_of_hits_of _ _ _ _ _ Hh') as (m & Hm & Hpos & _).
      rewrite Hpair' in Hm.
      assert (m = (n - length xs1)%nat) as -> by (by eapply NoDup_lookup).
      apply (hits_of_injective _ _ _ _ _ _ Hh' Hd). cbn. lia.
Qed.

(** The passes [t0, t0 + len) fill the columns of the next
    [len * Stride] active positions. *)
Lemma run_passes_jacobian (len : nat) : ∀ t0 (s : pass_state T) xs1 xs2,
  between_passes sizes starts slots xs1 xs2 s →
  filled xs1 (ps_jacobians s) →
  primal (ps_jets s) = concat parameters →
  length (ps_outputs s) = Z.to_nat num_residuals →
  ∃ res jac log ys zs,
    run_passes f Stride sizes num_residuals starts (block_offsets 0 sizes)
               strides (seqZ t0 (Z.of_nat len)) s
      = (Returned true res (Some jac), log) ∧
    shape jac = shape slots ∧
    xs2 = ys ++ zs ∧
    count_active act ys = Z.min (Z.of_nat len * Stride) (count_active act xs2) ∧
    filled (xs1 ++ ys) jac.
Proof.
  induction len as [|len IH]; intros t0 s xs1 xs2 Hb Hf Hp Ho.
  { exists (ps_residuals s), (ps_jacobians s), (ps_log s), [], xs2.
    cbn. rewrite app_nil_r, count_active_nil. destruct Hb as (? & ? & ?).
    split_and!; try done.
    pose proof (count_active_nonneg act xs2). lia. }
  rewrite seqZ_cons by lia. cbn [run_passes].
  replace (Z.pred (Z.of_nat (S len))) with (Z.of_nat len) by lia.
  destruct (run_pass_jacobian t0 s xs1 xs2 Hb Hf Hp Ho)
    as (ys & zs & s' & -> & Hcle & Hend & -> & Hb' & Hf' & Hp' & Ho').
  destruct (IH (Z.succ t0) s' (xs1 ++ ys) zs Hb' Hf' Hp' Ho')
    as (res & jac & log & ys' & zs' & -> & Hshape & -> & Hcount & Hfilled).
  exists res, jac, log, (ys ++ ys'), zs'.
  split_and!; [done|done|by rewrite app_assoc| |by rewrite app_assoc].
  rewrite !count_active_app in *.
  pose proof (count_active_nonneg act ys).
  pose proof (count_active_nonneg act ys').
  pose proof (count_active_nonneg act zs').
  destruct Hend as [Hend|Hend]; [nia|].
  apply (f_equal (count_active act)) in Hend.
  rewrite count_active_app, count_active_nil in Hend. nia.
Qed.
End Jacobian.

Section EvaluateJacobian.
Context {T : Type} `{Scalar T}.
Variable f : CostFunctor T.
Variable value : list (list T) → option (list T).
Variable partial : list (list T) → nat → nat → T.
Variables (sizes : list Z) (num_residuals : Z).
Variables (parameters : list (list T)) (residuals r : list T).
Variable slots : list (option (list T)).
Hypothesis f_consistent : consistent f num_residuals value.
Hypothesis f_differentiates : differentiates f num_residuals partial.
Hypothesis parameters_wf : well_formed sizes parameters.
Hypothesis value_r : value parameters = Some r.
Hypothesis sizes_positive : Forall (λ size, 0 < size) sizes.
Hypothesis residuals_positive : 0 < num_residuals.
Hypothesis residuals_sized : length residuals = Z.to_nat num_residuals.
Hypothesis slots_sized : buffers_sized sizes num_residuals slots.

Local Abbreviation space := (index_space 0 sizes).
Local Abbreviation act := (active slots).

(** With enough passes, [Evaluate] returns the residuals and fills every
    requested buffer with the partial derivatives of its block. *)
Lemma Evaluate_jacobian Stride strides :
  0 ≤ Stride →
  let n := num_active_parameters
             (discovery_walk Stride sizes parameters slots) in
  n ≠ 0 → num_strides Stride n = Some strides → n ≤ strides * Stride →
  ∃ jac log,
    Evaluate f Stride sizes num_residuals parameters residuals (Some slots)
      = (Returned true r (Some jac), log) ∧
    shape jac = shape slots ∧
    jacobian_done (partial parameters) sizes num_residuals space jac.
Proof.
  intros HS n Hactive Hstrides Henough. unfold Evaluate.
  destruct (Z.ltb_spec 0 num_residuals) as [_|]; [|lia]. cbn [negb].
  set (D := discovery_walk Stride sizes parameters slots) in *.
  rewrite bool_decide_eq_false_2 by done. fold n. rewrite Hstrides.
  assert (n = count_active act space) as Hn.
  { subst n D. unfold discovery_walk. rewrite discover_active; [done|].
    by apply (sizes_nonneg sizes). }
  pose proof (count_active_nonneg act space) as Hnonneg.
  assert (1 ≤ strides) as Hpos by nia.
  destruct (discovery_carries Stride sizes parameters parameters_wf slots)
    as [Hprimal Hparams].
  fold D in Hprimal, Hparams. rewrite Hparams, seqZ_to_nat.
  set (s0 := mkPassState (input_jets D)
               (replicate (Z.to_nat num_residuals) (zero_jet Stride))
               0 0 residuals slots []).
  destruct (run_passes_jacobian f value partial Stride sizes num_residuals
              parameters r slots f_consistent f_differentiates parameters_wf
              value_r sizes_positive HS slots_sized (section_starts D) strides
              (Z.to_nat strides) 0 s0 [] space)
    as (res & jac & log & ys & zs & Hrun & Hshape & Hsplit & Hcount & Hfilled).
  { by apply discovery_between_passes. }
  { by intros n' i j b k ?. }
  { done. }
  { cbn. by rewrite length_replicate. }
  destruct (run_passes_consistent f value Stride sizes num_residuals parameters r
              f_consistent parameters_wf value_r (section_starts D) strides
              (discovery_cursor D)
              ltac:(subst D; rewrite discovery_cursor_total; lia)
              (Z.to_nat strides) 0 s0)
    as (jac' & log' & Hrun'); cbn [ps_jets ps_outputs ps_residuals s0];
    [apply discovery_pass_inv|done|by rewrite length_replicate|done|lia|].
  rewrite bool_decide_eq_true_2 in Hrun' by (split; lia).
  rewrite Hrun in Hrun'. injection Hrun' as -> <- <-.
  rewrite Hrun. exists jac, log. split; [done|]. split; [done|].
  cbn [app] in Hfilled.
  assert (count_active act zs = 0) as Hzs.
  { pose proof (count_active_nonneg act zs).
    rewrite Hsplit, count_active_app in Hcount, Hn. lia. }
  intros n' i j b k Hlook Hb Hk. rewrite Hsplit in Hlook.
  destruct (decide (n' < length ys)%nat) as [Hlt|Hge].
  - rewrite lookup_app_l in Hlook by done. by eapply Hfilled.
  - rewrite lookup_app_r in Hlook by lia.
    destruct (shape_lookup _ _ i b Hshape Hb) as (b0 & Hb0 & _).
    assert (0 < count_active act zs); [|lia].
    apply (count_active_elem act zs (i, j));
      [by eapply list_elem_of_lookup_2|].
    unfold active, requested. cbn. by rewrite Hb0.
Qed.
End EvaluateJacobian.

(** ** The dual numbers of [squares] *)

Lemma jet_mul_lookup {T} `{Scalar T} (a b : Jet T) d ea eb :
  jet_v a !! d = Some ea → jet_v b !! d = Some eb →
  jet_v (jet_mul a b) !! d
    = Some (s_add (s_mul (jet_a a) eb) (s_mul ea (jet_a b))).
Proof.
  intros Ha Hb. unfold jet_mul. cbn [jet_v].
  by rewrite lookup_zip_with, !list_lookup_fmap, Ha, Hb.
Qed.

Lemma jet_add_lookup {T} `{Scalar T} (a b : Jet T) d ea eb :
  jet_v a !! d = Some ea → jet_v b !! d = Some eb →
  jet_v (jet_add a b) !! d = Some (s_add ea eb).
Proof.
  intros Ha Hb. unfold jet_add. cbn [jet_v].
  by rewrite lookup_zip_with, Ha, Hb.
Qed.

Lemma concat_lookup_block {A} (blocks : list (list A)) i block k :
  blocks !! i = Some block → (k < length block)%nat →
  concat blocks !! (length (concat (take i blocks)) + k)%nat = block !! k.
Proof.
  revert i. induction blocks as [|b blocks IH]; intros i Hi Hk; [done|].
  destruct i as [|i]; cbn in *.
  - simplify_eq. by rewrite lookup_app_l.
  - rewrite length_app, <- Nat.add_assoc, lookup_app_r by lia.
    rewrite <- (IH i Hi Hk). f_equal. lia.
Qed.

(** The seed read from element [k] of block [i] of one-hot seeded
    blocks; an element the blocks do not have reads as the zero jet. *)
Lemma get_seed {T} `{Scalar T} Stride (blocks : list (list (Jet T))) d p i k :
  Forall (Forall (λ jet : Jet T, length (jet_v jet) = Z.to_nat Stride)) blocks →
  (d < Z.to_nat Stride)%nat → 0 ≤ i → 0 ≤ k →
  one_hot_at d p (concat blocks) →
  jet_v (get (jet_of_scalar Stride s_zero) (get [] blocks i) k) !! d
    = Some (seed_of (primal <$> blocks) i k p).
Proof.
  intros Hlen Hd Hi Hk Hhot. unfold seed_of, get.
  assert (∀ l : list (list (Jet T)),
            length (concat (primal <$> l)) = length (concat l)) as Hlens.
  { intros l. induction l as [|b l IHl]; [done|].
    cbn. unfold primal at 1. by rewrite !length_app, length_fmap, IHl. }
  rewrite list_lookup_fmap, <- fmap_take, Hlens.
  destruct (blocks !! Z.to_nat i) as [block|] eqn:Hblock; cbn.
  - assert (length (primal block) = length block) as Hpb
      by (unfold primal; by rewrite length_fmap).
    destruct (block !! Z.to_nat k) as [jet|] eqn:Hjet; cbn.
    + pose proof (lookup_lt_Some _ _ _ Hjet) as Hlt.
      rewrite <- (concat_lookup_block blocks _ block _ Hblock Hlt) in Hjet.
      rewrite (Hhot _ _ Hjet).
      f_equal. repeat case_decide; try done; lia || tauto.
    + apply lookup_ge_None in Hjet.
      rewrite decide_False by lia. apply lookup_replicate_2. lia.
  - rewrite decide_False by (cbn; lia). apply lookup_replicate_2. lia.
Qed.

Lemma squares_differentiates {T} `{Scalar T} :
  differentiates (instantiate (T:=T) squares) 2 squares_partial.
Proof.
  split. intros Stride blocks outputs d p k out Hlen Hout Hd Hp Hhot Hk.
  destruct outputs as [|o0 [|o1 [|]]]; try done.
  assert (∀ i kk, 0 ≤ i → 0 ≤ kk →
    let x := get (jet_of_scalar Stride s_zero) (get [] blocks i) kk in
    jet_v (jet_mul x x) !! d =
      Some (s_add (s_mul (get s_zero (get [] (primal <$> blocks) i) kk)
                         (seed_of (primal <$> blocks) i kk p))
                  (s_mul (seed_of (primal <$> blocks) i kk p)
                         (get s_zero (get [] (primal <$> blocks) i) kk))))
    as Hterm.
  { intros i kk Hi Hkk x.
    pose proof (get_seed Stride blocks d p i kk Hlen Hd Hi Hkk Hhot) as Hseed.
    fold x in Hseed. rewrite (jet_mul_lookup x x d _ _ Hseed Hseed).
    subst x. by rewrite !get_primal. }
  cbn in Hk. unfold squares_partial.
  destruct k as [|[|k]]; cbn in Hk; [| |done]; injection Hk as <-.
  - apply (jet_add_lookup (T:=T)); apply Hterm; lia.
  - apply (jet_add_lookup (T:=T)); apply Hterm; lia.
Qed.

(** Buffers of the requested shape whose columns all hold the partial
    derivatives are equal. *)
Lemma jacobian_done_unique {T} (partial : nat → nat → T) sizes num_residuals
    (slots jac1 jac2 : list (option (list T))) :
  Forall (λ size, 0 < size) sizes →
  length slots = length sizes →
  buffers_sized sizes num_residuals slots →
  shape jac1 = shape slots → shape jac2 = shape slots →
  jacobian_done partial sizes num_residuals (index_space 0 sizes) jac1 →
  jacobian_done partial sizes num_residuals (index_space 0 sizes) jac2 →
  jac1 = jac2.
Proof.
  intros Hpos Hlen Hsized Hs1 Hs2 Hd1 Hd2. apply list_eq. intros i.
  assert (shape jac1 !! i = shape jac2 !! i) as Hsh by congruence.
  unfold shape in Hsh. rewrite !list_lookup_fmap in Hsh.
  destruct (jac1 !! i) as [[b1|]|] eqn:E1, (jac2 !! i) as [[b2|]|] eqn:E2;
    simplify_eq/=; try done.
  do 2 f_equal.
  destruct (shape_lookup _ _ i b1 Hs1 E1) as (b0 & Hb0 & Hlen0).
  pose proof (Hsized i b0 Hb0) as Hsize0.
  destruct (lookup_lt_is_Some_2 sizes i) as [size Hsize].
  { rewrite <- Hlen. by eapply lookup_lt_Some. }
  pose proof (proj1 (Forall_lookup _ _) Hpos i size Hsize) as Hsize_pos.
  assert (get 0 sizes (Z.of_nat i) = size) as Hget
    by (unfold get; by rewrite Nat2Z.id, Hsize).
  rewrite Hget in Hsize0.
  apply list_eq. intros t.
  destruct (decide (t < length b1)%nat) as [Hlt|Hge].
  2: { rewrite !lookup_ge_None_2 by lia. done. }
  set (k := Z.of_nat t / size). set (j := Z.of_nat t mod size).
  pose proof (Z.div_mod (Z.of_nat t) size ltac:(lia)) as Hdiv.
  pose proof (Z.mod_pos_bound (Z.of_nat t) size Hsize_pos) as Hmod.
  fold k j in Hdiv, Hmod.
  assert (0 ≤ k < num_residuals) as Hk.
  { split; [apply Z.div_pos; lia|]. apply Z.div_lt_upper_bound; nia. }
  assert ((i, j) ∈ index_space 0 sizes) as Hin.
  { apply elem_of_index_space. exists size.
    rewrite Nat.sub_0_r. split_and!; [lia|done|lia..]. }
  apply list_elem_of_lookup_1 in Hin as [n Hn].
  pose proof (Hd1 n i j b1 k Hn E1 Hk) as H1.
  pose proof (Hd2 n i j b2 k Hn E2 Hk) as H2.
  rewrite Hget in H1, H2.
  replace (Z.to_nat (k * size + j)) with t in H1, H2 by lia.
  congruence.
Qed.

Section StrideIndependence.
Context {T : Type} `{Scalar T}.
Variable f : CostFunctor T.
Variable value : list (list T) → option (list T).
Variable partial : list (list T) → nat → nat → T.
Variables (sizes : list Z) (num_residuals : Z).
Variables (parameters : list (list T)) (residuals r : list T).
Variable slots : list (option (list T)).
Hypothesis f_consistent : consistent f num_residuals value.
Hypothesis f_differentiates : differentiates f num_residuals partial.
Hypothesis parameters_wf : well_formed sizes parameters.
Hypothesis value_r : value parameters = Some r.
Hypothesis sizes_positive : Forall (λ size, 0 < size) sizes.
Hypothesis residuals_positive : 0 < num_residuals.
Hypothesis residuals_sized : length residuals = Z.to_nat num_residuals.
Hypothesis slots_length : length slots = length sizes.
Hypothesis slots_sized : buffers_sized sizes num_residuals slots.
Hypothesis below_2p24 :
  count_active (active slots) (index_space 0 sizes) < 2 ^ 24.

Lemma discovery_count Stride :
  num_active_parameters (discovery_walk Stride sizes parameters slots)
    = count_active (active slots) (index_space 0 sizes).
Proof.
  unfold discovery_walk. rewrite discover_active; [done|].
  by apply (sizes_nonneg sizes).
Qed.

(** Below [2^24] active positions, with blocks of positive size, a
    functor that keeps its contract and buffers of the declared sizes,
    [Evaluate] returns the residuals and the partial derivatives. *)
Lemma Evaluate_below_2p24 Stride :
  0 < Stride < 2 ^ 24 →
  count_active (active slots) (index_space 0 sizes) ≠ 0 →
  ∃ jac log,
    Evaluate f Stride sizes num_residuals parameters residuals (Some slots)
      = (Returned true r (Some jac), log) ∧
    shape jac = shape slots ∧
    jacobian_done (partial parameters) sizes num_residuals
                  (index_space 0 sizes) jac.
Proof.
  intros HS Hactive.
  pose proof (count_active_nonneg (active slots) (index_space 0 sizes)).
  pose proof (discovery_count Stride) as Hn.
  pose proof (ceil_div_spec (count_active (active slots) (index_space 0 sizes))
                            Stride ltac:(lia)) as Hk.
  apply (Evaluate_jacobian f value partial sizes num_residuals parameters
           residuals r slots f_consistent f_differentiates parameters_wf value_r
           sizes_positive residuals_positive residuals_sized slots_sized Stride
           (ceil_div (count_active (active slots) (index_space 0 sizes)) Stride));
    cbn zeta; rewrite ?Hn; [lia|done| |lia].
  apply num_strides_exact; lia.
Qed.

(** The result of [Evaluate] is then the same for every stride. *)
Lemma stride_independent_below_2p24 Stride1 Stride2 :
  0 < Stride1 < 2 ^ 24 → 0 < Stride2 < 2 ^ 24 →
  (Evaluate f Stride1 sizes num_residuals parameters residuals (Some slots)).1
  = (Evaluate f Stride2 sizes num_residuals parameters residuals (Some slots)).1.
Proof.
  intros H1 H2.
  destruct (decide (count_active (active slots) (index_space 0 sizes) = 0))
    as [Hzero|Hactive].
  - unfold Evaluate. destruct (0 <? num_residuals); cbn [negb]; [|done].
    by rewrite !bool_decide_eq_true_2 by (by rewrite discovery_count).
  - destruct (Evaluate_below_2p24 Stride1 H1 Hactive)
      as (jac1 & log1 & -> & Hs1 & Hd1).
    destruct (Evaluate_below_2p24 Stride2 H2 Hactive)
      as (jac2 & log2 & -> & Hs2 & Hd2).
    cbn. do 2 f_equal.
    by eapply (jacobian_done_unique (partial parameters) sizes num_residuals slots).
Qed.
End StrideIndependence.

(** For [squares] on two blocks of two parameters the contract holds, so
    every stride below [2^24] gives the same residuals and the same
    Jacobian buffers, whatever the values and the request. *)
Lemma squares_stride_independent {T} `{Scalar T} Stride1 Stride2
    (x1 x2 residuals : list T) (slot1 slot2 : option (list T)) :
  0 < Stride1 < 2 ^ 24 → 0 < Stride2 < 2 ^ 24 →
  length x1 = 2%nat → length x2 = 2%nat → length residuals = 2%nat →
  (∀ b, slot1 = Some b → length b = 4%nat) →
  (∀ b, slot2 = Some b → length b = 4%nat) →
  (Evaluate (instantiate squares) Stride1 [2; 2] 2 [x1; x2] residuals
            (Some [slot1; slot2])).1
  = (Evaluate (instantiate squares) Stride2 [2; 2] 2 [x1; x2] residuals
              (Some [slot1; slot2])).1.
Proof.
  intros H1 H2 Hx1 Hx2 Hres Hb1 Hb2.
  eapply (stride_independent_below_2p24 (instantiate squares) squares_value
            squares_partial [2; 2] 2 [x1; x2] residuals _ [slot1; slot2]);
    try done.
  - apply squares_consistent.
  - apply squares_differentiates.
  - repeat constructor; lia.
  - repeat constructor; lia.
  - intros [|[|i]] b Hb; simplify_eq/=; [by apply Hb1|by apply Hb2].
  - pose proof (count_active_le (active [slot1; slot2]) (index_space 0 [2; 2])).
    pose proof (length_index_space 0 [2; 2]) as Hspace.
    cbn [foldr] in Hspace. lia.
Qed.

(** ** Properties of every call *)

Lemma direct_events {T} (f : CostFunctor T) parameters residuals jacobians :
  ∃ ok res,
    direct f parameters residuals jacobians =
      (Returned ok res jacobians, [EvCallScalar ok]) ∧
    (ok, res) = call_scalar f parameters residuals.
Proof.
  unfold direct. destruct (call_scalar _ _ _) as [ok res]. by exists ok, res.
Qed.

(** The first statement of [Evaluate] is the check on the residual count:
    when it fails nothing else runs. *)
Lemma check_fails {T} `{Scalar T} (f : CostFunctor T)
    Stride sizes num_residuals parameters residuals jacobians :
  num_residuals ≤ 0 →
  Evaluate f Stride sizes num_residuals parameters residuals jacobians
    = (CheckFailed, []).
Proof.
  intros Hres. unfold Evaluate.
  destruct (Z.ltb_spec 0 num_residuals); [lia|done].
Qed.

(** C9: evaluating while the residual count is unset (zero) or not
    positive fails the check [CHECK_GT(num_residuals(), 0)]; the check comes
    before everything else, so nothing is invoked or written, whether or
    not Jacobians are asked for. *)
Theorem residual_count_checked_first {T} `{Scalar T} (f : CostFunctor T)
    Stride sizes num_residuals parameters residuals jacobians :
  num_residuals ≤ 0 →
  Evaluate f Stride sizes num_residuals parameters residuals jacobians
    = (CheckFailed, []).
Proof. apply check_fails. Qed.

Lemma residual_count_checked_first_witness :
  0 ≤ 0 ∧
  Evaluate (instantiate squares) 4 [2; 2] 0 [[1; 2]; [3; 4]]%float [7; 7]%float
           None = (CheckFailed, []) ∧
  Evaluate (instantiate squares) 4 [2; 2] 0 [[1; 2]; [3; 4]]%float [7; 7]%float
           (Some [Some [9; 9; 9; 9]%float; None]) = (CheckFailed, []).
Proof.
  split; [lia|]. split; apply residual_count_checked_first; lia.
Defined.

(** The computed active parameter count is zero as soon as every block
    with a non-null Jacobian slot has size zero (in particular when every
    slot is null). *)
Lemma zero_sized_requests_count_zero {T} `{Scalar T} Stride sizes parameters
    (slots : list (option (list T))) :
  (∀ i size, sizes !! i = Some size → requested slots i = true → size = 0) →
  num_active_parameters (discovery_walk Stride sizes parameters slots) = 0.
Proof.
  unfold discovery_walk. generalize (replicate (Z.to_nat (foldl Z.add 0 sizes))
                                               (zero_jet Stride)).
  intros jets Hzero.
  assert (∀ i d, (∀ k size, sizes !! k = Some size →
                    requested slots (i + k) = true → size = 0) →
    num_active_parameters (discover parameters slots i sizes d) =
    num_active_parameters d) as Hgen.
  { clear Hzero. induction sizes as [|size sizes' IH]; intros i d Hz; [done|].
    cbn [discover]. rewrite IH.
    - unfold discover_block. cbn.
      destruct (requested slots i) eqn:E; [|done].
      rewrite (Hz 0%nat size); [lia|done|by rewrite Nat.add_0_r].
    - intros k size' Hk Hreq. apply (Hz (S k)); [done|].
      by replace (i + S k)%nat with (S i + k)%nat by lia. }
  by rewrite Hgen.
Qed.

(** C5: when Jacobians are asked for but the computed active parameter
    count is zero, [Evaluate] invokes the functor once on the plain scalars
    and returns its result, as when no Jacobians are asked for: no
    dual-number invocation, no Jacobian write, the slots are returned as
    they were. *)
Theorem zero_active_count_falls_back {T} `{Scalar T} (f : CostFunctor T)
    Stride sizes num_residuals parameters residuals slots :
  0 < num_residuals →
  num_active_parameters (discovery_walk Stride sizes parameters slots) = 0 →
  let scalar := call_scalar f parameters residuals in
  Evaluate f Stride sizes num_residuals parameters residuals (Some slots)
    = (Returned scalar.1 scalar.2 (Some slots), [EvCallScalar scalar.1]) ∧
  Evaluate f Stride sizes num_residuals parameters residuals None
    = (Returned scalar.1 scalar.2 None, [EvCallScalar scalar.1]).
Proof.
  intros Hres Hzero. unfold Evaluate, direct.
  destruct (Z.ltb_spec 0 num_residuals); [|lia]. cbn [negb].
  rewrite bool_decide_eq_true_2 by done.
  by destruct (call_scalar _ _ _).
Qed.

Lemma zero_active_count_falls_back_witness :
  Evaluate (instantiate squares) 4 [2; 2; 0] 2 [[1; 2]; [3; 4]; []]%float
           [7; 7]%float (Some [None; None; Some []])
    = (Returned true [10; 20]%float (Some [None; None; Some []]),
       [EvCallScalar true]).
Proof.
  refine (proj1 (zero_active_count_falls_back (instantiate squares) 4 [2; 2; 0] 2
            [[1; 2]; [3; 4]; []]%float [7; 7]%float [None; None; Some []] _ _)).
  - lia.
  - apply zero_sized_requests_count_zero.
    intros [|[|[|i]]] size Hsize Hreq; simplify_eq/=; done.
Defined.

(** C6: when a dual-number invocation of the functor returns false,
    [Evaluate] returns false from that very pass: the failing invocation
    is the last event of the call, every earlier invocation had succeeded,
    and the caller's residual buffer is returned as it was, never written. *)
Theorem failed_pass_returns_false {T} `{Scalar T} (f : CostFunctor T)
    Stride sizes num_residuals parameters residuals jacobians out log :
  Evaluate f Stride sizes num_residuals parameters residuals jacobians
    = (out, log) →
  false ∈ jet_calls log →
  ∃ slots' log' pass,
    out = Returned false residuals (Some slots') ∧
    log = log' ++ [EvCallJet pass false] ∧
    jet_calls log' = replicate (Z.to_nat pass) true ∧
    residual_writes log = [].
Proof.
  intros Heval Hfalse.
  destruct (Z.le_gt_cases num_residuals 0) as [Hres|Hres].
  { rewrite check_fails in Heval by done.
    simplify_eq. exfalso. cbn in Hfalse. exact (not_elem_of_nil _ Hfalse). }
  unfold Evaluate in Heval.
  destruct (Z.ltb_spec 0 num_residuals); [|lia]. cbn [negb] in Heval.
  destruct jacobians as [slots|].
  2: { destruct (direct_events f parameters residuals None) as (ok & res & E & _).
       rewrite E in Heval. simplify_eq. exfalso. cbn in Hfalse. exact (not_elem_of_nil _ Hfalse). }
  case_bool_decide as Hactive.
  { destruct (direct_events f parameters residuals (Some slots))
      as (ok & res & E & _).
    rewrite E in Heval. simplify_eq. exfalso. cbn in Hfalse. exact (not_elem_of_nil _ Hfalse). }
  destruct (num_strides Stride _) as [strides|] eqn:Hstrides.
  2: { simplify_eq. exfalso. cbn in Hfalse. exact (not_elem_of_nil _ Hfalse). }
  destruct (Evaluate_passes f Stride sizes num_residuals parameters residuals
              slots strides Hres Hactive Hstrides)
    as (ok & res & jac & log0 & Heval' & _ & _ & _ & Hrest).
  unfold Evaluate in Heval'.
  destruct (Z.ltb_spec 0 num_residuals); [|lia]. cbn [negb] in Heval'.
  rewrite bool_decide_eq_false_2, Hstrides in Heval' by done.
  rewrite Heval' in Heval. simplify_eq.
  destruct ok.
  - destruct Hrest as [Hcalls _]. rewrite Hcalls in Hfalse.
    exfalso. by destruct (proj1 (elem_of_replicate _ _ _) Hfalse).
  - destruct Hrest as (-> & Hrw & k & log' & _ & _ & _ & -> & Hcalls & _).
    exists jac, log', (Z.of_nat k). by rewrite Nat2Z.id.
Qed.

Lemma failed_pass_returns_false_witness :
  ∃ slots' log' pass,
    Returned false [7; 7]%float
             (Some [Some [2; 0; 0; 4]; Some [9; 9; 9; 9]]%float)
      = Returned false [7; 7]%float (Some slots') ∧
    [EvSeed 0 0 0; EvSeed 0 1 1; EvCallJet 0 true;
     EvJacobianWrite 0 0 0; EvJacobianWrite 0 1 0;
     EvJacobianWrite 0 0 1; EvJacobianWrite 0 1 1;
     EvSeed 1 2 0; EvSeed 1 3 1; EvCallJet 1 false]
      = log' ++ [EvCallJet pass false] ∧
    jet_calls log' = replicate (Z.to_nat pass) true ∧
    residual_writes
      [EvSeed 0 0 0; EvSeed 0 1 1; EvCallJet 0 true;
       EvJacobianWrite 0 0 0; EvJacobianWrite 0 1 0;
       EvJacobianWrite 0 0 1; EvJacobianWrite 0 1 1;
       EvSeed 1 2 0; EvSeed 1 3 1; EvCallJet 1 false] = [].
Proof.
  apply (failed_pass_returns_false picky 2 [2; 2] 2 [[1; 2]; [3; 4]]%float
           [7; 7]%float (Some [Some [9; 9; 9; 9]; Some [9; 9; 9; 9]]%float)).
  - vm_compute. reflexivity.
  - vm_compute. apply list_elem_of_In. simpl. tauto.
Defined.

(** C8: the section vector the stride loops read ends with the total
    number of parameter positions, appended after the discovery walk, and
    no call ever reads [start_derivative_section] past its end. *)
Theorem section_reads_in_bounds {T} `{Scalar T} (f : CostFunctor T)
    Stride sizes num_residuals parameters residuals slots jacobians :
  last (section_starts (discovery_walk Stride sizes parameters slots))
    = Some (Z.of_nat (length (index_space 0 sizes))) ∧
  (Evaluate f Stride sizes num_residuals parameters residuals jacobians).1
    ≠ SectionOutOfBounds.
Proof.
  split.
  { unfold section_starts. by rewrite last_snoc, discovery_cursor_total. }
  destruct (Z.le_gt_cases num_residuals 0) as [Hres|Hres].
  { by rewrite check_fails. }
  unfold Evaluate.
  destruct (Z.ltb_spec 0 num_residuals); [|lia]. cbn [negb].
  destruct jacobians as [slots'|].
  2: { by destruct (direct_events f parameters residuals None)
         as (ok & res & -> & _). }
  case_bool_decide as Hactive.
  { by destruct (direct_events f parameters residuals (Some slots'))
      as (ok & res & -> & _). }
  destruct (num_strides Stride _) as [strides|] eqn:Hstrides; [|done].
  destruct (Evaluate_passes f Stride sizes num_residuals parameters residuals
              slots' strides Hres Hactive Hstrides)
    as (ok & res & jac & log0 & Heval' & _).
  unfold Evaluate in Heval'.
  destruct (Z.ltb_spec 0 num_residuals); [|lia]. cbn [negb] in Heval'.
  rewrite bool_decide_eq_false_2, Hstrides in Heval' by done.
  by rewrite Heval'.
Qed.

(** C10: a call writes no Jacobian buffer other than those of the blocks
    whose slot is non-null: whatever the outcome, the returned slots are
    null exactly where the given ones are, with buffers of the same
    lengths, and every Jacobian write goes to a block with a non-null
    slot.  The parameter values are an input only: nothing of them is
    returned. *)
Theorem only_requested_buffers_written {T} `{Scalar T} (f : CostFunctor T)
    Stride sizes num_residuals parameters residuals jacobians :
  let r := Evaluate f Stride sizes num_residuals parameters residuals jacobians in
  match r.1 with
  | Returned _ _ jacobians' =>
      match jacobians, jacobians' with
      | None, None => written r.2 = []
      | Some slots, Some slots' =>
          shape slots' = shape slots ∧
          Forall (λ w, requested slots w.1.1 = true) (written r.2)
      | _, _ => False
      end
  | _ => written r.2 = []
  end.
Proof.
  cbn zeta.
  destruct (Z.le_gt_cases num_residuals 0) as [Hres|Hres].
  { by rewrite check_fails. }
  unfold Evaluate.
  destruct (Z.ltb_spec 0 num_residuals); [|lia]. cbn [negb].
  destruct jacobians as [slots|].
  2: { by destruct (direct_events f parameters residuals None)
         as (ok & res & -> & _). }
  case_bool_decide as Hactive.
  { destruct (direct_events f parameters residuals (Some slots))
      as (ok & res & -> & _). cbn. split; [done|constructor]. }
  destruct (num_strides Stride _) as [strides|] eqn:Hstrides; [|done].
  destruct (Evaluate_passes f Stride sizes num_residuals parameters residuals
              slots strides Hres Hactive Hstrides)
    as (ok & res & jac & log0 & Heval' & Hshape & _ & Hws & _).
  unfold Evaluate in Heval'.
  destruct (Z.ltb_spec 0 num_residuals); [|lia]. cbn [negb] in Heval'.
  rewrite bool_decide_eq_false_2, Hstrides in Heval' by done.
  rewrite Heval'. done.
Qed.

(** ** The stride count beyond the precision of [float] *)

(** C7: with 16777217 = 2^24 + 1 active parameters and the default
    stride of 4, every invocation succeeds and yet the functor is invoked
    4194304 times, one time fewer than ceil(16777217 / 4) = 4194305: the
    count is computed in single precision, where 16777217 rounds to
    16777216. *)
Theorem stride_count_single_precision (block residuals buffer : list float) :
  let r := Evaluate (instantiate first_squared) 4 [16777217] 1 [block] residuals
                    (Some [Some buffer]) in
  (∃ res jac, r.1 = Returned true res (Some jac)) ∧
  Z.of_nat (length (jet_calls r.2)) = 4194304 ∧
  scalar_calls r.2 = [] ∧
  ceil_div 16777217 4 = 4194305.
Proof.
  destruct stride_counts_at_2p24_plus_1 as (H4 & C4 & _ & _).
  destruct (single_block_run (instantiate first_squared) 4 16777217 1 block
              residuals buffer 4194304) as (Hret & _ & _ & Hcalls & Hscalar);
    [apply first_squared_succeeds|lia..|exact H4|].
  cbn zeta. split; [exact Hret|]. rewrite Hcalls, length_replicate.
  split; [lia|]. split; [exact Hscalar|exact C4].
Qed.

(** C1: in that call the seeded positions are 0, ..., 16777215: the active
    position 16777216 is seeded in no pass, and no row of its Jacobian
    column is written. *)
Theorem last_position_never_seeded (block residuals buffer : list float) :
  let r := Evaluate (instantiate first_squared) 4 [16777217] 1 [block] residuals
                    (Some [Some buffer]) in
  (∃ res jac, r.1 = Returned true res (Some jac)) ∧
  (0%nat, 16777216) ∈ index_space 0 [16777217] ∧
  active [Some buffer] (0%nat, 16777216) = true ∧
  seeded r.2 = seqZ 0 16777216 ∧
  (16777216 ∉ seeded r.2) ∧
  (∀ k, (0%nat, k, 16777216) ∉ written r.2).
Proof.
  destruct stride_counts_at_2p24_plus_1 as (H4 & _ & _ & _).
  destruct (single_block_run (instantiate first_squared) 4 16777217 1 block
              residuals buffer 4194304) as (Hret & Hseeded & Hwritten & _ & _);
    [apply first_squared_succeeds|lia..|exact H4|].
  cbn zeta in *.
  change (Z.min (Z.max 0 4194304 * 4) 16777217) with 16777216 in *.
  split; [exact Hret|]. split.
  { apply elem_of_index_space. exists 16777217. split_and!; [lia|done|lia..]. }
  split; [done|]. split; [exact Hseeded|]. split.
  - rewrite Hseeded, elem_of_seqZ. lia.
  - intros k. rewrite Hwritten, list_elem_of_bind.
    intros (j & Hk & Hj). apply elem_of_seqZ in Hj.
    apply list_elem_of_fmap in Hk as (k' & Heq & _).
    assert (j = 16777216) by congruence. lia.
Qed.

(** C3: the same function, values and request give different Jacobian
    writes under two strides: with stride 3 the column of position
    16777216 is written, with stride 4 it is not, so that entry of the
    caller's buffer keeps whatever it held. *)
Theorem stride_changes_written_entries (block residuals buffer : list float) :
  let r3 := Evaluate (instantiate first_squared) 3 [16777217] 1 [block] residuals
                     (Some [Some buffer]) in
  let r4 := Evaluate (instantiate first_squared) 4 [16777217] 1 [block] residuals
                     (Some [Some buffer]) in
  (∃ res jac, r3.1 = Returned true res (Some jac)) ∧
  (∃ res jac, r4.1 = Returned true res (Some jac)) ∧
  ((0%nat, 0, 16777216) ∈ written r3.2) ∧
  ((0%nat, 0, 16777216) ∉ written r4.2).
Proof.
  destruct stride_counts_at_2p24_plus_1 as (H4 & _ & H3 & _).
  destruct (single_block_run (instantiate first_squared) 4 16777217 1 block
              residuals buffer 4194304) as (Hret4 & _ & Hwritten4 & _ & _);
    [apply first_squared_succeeds|lia..|exact H4|].
  destruct (single_block_run (instantiate first_squared) 3 16777217 1 block
              residuals buffer 5592406) as (Hret3 & _ & Hwritten3 & _ & _);
    [apply first_squared_succeeds|lia..|exact H3|].
  cbn zeta in *.
  change (Z.min (Z.max 0 4194304 * 4) 16777217) with 16777216 in *.
  change (Z.min (Z.max 0 5592406 * 3) 16777217) with 16777217 in *.
  split; [exact Hret3|]. split; [exact Hret4|]. split.
  - rewrite Hwritten3, list_elem_of_bind. exists 16777216. split.
    + apply list_elem_of_fmap. exists 0. split; [done|].
      apply elem_of_seqZ. lia.
    + apply elem_of_seqZ. lia.
  - rewrite Hwritten4, list_elem_of_bind.
    intros (j & Hk & Hj). apply elem_of_seqZ in Hj.
    apply list_elem_of_fmap in Hk as (k' & Heq & _).
    assert (j = 16777216) by congruence. lia.
Qed.

(** ** The concrete scenario *)

(** C2: for [f(x1, x2) = [x1[0]^2 + x2[0]^2, x1[1]^2 + x2[1]^2]], two
    blocks of size 2, both slots non-null, [x1 = [1, 2]], [x2 = [3, 4]]:
    [Evaluate] returns true with residuals [10, 20], and the Jacobian
    buffers [2, 0, 0, 4] and [6, 0, 0, 8]; the entry of residual [k] and
    column [j] is at offset [k * 2 + j], and every entry the buffers held
    before is overwritten.  The default stride 4 takes one pass; the other
    strides give the same buffers. *)
Theorem squares_scenario :
  Evaluate (instantiate squares) 4 [2; 2] 2 [[1; 2]; [3; 4]]%float [7; 7]%float
           (Some [Some [9; 9; 9; 9]; Some [9; 9; 9; 9]]%float)
    = (Returned true [10; 20]%float
                (Some [Some [2; 0; 0; 4]; Some [6; 0; 0; 8]]%float),
       [EvSeed 0 0 0; EvSeed 0 1 1; EvSeed 0 2 2; EvSeed 0 3 3;
        EvCallJet 0 true;
        EvJacobianWrite 0 0 0; EvJacobianWrite 0 1 0;
        EvJacobianWrite 0 0 1; EvJacobianWrite 0 1 1;
        EvJacobianWrite 1 0 0; EvJacobianWrite 1 1 0;
        EvJacobianWrite 1 0 1; EvJacobianWrite 1 1 1;
        EvResidualWrite 0; EvResidualWrite 1]) ∧
  Forall (λ Stride,
    (Evaluate (instantiate squares) Stride [2; 2] 2 [[1; 2]; [3; 4]]%float
              [7; 7]%float (Some [Some [9; 9; 9; 9]; Some [9; 9; 9; 9]]%float)).1
    = Returned true [10; 20]%float
               (Some [Some [2; 0; 0; 4]; Some [6; 0; 0; 8]]%float))
    [1; 2; 3; 4; 5; 8].
Proof. split; [vm_compute; reflexivity|]. repeat constructor. Qed.

(** Blocks of size zero, which the sizing layer is specified to refuse,
    are outside the properties above: a section recorded for an empty
    requested block makes the section cursor lag, position 1 is seeded in
    both passes and position 2 in none. *)
Example empty_blocks_reseed :
  seeded (Evaluate (instantiate squares) 1 [0; 0; 0; 1; 2] 2
                   [[]; []; []; [1]; [3; 4]]%float [7; 7]%float
                   (Some [Some []; None; Some []; None;
                          Some [9; 9; 9; 9]]%float)).2
    = [1; 1].
Proof. vm_compute. reflexivity. Qed.

(** ** Residuals and the request pattern *)

(** C4: for a functor whose two instantiations compute consistent primal
    values, a fixed well-formed input on which the functor succeeds, and
    every Jacobian request (the null argument, all slots null, any subset
    of slots non-null), [Evaluate] returns true with the residuals of a
    direct plain-scalar invocation. *)
Theorem residuals_independent_of_requests {T} `{Scalar T} (f : CostFunctor T)
    value Stride sizes num_residuals parameters residuals r jacobians :
  consistent f num_residuals value →
  well_formed sizes parameters →
  length residuals = Z.to_nat num_residuals →
  0 < num_residuals →
  0 < Stride < 2 ^ 31 →
  foldl Z.add 0 sizes < 2 ^ 31 →
  value parameters = Some r →
  stride_count_defined Stride sizes parameters jacobians →
  call_scalar f parameters residuals = (true, r) ∧
  ∃ jacobians' log,
    Evaluate f Stride sizes num_residuals parameters residuals jacobians
      = (Returned true r jacobians', log).
Proof.
  intros Hf Hwf Hlen Hres HS Hsum Hvalue Hdefined.
  pose proof (scalar_value _ _ _ Hf parameters residuals r Hlen Hvalue) as Hscalar.
  split; [done|]. unfold Evaluate.
  destruct (Z.ltb_spec 0 num_residuals); [|lia]. cbn [negb].
  destruct jacobians as [slots|]; [|unfold direct; rewrite Hscalar; by eexists _, _].
  case_bool_decide as Hactive;
    [unfold direct; rewrite Hscalar; by eexists _, _|].
  destruct Hdefined as [?|[strides Hstrides]]; [done|]. rewrite Hstrides.
  set (D := discovery_walk Stride sizes parameters slots) in *.
  assert (0 < num_active_parameters D < 2 ^ 31) as Hn.
  { pose proof (discover_active parameters slots sizes 0
                  (mkDiscovery (replicate (Z.to_nat (foldl Z.add 0 sizes))
                                          (zero_jet Stride)) [] [] false 0 0)
                  (well_formed_nonneg _ _ Hwf)) as Hcount.
    fold (discovery_walk Stride sizes parameters slots) in Hcount. fold D in Hcount.
    cbn [num_active_parameters] in Hcount.
    pose proof (count_active_nonneg (active slots) (index_space 0 sizes)).
    pose proof (count_active_le (active slots) (index_space 0 sizes)).
    pose proof (length_index_space 0 sizes) as Hspace.
    assert (foldr (λ s n, Z.max 0 s + n) 0 sizes = foldl Z.add 0 sizes) as Hsame.
    { rewrite (sum_sizes_well_formed _ _ 0 Hwf). clear -Hwf.
      induction Hwf as [|???? Hb _ IH]; cbn; [done|].
      rewrite IH, length_app. lia. }
    lia. }
  pose proof (num_strides_pos _ _ _ HS Hn Hstrides) as Hpos.
  destruct (discovery_carries Stride sizes parameters Hwf slots)
    as [Hprimal Hparams].
  fold D in Hprimal, Hparams. rewrite Hparams, seqZ_to_nat.
  destruct (run_passes_consistent f value Stride sizes num_residuals parameters r
              Hf Hwf Hvalue (section_starts D) strides (discovery_cursor D)
              ltac:(subst D; rewrite discovery_cursor_total; lia)
              (Z.to_nat strides) 0
              (mkPassState (input_jets D)
                           (replicate (Z.to_nat num_residuals) (zero_jet Stride))
                           0 0 residuals slots []))
    as (jac & log & ->); cbn [ps_jets ps_outputs ps_residuals];
    [apply discovery_pass_inv|done|by rewrite length_replicate|done|lia|].
  rewrite bool_decide_eq_true_2 by (split; lia). by eexists _, _.
Qed.

Lemma residuals_independent_of_requests_witness :
  call_scalar (instantiate squares) [[1; 2]; [3; 4]]%float [7; 7]%float
    = (true, [10; 20]%float) ∧
  ∃ jacobians' log,
    Evaluate (instantiate squares) 1 [2; 2] 2 [[1; 2]; [3; 4]]%float [7; 7]%float
             (Some [None; Some [9; 9; 9; 9]%float])
      = (Returned true [10; 20]%float jacobians', log).
Proof.
  apply (residuals_independent_of_requests (instantiate squares) squares_value).
  - apply squares_consistent.
  - repeat constructor.
  - reflexivity.
  - lia.
  - lia.
  - vm_compute. reflexivity.
  - reflexivity.
  - right. vm_compute. eexists. reflexivity.
Defined.

(** ** More about [Evaluate] *)

(** X1: for fewer than [2^24] active parameters and a stride below
    [2^24], the number of passes computed in single precision on lines
    208-209 is the exact ceiling of [n / Stride]: the least [strides] with
    [n <= strides * Stride]. *)
Theorem stride_count_is_ceiling_below_2p24 Stride n :
  0 < Stride < 2 ^ 24 → 0 < n < 2 ^ 24 →
  ∃ strides,
    num_strides Stride n = Some strides ∧
    (strides - 1) * Stride < n ≤ strides * Stride.
Proof.
  intros HS Hn. exists (ceil_div n Stride). split.
  - by apply num_strides_exact.
  - apply ceil_div_spec. lia.
Qed.

Lemma stride_count_is_ceiling_below_2p24_witness :
  ∃ strides,
    num_strides 4 10 = Some strides ∧ (strides - 1) * 4 < 10 ≤ strides * 4.
Proof. apply (stride_count_is_ceiling_below_2p24 4 10); lia. Defined.

(** X2: a call on the derivative path that returns [true] has made at
    least one pass, has written every residual exactly once, in order, and
    has never invoked the plain-scalar instantiation: no successful return
    leaves the residual buffer as it was. *)
Theorem successful_call_writes_each_residual_once {T} `{Scalar T}
    (f : CostFunctor T) Stride sizes num_residuals parameters residuals slots :
  0 < Stride < 2 ^ 31 →
  0 < num_active_parameters (discovery_walk Stride sizes parameters slots)
    < 2 ^ 31 →
  let r := Evaluate f Stride sizes num_residuals parameters residuals
                    (Some slots) in
  returned_true r.1 = true →
  residual_writes r.2 = seqZ 0 num_residuals ∧
  scalar_calls r.2 = [] ∧
  ∃ strides, 1 ≤ strides ∧ jet_calls r.2 = replicate (Z.to_nat strides) true.
Proof.
  intros HS Hn r Htrue. subst r.
  destruct (Z.le_gt_cases num_residuals 0) as [Hres|Hres].
  { by rewrite check_fails in Htrue. }
  destruct (num_strides Stride (num_active_parameters
              (discovery_walk Stride sizes parameters slots)))
    as [strides|] eqn:Hstrides.
  2: { unfold Evaluate in Htrue.
       destruct (Z.ltb_spec 0 num_residuals); [|lia]. cbn [negb] in Htrue.
       rewrite bool_decide_eq_false_2, Hstrides in Htrue by lia. done. }
  pose proof (num_strides_pos _ _ _ HS Hn Hstrides) as Hpos.
  assert (num_active_parameters (discovery_walk Stride sizes parameters slots)
          ≠ 0) as Hactive by lia.
  destruct (Evaluate_passes f Stride sizes num_residuals parameters residuals
              slots strides Hres Hactive Hstrides)
    as (ok & res & jac & log & Heval & _ & Hscalar & _ & Hrest).
  rewrite Heval in *. cbn in Htrue. destruct ok; [|done].
  destruct Hrest as [Hcalls Hrest].
  rewrite bool_decide_eq_true_2 in Hrest by lia.
  destruct Hrest as [Hwrites _]. cbn.
  split; [done|]. split; [done|]. by exists strides.
Qed.

Lemma successful_call_writes_each_residual_once_witness :
  let r := Evaluate (instantiate squares) 1 [2; 2] 2 [[1; 2]; [3; 4]]%float
                    [7; 7]%float (Some [None; Some [9; 9; 9; 9]%float]) in
  residual_writes r.2 = seqZ 0 2 ∧
  scalar_calls r.2 = [] ∧
  ∃ strides, 1 ≤ strides ∧ jet_calls r.2 = replicate (Z.to_nat strides) true.
Proof.
  apply (successful_call_writes_each_residual_once (instantiate squares) 1
           [2; 2] 2 [[1; 2]; [3; 4]]%float [7; 7]%float
           [None; Some [9; 9; 9; 9]%float]).
  - lia.
  - vm_compute. split; reflexivity.
  - vm_compute. reflexivity.
Defined.

(** X3: with blocks of positive size, fewer than [2^24] active
    parameters and a stride below [2^24], a call that returns [true] has
    seeded every active position in exactly one pass, has written every
    pair of a residual and a column of a requested block exactly once,
    and nothing else, in [ceil (n / Stride)] passes. *)
Theorem every_active_position_once_below_2p24 {T} `{Scalar T}
    (f : CostFunctor T) Stride sizes num_residuals parameters residuals slots :
  0 < Stride < 2 ^ 24 →
  Forall (λ size, 0 < size) sizes →
  let n := num_active_parameters
             (discovery_walk Stride sizes parameters slots) in
  0 < n < 2 ^ 24 →
  let r := Evaluate f Stride sizes num_residuals parameters residuals
                    (Some slots) in
  returned_true r.1 = true →
  NoDup (seeded r.2) ∧ NoDup (written r.2) ∧
  (∀ p ij, index_space 0 sizes !! p = Some ij → active slots ij = true →
           Z.of_nat p ∈ seeded r.2) ∧
  (∀ i k j, (i, k, j) ∈ written r.2 ↔
            (i, j) ∈ index_space 0 sizes ∧ requested slots i = true ∧
            0 ≤ k < num_residuals) ∧
  jet_calls r.2 = replicate (Z.to_nat (ceil_div n Stride)) true.
Proof.
  intros HS Hpos n Hn r Htrue. subst r n.
  destruct (Z.le_gt_cases num_residuals 0) as [Hres|Hres].
  { by rewrite check_fails in Htrue. }
  destruct (Evaluate _ _ _ _ _ _ _) as [[| | |ok res jac] log] eqn:Heval;
    try done.
  destruct ok; [|done]. cbn [fst snd].
  by apply (below_2p24_cover_once f Stride sizes num_residuals parameters
              residuals slots res jac log).
Qed.

Lemma every_active_position_once_below_2p24_witness :
  let r := Evaluate (instantiate squares) 1 [2; 1; 2] 2
                    [[1; 2]; [5]; [3; 4]]%float [7; 7]%float
                    (Some [Some [9; 9; 9; 9]; None; Some [9; 9; 9; 9]]%float) in
  NoDup (seeded r.2) ∧ NoDup (written r.2) ∧
  (∀ p ij, index_space 0 [2; 1; 2] !! p = Some ij →
           active [Some [9; 9; 9; 9]; None; Some [9; 9; 9; 9]]%float ij = true →
           Z.of_nat p ∈ seeded r.2) ∧
  (∀ i k j, (i, k, j) ∈ written r.2 ↔
            (i, j) ∈ index_space 0 [2; 1; 2] ∧
            requested [Some [9; 9; 9; 9]; None; Some [9; 9; 9; 9]]%float i = true ∧
            0 ≤ k < 2) ∧
  jet_calls r.2 = replicate (Z.to_nat (ceil_div 4 1)) true.
Proof.
  apply (every_active_position_once_below_2p24 (instantiate squares) 1
           [2; 1; 2] 2 [[1; 2]; [5]; [3; 4]]%float [7; 7]%float
           [Some [9; 9; 9; 9]; None; Some [9; 9; 9; 9]]%float).
  - lia.
  - repeat constructor.
  - vm_compute. split; reflexivity.
  - vm_compute. reflexivity.
Defined.

(** X4: for a functor that keeps its contract (its two instantiations
    agree on the values, and its dual numbers carry the partial
    derivatives of the seeded positions), blocks of positive size,
    buffers of the declared sizes, fewer than [2^24] active parameters and
    a stride below [2^24], [Evaluate] returns [true], the residual buffer
    holds the value of the functor and the entry [k * block_size + j] of
    every requested buffer holds the partial derivative of residual [k]
    with respect to parameter [j] of its block. *)
Theorem jacobian_holds_partial_derivatives {T} `{Scalar T} (f : CostFunctor T)
    value partial Stride sizes num_residuals parameters residuals r slots :
  consistent f num_residuals value →
  differentiates f num_residuals partial →
  well_formed sizes parameters →
  value parameters = Some r →
  Forall (λ size, 0 < size) sizes →
  0 < num_residuals →
  length residuals = Z.to_nat num_residuals →
  buffers_sized sizes num_residuals slots →
  0 < count_active (active slots) (index_space 0 sizes) < 2 ^ 24 →
  0 < Stride < 2 ^ 24 →
  ∃ jac log,
    Evaluate f Stride sizes num_residuals parameters residuals (Some slots)
      = (Returned true r (Some jac), log) ∧
    shape jac = shape slots ∧
    ∀ p i j b k,
      index_space 0 sizes !! p = Some (i, j) →
      jac !! i = Some (Some b) → 0 ≤ k < num_residuals →
      b !! Z.to_nat (k * get 0 sizes (Z.of_nat i) + j)
        = Some (partial parameters (Z.to_nat k) p).
Proof.
  intros Hf Hd Hwf Hvalue Hpos Hres Hlen Hsized Hn HS.
  assert (num_active_parameters (discovery_walk Stride sizes parameters slots)
          = count_active (active slots) (index_space 0 sizes)) as Hcount.
  { unfold discovery_walk. rewrite discover_active; [done|].
    eapply Forall_impl; [exact Hpos|]. intros; simpl in *; lia. }
  pose proof (ceil_div_spec (count_active (active slots) (index_space 0 sizes))
                            Stride ltac:(lia)) as Hk.
  apply (Evaluate_jacobian f value partial sizes num_residuals parameters
           residuals r slots Hf Hd Hwf Hvalue Hpos Hres Hlen Hsized Stride
           (ceil_div (count_active (active slots) (index_space 0 sizes)) Stride));
    cbn zeta; rewrite ?Hcount; [lia|lia| |lia].
  apply num_strides_exact; lia.
Qed.

Lemma jacobian_holds_partial_derivatives_witness :
  ∃ jac log,
    Evaluate (instantiate squares) 1 [2; 2] 2 [[1; 2]; [3; 4]]%float
             [7; 7]%float (Some [None; Some [9; 9; 9; 9]%float])
      = (Returned true [10; 20]%float (Some jac), log) ∧
    shape jac = shape [None; Some [9; 9; 9; 9]%float] ∧
    ∀ p i j b k,
      index_space 0 [2; 2] !! p = Some (i, j) →
      jac !! i = Some (Some b) → 0 ≤ k < 2 →
      b !! Z.to_nat (k * get 0 [2; 2] (Z.of_nat i) + j)
        = Some (squares_partial [[1; 2]; [3; 4]]%float (Z.to_nat k) p).
Proof.
  apply (jacobian_holds_partial_derivatives (instantiate squares) squares_value
           squares_partial 1 [2; 2] 2 [[1; 2]; [3; 4]]%float [7; 7]%float
           [10; 20]%float [None; Some [9; 9; 9; 9]%float]).
  - apply squares_consistent.
  - apply squares_differentiates.
  - repeat constructor.
  - reflexivity.
  - repeat constructor.
  - lia.
  - reflexivity.
  - intros [|[|i]] b Hb; simplify_eq/=; reflexivity.
  - vm_compute. split; reflexivity.
  - lia.
Defined.

(** X5: under the same conditions the stride does not matter: two
    instantiations with strides below [2^24] return the same residuals and
    the same Jacobian buffers, for every request pattern. *)
Theorem same_result_for_every_stride_below_2p24 {T} `{Scalar T}
    (f : CostFunctor T) value partial sizes num_residuals parameters residuals r
    slots Stride1 Stride2 :
  consistent f num_residuals value →
  differentiates f num_residuals partial →
  well_formed sizes parameters →
  value parameters = Some r →
  Forall (λ size, 0 < size) sizes →
  0 < num_residuals →
  length residuals = Z.to_nat num_residuals →
  length slots = length sizes →
  buffers_sized sizes num_residuals slots →
  count_active (active slots) (index_space 0 sizes) < 2 ^ 24 →
  0 < Stride1 < 2 ^ 24 → 0 < Stride2 < 2 ^ 24 →
  (Evaluate f Stride1 sizes num_residuals parameters residuals (Some slots)).1
  = (Evaluate f Stride2 sizes num_residuals parameters residuals (Some slots)).1.
Proof.
  intros Hf Hd Hwf Hvalue Hpos Hres Hlen Hslots Hsized Hn H1 H2.
  by apply (stride_independent_below_2p24 f value partial sizes num_residuals
              parameters residuals r slots).
Qed.

Lemma same_result_for_every_stride_below_2p24_witness :
  (Evaluate (instantiate squares) 1 [2; 2] 2 [[1; 2]; [3; 4]]%float
            [7; 7]%float (Some [None; Some [9; 9; 9; 9]%float])).1
  = (Evaluate (instantiate squares) 4 [2; 2] 2 [[1; 2]; [3; 4]]%float
              [7; 7]%float (Some [None; Some [9; 9; 9; 9]%float])).1.
Proof.
  apply (same_result_for_every_stride_below_2p24 (instantiate squares)
           squares_value squares_partial [2; 2] 2 [[1; 2]; [3; 4]]%float
           [7; 7]%float [10; 20]%float [None; Some [9; 9; 9; 9]%float] 1 4).
  - apply squares_consistent.
  - apply squares_differentiates.
  - repeat constructor.
  - reflexivity.
  - repeat constructor.
  - lia.
  - reflexivity.
  - reflexivity.
  - intros [|[|i]] b Hb; simplify_eq/=; reflexivity.
  - vm_compute. reflexivity.
  - lia.
  - lia.
Defined.

(** X6: for blocks of positive size the discovery loop of lines 168-187,
    closed by line 203, records the first position of every maximal run of
    active positions, followed by the total parameter count; it counts
    the active positions, and it points [jet_parameters[i]] at the
    offset of block [i]. *)
Theorem discovery_records_section_starts {T} `{Scalar T} Stride sizes
    (parameters : list (list T)) (slots : list (option (list T))) :
  Forall (λ size, 0 < size) sizes →
  let D := discovery_walk Stride sizes parameters slots in
  section_starts D
    = run_starts false 0 (active slots <$> index_space 0 sizes) ∧
  num_active_parameters D = count_active (active slots) (index_space 0 sizes) ∧
  jet_parameters D = block_offsets 0 sizes.
Proof.
  intros Hpos D. subst D. unfold section_starts, discovery_walk. split_and!.
  - by rewrite (discover_sections parameters slots sizes 0 _ Hpos).
  - rewrite discover_active; [done|].
    eapply Forall_impl; [exact Hpos|]. intros; simpl in *; lia.
  - by rewrite discover_jet_parameters.
Qed.

Lemma discovery_records_section_starts_witness :
  let D := discovery_walk 4 [2; 3; 2; 1] [[1; 2]; [3; 4; 5]; [6; 7]; [8]]%float
             [Some []; None; Some []; Some []] in
  section_starts D
    = run_starts false 0
        (active [Some []; None; Some []; Some ([] : list float)]
           <$> index_space 0 [2; 3; 2; 1]) ∧
  num_active_parameters D
    = count_active (active [Some []; None; Some []; Some ([] : list float)])
                   (index_space 0 [2; 3; 2; 1]) ∧
  jet_parameters D = block_offsets 0 [2; 3; 2; 1].
Proof.
  apply (discovery_records_section_starts 4 [2; 3; 2; 1]
           [[1; 2]; [3; 4; 5]; [6; 7]; [8]]%float
           [Some []; None; Some []; Some []]).
  repeat constructor.
Defined.

Section FailedPass.
Context {T : Type} `{Scalar T}.
Variable functor_ : CostFunctor T.
Variables (Stride : Z) (sizes : list Z) (num_residuals : Z).
Variables (starts jet_params : list Z) (strides : Z).
Variable slots : list (option (list T)).
Hypothesis Stride_nonneg : 0 ≤ Stride.

Local Abbreviation act := (active slots).
Local Abbreviation passes :=
  (run_passes functor_ Stride sizes num_residuals starts jet_params strides).

(** When a pass fails, the passes before it have written the columns of
    the positions they handled, and nothing else has been written. *)
Lemma run_passes_failure (len : nat) :
  ∀ t0 (s : pass_state T) xs1 xs2 res jac log,
  between_passes sizes starts slots xs1 xs2 s →
  passes (seqZ t0 (Z.of_nat len)) s = (Returned false res jac, log) →
  ∃ (k : nat) ys zs,
    xs2 = ys ++ zs ∧
    count_active act ys = Z.min (Z.of_nat k * Stride) (count_active act xs2) ∧
    jet_calls log = jet_calls (ps_log s) ++ replicate k true ++ [false] ∧
    written log =
      written (ps_log s) ++
      columns_of num_residuals (hits_of act (Z.of_nat (length xs1)) 0 ys).
Proof.
  induction len as [|len IH]; intros t0 s xs1 xs2 res jac log Hinv Hrun.
  { cbn in Hrun. unfold finish in Hrun. by simplify_eq. }
  rewrite seqZ_cons in Hrun by lia. cbn [run_passes] in Hrun.
  replace (Z.pred (Z.of_nat (S len))) with (Z.of_nat len) in Hrun by lia.
  destruct (run_pass_spec functor_ Stride sizes num_residuals starts jet_params
              strides slots Stride_nonneg t0 s xs1 xs2 Hinv)
    as (ys & zs & sd & Hxs & Hcle & Hend & _ & _ & Hslog & Hcall).
  cbn zeta in Hcall.
  destruct (seed_events_projections t0
              (hits_of act (Z.of_nat (length xs1)) 0 ys))
    as (S1 & S2 & S3 & S4 & S5).
  destruct (call_jet _ _ _ _) as [[] outputs]; cbn [fst snd] in Hcall.
  2: { (* this pass fails: it has seeded and written nothing *)
    rewrite Hcall in Hrun. injection Hrun as <- <- <-.
    exists 0%nat, [], xs2. cbn [replicate app hits_of columns_of].
    rewrite count_active_nil, Hslog.
    pose proof (count_active_nonneg act xs2).
    split_and!; [done|lia| |].
    - rewrite !jet_calls_app, S3. cbn. by rewrite app_nil_r.
    - rewrite !written_app, S2. cbn. by rewrite !app_nil_r. }
  destruct Hcall as (sc & _ & Hclog & Hpass & Hinv'). rewrite Hpass in Hrun.
  match type of Hpass with _ = inr ?s1 => set (s' := s1) in * end.
  destruct (IH (Z.succ t0) s' (xs1 ++ ys) zs res jac log Hinv' Hrun)
    as (k & ys' & zs' & -> & Hcount & Hcalls & Hwritten).
  pose proof (pass_log_projections (ps_log s) t0
                (hits_of act (Z.of_nat (length xs1)) 0 ys) num_residuals
                (bool_decide (t0 = strides - 1))) as Hproj.
  cbn zeta in Hproj. rewrite <- Hslog, <- Hclog in Hproj.
  change (if bool_decide (t0 = strides - 1)
          then scatter_log sc ++ (EvResidualWrite <$> seqZ 0 num_residuals)
          else scatter_log sc) with (ps_log s') in Hproj.
  destruct Hproj as (_ & P2 & P3 & _ & _).
  subst xs2. exists (S k), (ys ++ ys'), zs'. split_and!.
  - by rewrite app_assoc.
  - rewrite !count_active_app in *.
    pose proof (count_active_nonneg act ys).
    pose proof (count_active_nonneg act ys').
    pose proof (count_active_nonneg act zs').
    destruct Hend as [Hend|Hend]; [nia|].
    apply (f_equal (count_active act)) in Hend.
    rewrite count_active_app, count_active_nil in Hend. nia.
  - rewrite Hcalls, P3, <- !app_assoc. done.
  - rewrite Hwritten, P2, <- app_assoc. f_equal.
    rewrite hits_of_app. unfold columns_of. rewrite bind_app. f_equal.
    apply (columns_of_hits_shift num_residuals act).
Qed.
End FailedPass.

(** X7: when a dual-number invocation returns [false] in pass [k] (blocks
    of positive size), the [k] passes before it have each succeeded and
    have written the Jacobian columns of the first [k * Stride] active
    positions: the caller's Jacobian buffers are partly overwritten
    although the call fails, and exactly those columns are. *)
Theorem failed_pass_keeps_earlier_columns {T} `{Scalar T} (f : CostFunctor T)
    Stride sizes num_residuals parameters residuals slots :
  0 ≤ Stride →
  Forall (λ size, 0 < size) sizes →
  let r := Evaluate f Stride sizes num_residuals parameters residuals
                    (Some slots) in
  false ∈ jet_calls r.2 →
  ∃ (k : nat) ys zs,
    index_space 0 sizes = ys ++ zs ∧
    count_active (active slots) ys
      = Z.min (Z.of_nat k * Stride)
              (count_active (active slots) (index_space 0 sizes)) ∧
    jet_calls r.2 = replicate k true ++ [false] ∧
    written r.2 = columns_of num_residuals (hits_of (active slots) 0 0 ys).
Proof.
  intros HS Hpos r Hfalse. subst r.
  destruct (Z.le_gt_cases num_residuals 0) as [Hres|Hres].
  { rewrite check_fails in Hfalse by done.
    exfalso. exact (not_elem_of_nil _ Hfalse). }
  unfold Evaluate in *.
  destruct (Z.ltb_spec 0 num_residuals); [|lia]. cbn [negb] in *.
  case_bool_decide as Hactive.
  { destruct (direct_events f parameters residuals (Some slots))
      as (ok & res & E & _).
    rewrite E in Hfalse. exfalso. exact (not_elem_of_nil _ Hfalse). }
  destruct (num_strides Stride _) as [strides|] eqn:Hstrides.
  2: { exfalso. exact (not_elem_of_nil _ Hfalse). }
  set (D := discovery_walk Stride sizes parameters slots) in *.
  set (s0 := mkPassState (input_jets D)
               (replicate (Z.to_nat num_residuals) (zero_jet Stride))
               0 0 residuals slots []) in *.
  destruct (Z.le_gt_cases strides 0) as [Hneg|Hposs].
  { replace (seqZ 0 strides) with (@nil Z) in Hfalse
      by (unfold seqZ; by replace (Z.to_nat strides) with 0%nat by lia).
    exfalso. exact (not_elem_of_nil _ Hfalse). }
  rewrite seqZ_to_nat in *.
  destruct (run_passes_spec f Stride sizes num_residuals (section_starts D)
              (jet_parameters D) strides slots HS (Z.to_nat strides) 0 s0
              [] (index_space 0 sizes)
              (discovery_between_passes Stride sizes parameters residuals slots
                 _ _ Hpos))
    as (ok & res & jac & log & Hrun & _ & _ & Hrest); [lia|].
  destruct ok.
  { destruct Hrest as (ys & zs & _ & _ & _ & _ & Hcalls & _).
    rewrite Hrun in Hfalse. cbn [snd] in Hfalse. rewrite Hcalls in Hfalse.
    subst s0. cbn [ps_log app] in Hfalse.
    change (jet_calls []) with (@nil bool) in Hfalse.
    exfalso. by destruct (proj1 (elem_of_replicate _ _ _) Hfalse). }
  destruct (run_passes_failure f Stride sizes num_residuals (section_starts D)
              (jet_parameters D) strides slots HS (Z.to_nat strides) 0 s0
              [] (index_space 0 sizes) res (Some jac) log
              (discovery_between_passes Stride sizes parameters residuals slots
                 _ _ Hpos) Hrun)
    as (k & ys & zs & Hsplit & Hcount & Hcalls & Hwritten).
  rewrite Hrun. exists k, ys, zs. by split_and!.
Qed.

Lemma failed_pass_keeps_earlier_columns_witness :
  let r := Evaluate picky 2 [2; 2] 2 [[1; 2]; [3; 4]]%float [7; 7]%float
                    (Some [Some [9; 9; 9; 9]; Some [9; 9; 9; 9]]%float) in
  ∃ (k : nat) ys zs,
    index_space 0 [2; 2] = ys ++ zs ∧
    count_active (active [Some [9; 9; 9; 9]; Some [9; 9; 9; 9]]%float) ys
      = Z.min (Z.of_nat k * 2)
              (count_active (active [Some [9; 9; 9; 9]; Some [9; 9; 9; 9]]%float)
                            (index_space 0 [2; 2])) ∧
    jet_calls r.2 = replicate k true ++ [false] ∧
    written r.2
      = columns_of 2
          (hits_of (active [Some [9; 9; 9; 9]; Some [9; 9; 9; 9]]%float) 0 0 ys).
Proof.
  apply (failed_pass_keeps_earlier_columns picky 2 [2; 2] 2
           [[1; 2]; [3; 4]]%float [7; 7]%float
           [Some [9; 9; 9; 9]; Some [9; 9; 9; 9]]%float).
  - lia.
  - repeat constructor.
  - vm_compute. apply list_elem_of_In. simpl. tauto.
Defined.
(** ** [array_utils.cc]: validity of arrays *)

Module ArrayUtilsFacts.
Import ArrayUtils.
Section Sentinel.
Variable kImpossibleValue : float.

(** The sentinel fails the test whatever its value: a value that is
    finite is a number, and a number compares equal to itself. *)
Lemma invalid_kImpossibleValue :
  invalid_value kImpossibleValue kImpossibleValue = true.
Proof.
  unfold ArrayUtils.invalid_value, PrimFloat.is_finite, PrimFloat.is_nan.
  destruct (PrimFloat.eqb kImpossibleValue kImpossibleValue); [|done].
  apply orb_true_r.
Qed.

Lemma IsArrayValid_loop_agrees size x indices :
  Forall (λ i, i < size) indices →
  IsArrayValid_loop kImpossibleValue x indices
    = (λ r, bool_decide (r = size))
        <$> FindInvalidValue_loop kImpossibleValue size x indices.
Proof.
  induction 1 as [|i indices Hi _ IH]; cbn.
  { by rewrite bool_decide_eq_true_2. }
  destruct (x !! Z.to_nat i) as [v|]; cbn; [|done].
  destruct (invalid_value kImpossibleValue v); [|done].
  cbn. by rewrite bool_decide_eq_false_2 by lia.
Qed.

Lemma FindInvalidValue_loop_spec size x n : ∀ i,
  0 ≤ i → (Z.to_nat i + n ≤ length x)%nat → i + Z.of_nat n = size →
  ∃ r,
    FindInvalidValue_loop kImpossibleValue size x (seqZ i (Z.of_nat n))
    = Some r ∧
    i ≤ r ≤ size ∧
    (∀ j v, i ≤ j < r → x !! Z.to_nat j = Some v →
            invalid_value kImpossibleValue v = false) ∧
    (r ≠ size →
     ∃ v, x !! Z.to_nat r = Some v ∧ invalid_value kImpossibleValue v = true).
Proof.
  induction n as [|n IH]; intros i Hi Hlen Hsize.
  { exists size. cbn. split_and!; [done|lia..| |done]. intros j v ?. lia. }
  rewrite seqZ_cons by lia. cbn [ArrayUtils.FindInvalidValue_loop].
  replace (Z.pred (Z.of_nat (S n))) with (Z.of_nat n) by lia.
  destruct (lookup_lt_is_Some_2 x (Z.to_nat i)) as [v Hv]; [lia|].
  rewrite Hv. cbn [mbind option_bind].
  destruct (invalid_value kImpossibleValue v) eqn:Hinvalid.
  - exists i. split_and!; [done|lia..| |by exists v].
    intros j w ?. lia.
  - destruct (IH (Z.succ i)) as (r & -> & Hr & Hbefore & Hat); [lia..|].
    exists r. split_and!; [done|lia..| |done].
    intros j w Hj Hw. destruct (decide (j = i)) as [->|Hne].
    + congruence.
    + apply (Hbefore j w); [lia|done].
Qed.
End Sentinel.
End ArrayUtilsFacts.

(** X8: [IsArrayValid] and [FindInvalidValue] agree on every array and
    size, null pointers and undefined reads included: the array is valid
    exactly when the index of the first invalid value is [size]. *)
Theorem IsArrayValid_iff_none_found kImpossibleValue size x :
  ArrayUtils.IsArrayValid kImpossibleValue size x
  = (λ r, bool_decide (r = size))
      <$> ArrayUtils.FindInvalidValue kImpossibleValue size x.
Proof.
  destruct x as [a|]; cbn; [|by rewrite bool_decide_eq_true_2].
  apply ArrayUtilsFacts.IsArrayValid_loop_agrees.
  apply Forall_forall. intros i Hi%elem_of_seqZ. lia.
Qed.

(** X9: on an array of at least [size] values [FindInvalidValue] returns
    [size] or the index of an invalid value (not finite, or the
    sentinel) below [size]; every value before the returned index is
    valid.  For a null pointer it returns [size]. *)
Theorem FindInvalidValue_is_first_invalid kImpossibleValue size
    (a : list float) :
  size ≤ Z.of_nat (length a) →
  ArrayUtils.FindInvalidValue kImpossibleValue size None = Some size ∧
  ∃ r,
    ArrayUtils.FindInvalidValue kImpossibleValue size (Some a) = Some r ∧
    (r = size ∨ 0 ≤ r < size) ∧
    (∀ j v, 0 ≤ j < r → a !! Z.to_nat j = Some v →
            ArrayUtils.invalid_value kImpossibleValue v = false) ∧
    (r ≠ size →
     ∃ v, a !! Z.to_nat r = Some v ∧
          ArrayUtils.invalid_value kImpossibleValue v = true).
Proof.
  intros Hsize. split; [done|]. cbn.
  destruct (Z.le_gt_cases size 0) as [Hneg|Hpos].
  { exists size.
    replace (seqZ 0 size) with (@nil Z)
      by (unfold seqZ; by replace (Z.to_nat size) with 0%nat by lia).
    split_and!; [done|by left| |done]. intros j v ?. lia. }
  rewrite (seqZ_to_nat 0 size).
  destruct (ArrayUtilsFacts.FindInvalidValue_loop_spec kImpossibleValue
              size a (Z.to_nat size) 0)
    as (r & Hr & Hrange & Hbefore & Hat); [lia..|].
  exists r. split_and!; [done|lia|done|done].
Qed.

Lemma FindInvalidValue_is_first_invalid_witness :
  ArrayUtils.FindInvalidValue 0x1.2aa4f4a405be2p+1003%float 3 None = Some 3 ∧
  ∃ r,
    ArrayUtils.FindInvalidValue 0x1.2aa4f4a405be2p+1003%float 3
      (Some [1; infinity; nan; 2]%float) = Some r ∧
    (r = 3 ∨ 0 ≤ r < 3) ∧
    (∀ j v, 0 ≤ j < r → [1; infinity; nan; 2]%float !! Z.to_nat j = Some v →
            ArrayUtils.invalid_value 0x1.2aa4f4a405be2p+1003%float v = false) ∧
    (r ≠ 3 →
     ∃ v, [1; infinity; nan; 2]%float !! Z.to_nat r = Some v ∧
          ArrayUtils.invalid_value 0x1.2aa4f4a405be2p+1003%float v = true).
Proof.
  apply (FindInvalidValue_is_first_invalid 0x1.2aa4f4a405be2p+1003%float
           3 [1; infinity; nan; 2]%float).
  simpl. lia.
Defined.

(** ** [array_utils.cc]: [InvalidateArray] and [AppendArrayToString] *)

Module InvalidateFacts.
Import ArrayUtils.
Import String.StringSyntax.
Local Delimit Scope string_scope with string.

Lemma string_append_assoc (s1 s2 s3 : String.string) :
  String.append (String.append s1 s2) s3
  = String.append s1 (String.append s2 s3).
Proof.
  induction s1 as [|c s1 IH]; [done|].
  change (String.String c (String.append (String.append s1 s2) s3)
          = String.String c (String.append s1 (String.append s2 s3))).
  by rewrite IH.
Qed.

Lemma string_append_nil (s : String.string) : String.append s "" = s.
Proof.
  induction s as [|c s IH]; [done|].
  change (String.String c (String.append s "") = String.String c s).
  by rewrite IH.
Qed.

Lemma InvalidateArray_loop (k : float) n : ∀ i (a : list float),
  0 ≤ i → (Z.to_nat i + n ≤ length a)%nat →
  for_each (λ i, store i k) (seqZ i (Z.of_nat n)) a
    = Some (take (Z.to_nat i) a ++ replicate n k ++ drop (Z.to_nat i + n) a).
Proof.
  induction n as [|n IH]; intros i a Hi Hlen.
  { cbn. by rewrite Nat.add_0_r, take_drop. }
  rewrite seqZ_cons by lia. cbn [for_each]. cbv beta.
  replace (Z.pred (Z.of_nat (S n))) with (Z.of_nat n) by lia.
  assert (store i k a = Some (<[Z.to_nat i := k]> a))
    as -> by (unfold store; by rewrite decide_True by lia).
  cbn [mbind option_bind].
  rewrite IH by (rewrite ?length_insert; lia).
  f_equal.
  replace (Z.to_nat (Z.succ i)) with (S (Z.to_nat i)) by lia.
  destruct (lookup_lt_is_Some_2 a (Z.to_nat i)) as [v Hv]; [lia|].
  rewrite (take_S_r _ _ k) by (apply list_lookup_insert_eq; lia).
  rewrite take_insert_ge by lia.
  rewrite drop_insert_lt by lia.
  rewrite <- app_assoc. cbn [app replicate].
  by replace (S (Z.to_nat i) + n)%nat with (Z.to_nat i + S n)%nat by lia.
Qed.

Lemma InvalidateArray_result (k : float) size (a : list float) :
  size ≤ Z.of_nat (length a) →
  InvalidateArray k size (Some a)
  = Some (Some (replicate (Z.to_nat size) k ++ drop (Z.to_nat size) a)).
Proof.
  intros Hsize. unfold InvalidateArray.
  rewrite (seqZ_to_nat 0 size).
  by rewrite InvalidateArray_loop by lia.
Qed.

Lemma Append_loop k format_12g x text n : ∀ i result,
  (∀ j r, i ≤ j < i + Z.of_nat n →
     AppendArrayToString_body k format_12g x j r
     = Some (String.append r text)) →
  for_each (AppendArrayToString_body k format_12g x) (seqZ i (Z.of_nat n))
    result
    = Some (String.append result (copies n text)).
Proof.
  induction n as [|n IH]; intros i result Hbody.
  { cbn. by rewrite string_append_nil. }
  rewrite seqZ_cons by lia. cbn [for_each].
  replace (Z.pred (Z.of_nat (S n))) with (Z.of_nat n) by lia.
  rewrite Hbody by lia. cbn [mbind option_bind].
  rewrite IH by (intros j r ?; apply Hbody; lia).
  cbn [copies]. by rewrite string_append_assoc.
Qed.
End InvalidateFacts.

(** X10: on an array of at least [size] values [InvalidateArray] stores
    the sentinel in the first [size] entries and leaves every later
    entry, and the length, as they were; a null pointer stays null. *)
Theorem InvalidateArray_overwrites_prefix kImpossibleValue size
    (a : list float) :
  size ≤ Z.of_nat (length a) →
  ArrayUtils.InvalidateArray kImpossibleValue size None = Some None ∧
  ArrayUtils.InvalidateArray kImpossibleValue size (Some a)
  = Some (Some (replicate (Z.to_nat size) kImpossibleValue
                ++ drop (Z.to_nat size) a)).
Proof.
  intros Hsize. split; [done|].
  by apply InvalidateFacts.InvalidateArray_result.
Qed.

Lemma InvalidateArray_overwrites_prefix_witness :
  ArrayUtils.InvalidateArray 7%float 2 None = Some None ∧
  ArrayUtils.InvalidateArray 7%float 2 (Some [1; 2; 3]%float)
  = Some (Some [7; 7; 3]%float).
Proof.
  apply (InvalidateArray_overwrites_prefix 7%float 2 [1; 2; 3]%float).
  cbn. lia.
Defined.

(** X11: an array of [size > 0] values that [InvalidateArray] has gone
    over is reported as not valid by [IsArrayValid], and
    [FindInvalidValue] finds its first invalid value at index 0,
    whatever the array held before and whatever value the sentinel
    has. *)
Theorem invalidated_array_is_not_valid kImpossibleValue size
    (a : list float) :
  0 < size ≤ Z.of_nat (length a) →
  ∃ a',
    ArrayUtils.InvalidateArray kImpossibleValue size (Some a)
    = Some (Some a') ∧
    ArrayUtils.IsArrayValid kImpossibleValue size (Some a') = Some false ∧
    ArrayUtils.FindInvalidValue kImpossibleValue size (Some a') = Some 0.
Proof.
  intros Hsize. eexists.
  split; [apply InvalidateFacts.InvalidateArray_result; lia|].
  cbn [ArrayUtils.IsArrayValid ArrayUtils.FindInvalidValue].
  rewrite seqZ_cons by lia.
  destruct (Z.to_nat size) as [|n] eqn:Hn; [lia|].
  cbn [ArrayUtils.IsArrayValid_loop ArrayUtils.FindInvalidValue_loop
       replicate app].
  change (Z.to_nat 0) with 0%nat.
  repeat match goal with
  | |- context [(?v :: ?l) !! 0%nat] =>
      change ((v :: l) !! 0%nat) with (Some v)
  end.
  cbn [mbind option_bind].
  by rewrite ArrayUtilsFacts.invalid_kImpossibleValue.
Qed.

Lemma invalidated_array_is_not_valid_witness :
  ∃ a',
    ArrayUtils.InvalidateArray 7%float 2 (Some [1; 2; 3]%float)
    = Some (Some a') ∧
    ArrayUtils.IsArrayValid 7%float 2 (Some a') = Some false ∧
    ArrayUtils.FindInvalidValue 7%float 2 (Some a') = Some 0.
Proof.
  apply (invalidated_array_is_not_valid 7%float 2 [1; 2; 3]%float).
  cbn. lia.
Defined.

Section ArrayText.
Import String.StringSyntax.
Local Delimit Scope string_scope with string.

(** X12: for a null pointer [AppendArrayToString] appends the text
    [Not Computed  ] once per entry, [size] times in all, to the
    string it is given, and nothing when [size] is not positive. *)
Theorem AppendArrayToString_null kImpossibleValue format_12g size result :
  ArrayUtils.AppendArrayToString kImpossibleValue format_12g size None result
  = Some (String.append result
            (ArrayUtils.copies (Z.to_nat size) "Not Computed  "%string)).
Proof.
  unfold ArrayUtils.AppendArrayToString.
  rewrite (seqZ_to_nat 0 size).
  by apply InvalidateFacts.Append_loop.
Qed.

(** X13: when the sentinel is a number (it compares equal to itself),
    [AppendArrayToString] prints an array of at least [size] values
    that [InvalidateArray] has gone over as [Uninitialized ] once for
    each of the [size] entries, and never formats a number. *)
Theorem AppendArrayToString_after_invalidate kImpossibleValue format_12g
    size a result :
  PrimFloat.eqb kImpossibleValue kImpossibleValue = true →
  size ≤ Z.of_nat (length a) →
  ∃ a',
    ArrayUtils.InvalidateArray kImpossibleValue size (Some a)
    = Some (Some a') ∧
    ArrayUtils.AppendArrayToString kImpossibleValue format_12g size (Some a')
      result
    = Some (String.append result
              (ArrayUtils.copies (Z.to_nat size) "Uninitialized "%string)).
Proof.
  intros Hnumber Hsize. eexists.
  split; [by apply InvalidateFacts.InvalidateArray_result|].
  unfold ArrayUtils.AppendArrayToString.
  rewrite (seqZ_to_nat 0 size).
  apply InvalidateFacts.Append_loop. intros j r Hj.
  unfold ArrayUtils.AppendArrayToString_body.
  rewrite lookup_app_l by (rewrite length_replicate; lia).
  rewrite (lookup_replicate_2 _ _ (Z.to_nat j)) by lia.
  cbn [mbind option_bind]. by rewrite Hnumber.
Qed.

Lemma AppendArrayToString_after_invalidate_witness :
  ∃ a',
    ArrayUtils.InvalidateArray 7%float 2 (Some [1; 2; 3]%float)
    = Some (Some a') ∧
    ArrayUtils.AppendArrayToString 7%float (λ _, "?"%string) 2 (Some a')
      "J: "%string
    = Some "J: Uninitialized Uninitialized "%string.
Proof.
  apply (AppendArrayToString_after_invalidate
           7%float (λ _, "?"%string) 2 [1; 2; 3]%float "J: "%string).
  - vm_compute. reflexivity.
  - cbn. lia.
Defined.
End ArrayText.

(** ** [array_utils.cc]: [MapValuesToContiguousRange] *)

Module MapValuesFacts.
Import ArrayUtils.

Lemma MapValues_loop u k : ∀ i (a : list Z),
  0 ≤ i → (Z.to_nat i + k ≤ length a)%nat →
  for_each (MapValues_body u) (seqZ i (Z.of_nat k)) a
    = Some (take (Z.to_nat i) a
            ++ ((λ v, to_int (lower_bound u v))
                  <$> take k (drop (Z.to_nat i) a))
            ++ drop (Z.to_nat i + k) a).
Proof.
  induction k as [|k IH]; intros i a Hi Hlen.
  { rewrite Nat.add_0_r, take_0. cbn. by rewrite take_drop. }
  rewrite seqZ_cons by lia. cbn [for_each].
  replace (Z.pred (Z.of_nat (S k))) with (Z.of_nat k) by lia.
  destruct (lookup_lt_is_Some_2 a (Z.to_nat i)) as [v Hv]; [lia|].
  assert (MapValues_body u i a
          = Some (<[Z.to_nat i := to_int (lower_bound u v)]> a)) as ->.
  { unfold MapValues_body, store. rewrite Hv. cbn [mbind option_bind].
    by rewrite decide_True by lia. }
  cbn [mbind option_bind].
  rewrite IH by (rewrite ?length_insert; lia).
  f_equal.
  replace (Z.to_nat (Z.succ i)) with (S (Z.to_nat i)) by lia.
  rewrite (take_S_r _ _ (to_int (lower_bound u v)))
    by (apply list_lookup_insert_eq; lia).
  rewrite take_insert_ge by lia.
  rewrite !drop_insert_lt by lia.
  rewrite (drop_S a v (Z.to_nat i)) by done.
  rewrite <- app_assoc. cbn [app take fmap list_fmap].
  by replace (S (Z.to_nat i) + k)%nat with (Z.to_nat i + S k)%nat by lia.
Qed.

Lemma MapValues_result size (a : list Z) :
  0 ≤ size ≤ Z.of_nat (length a) →
  MapValuesToContiguousRange size a
  = Some (((λ v, to_int (lower_bound
                           (unique (sort (take (Z.to_nat size) a))) v))
             <$> take (Z.to_nat size) a)
          ++ drop (Z.to_nat size) a).
Proof.
  intros Hsize. unfold MapValuesToContiguousRange.
  rewrite decide_True by done. cbv zeta.
  rewrite (seqZ_to_nat 0 size).
  rewrite MapValues_loop by lia.
  change (Z.to_nat 0) with 0%nat. by rewrite take_0, drop_0.
Qed.

Lemma sort_sorted l : StronglySorted Z.le (sort l).
Proof. apply StronglySorted_merge_sort; apply _. Qed.

Lemma elem_of_sort l x : x ∈ sort l ↔ x ∈ l.
Proof. unfold sort. by rewrite merge_sort_Permutation. Qed.

Lemma unique_after_spec l : ∀ p,
  StronglySorted Z.le l → Forall (λ x, p ≤ x) l →
  StronglySorted Z.lt (unique_after p l) ∧
  Forall (λ x, p < x) (unique_after p l) ∧
  ∀ x, x ∈ unique_after p l ↔ x ∈ l ∧ x ≠ p.
Proof.
  induction l as [|y l IH]; intros p Hsorted Hp; cbn [unique_after].
  { split_and!; [constructor..|]. intros x. rewrite elem_of_nil. tauto. }
  apply StronglySorted_inv in Hsorted as [Hsorted Hy].
  apply Forall_cons in Hp as [Hpy Hp].
  destruct (decide (y = p)) as [->|Hne].
  - destruct (IH p Hsorted Hp) as (Hs & Hgt & Hel).
    split_and!; [done..|]. intros x. rewrite Hel, elem_of_cons. intuition congruence.
  - destruct (IH y Hsorted Hy) as (Hs & Hgt & Hel).
    split_and!.
    + by constructor.
    + constructor; [lia|]. eapply Forall_impl; [exact Hgt|].
      intros x ?. cbn in *. lia.
    + intros x. rewrite !elem_of_cons, Hel.
      rewrite Forall_forall in Hy.
      split.
      * intros [->|[Hx ?]]; [by split; [left|]|].
        split; [by right|]. specialize (Hy x Hx). lia.
      * intros [[->|Hx] ?]; [by left|].
        destruct (decide (x = y)) as [->|?]; [by left|by right].
Qed.

Lemma unique_sorted l :
  StronglySorted Z.le l →
  StronglySorted Z.lt (unique l) ∧ ∀ x, x ∈ unique l ↔ x ∈ l.
Proof.
  destruct l as [|y l]; intros Hsorted; cbn [unique].
  { split; [constructor|done]. }
  apply StronglySorted_inv in Hsorted as [Hsorted Hy].
  destruct (unique_after_spec l y Hsorted Hy) as (Hs & Hgt & Hel).
  split; [by constructor|].
  intros x. rewrite !elem_of_cons, Hel.
  destruct (decide (x = y)); tauto.
Qed.

(** The values of [array[0 .. size)], sorted and without repetition. *)
Lemma unique_values_spec l :
  StronglySorted Z.lt (unique (sort l)) ∧ ∀ x, x ∈ unique (sort l) ↔ x ∈ l.
Proof.
  destruct (unique_sorted (sort l) (sort_sorted l)) as [Hs Hel].
  split; [done|]. intros x. by rewrite Hel, elem_of_sort.
Qed.

Lemma lower_bound_index u :
  StronglySorted Z.lt u →
  ∀ i v, u !! i = Some v → lower_bound u v = Z.of_nat i.
Proof.
  induction 1 as [|x u _ IH Hx]; intros i v Hv; [done|].
  cbn [lower_bound]. destruct i as [|i]; cbn in Hv.
  - simplify_eq. by rewrite decide_False by lia.
  - rewrite Forall_forall in Hx.
    rewrite decide_True by (apply Hx; by eapply list_elem_of_lookup_2).
    rewrite (IH i v Hv). lia.
Qed.

Lemma sorted_lookup_lt u :
  StronglySorted Z.lt u →
  ∀ i j v w, u !! i = Some v → u !! j = Some w → (i < j)%nat → v < w.
Proof.
  induction 1 as [|x u _ IH Hx]; intros i j v w Hv Hw Hij; [done|].
  destruct j as [|j]; [lia|]. cbn in Hw.
  destruct i as [|i]; cbn in Hv.
  - simplify_eq. rewrite Forall_forall in Hx.
    apply Hx. by eapply list_elem_of_lookup_2.
  - apply (IH i j); [done..|lia].
Qed.

Lemma sorted_lookup_iff u i j v w :
  StronglySorted Z.lt u → u !! i = Some v → u !! j = Some w →
  v < w ↔ (i < j)%nat.
Proof.
  intros Hs Hv Hw. split; [|by apply (sorted_lookup_lt u Hs)].
  intros Hlt. destruct (Nat.lt_trichotomy i j) as [?|[->|Hji]]; [done|..].
  - simplify_eq. lia.
  - pose proof (sorted_lookup_lt u Hs j i w v Hw Hv Hji). lia.
Qed.

Lemma sorted_NoDup u : StronglySorted Z.lt u → NoDup u.
Proof.
  induction 1 as [|x u _ IH Hx]; constructor; [|done].
  rewrite Forall_forall in Hx. intros Hin%Hx. lia.
Qed.

Lemma sorted_lt_le u : StronglySorted Z.lt u → StronglySorted Z.le u.
Proof.
  induction 1 as [|x u _ IH Hx]; constructor; [done|].
  eapply Forall_impl; [exact Hx|]. intros y ?. cbn in *. lia.
Qed.

Lemma sorted_seqZ n : StronglySorted Z.lt (seqZ 0 (Z.of_nat n)).
Proof.
  assert (∀ m, StronglySorted Z.lt (seqZ m (Z.of_nat n))) as H; [|done].
  induction n as [|n IH]; intros m; [constructor|].
  rewrite seqZ_cons by lia.
  replace (Z.pred (Z.of_nat (S n))) with (Z.of_nat n) by lia.
  constructor; [done|]. apply Forall_forall.
  intros x Hx%elem_of_seqZ. lia.
Qed.

(** A strictly ascending list that holds exactly [0 .. k) is that
    range. *)
Lemma sorted_range u k :
  StronglySorted Z.lt u →
  (∀ x, x ∈ u ↔ 0 ≤ x < Z.of_nat k) →
  u = seqZ 0 (Z.of_nat k).
Proof.
  intros Hs Hel.
  apply (@StronglySorted_unique Z Z.le _).
  - by apply sorted_lt_le.
  - apply sorted_lt_le, sorted_seqZ.
  - apply NoDup_Permutation.
    + by apply sorted_NoDup.
    + apply sorted_NoDup, sorted_seqZ.
    + intros x. rewrite Hel, elem_of_seqZ. lia.
Qed.

Lemma lower_bound_range k v :
  0 ≤ v < Z.of_nat k → lower_bound (seqZ 0 (Z.of_nat k)) v = v.
Proof.
  intros Hv.
  rewrite (lower_bound_index _ (sorted_seqZ k) (Z.to_nat v) v); [lia|].
  rewrite lookup_seqZ_lt by lia. f_equal. lia.
Qed.

(** The image of the values under [lower_bound]. *)
Lemma image_spec (l : list Z) v :
  v ∈ lower_bound (unique (sort l)) <$> l
  ↔ 0 ≤ v < Z.of_nat (length (unique (sort l))).
Proof.
  destruct (unique_values_spec l) as [Hs Hel].
  rewrite list_elem_of_fmap. split.
  - intros (x & -> & Hx). apply Hel in Hx.
    apply list_elem_of_lookup in Hx as [i Hi].
    rewrite (lower_bound_index _ Hs i x Hi).
    apply lookup_lt_Some in Hi. lia.
  - intros Hv.
    destruct (lookup_lt_is_Some_2 (unique (sort l)) (Z.to_nat v))
      as [x Hx]; [lia|].
    exists x. split.
    + rewrite (lower_bound_index _ Hs _ x Hx). lia.
    + apply Hel. by eapply list_elem_of_lookup_2.
Qed.

Lemma distinct_count (l : list Z) :
  length (unique (sort l)) = length (remove_dups l).
Proof.
  destruct (unique_values_spec l) as [Hs Hel].
  apply Permutation_length, NoDup_Permutation.
  - by apply sorted_NoDup.
  - apply NoDup_remove_dups.
  - intros x. by rewrite Hel, elem_of_remove_dups.
Qed.
Lemma unique_values_length (l : list Z) :
  (length (unique (sort l)) ≤ length l)%nat.
Proof.
  destruct (unique_values_spec l) as [Hs Hel].
  apply submseteq_length, NoDup_submseteq; [by apply sorted_NoDup|].
  intros x. by rewrite Hel.
Qed.

Lemma to_int_small d : - 2 ^ 31 ≤ d < 2 ^ 31 → to_int d = d.
Proof.
  intros Hd. unfold to_int.
  rewrite Z.mod_small by lia. lia.
Qed.

(** With at most [2^31] entries every label fits an [int]. *)
Lemma MapValues_result_small size (a : list Z) :
  0 ≤ size ≤ Z.of_nat (length a) → size ≤ 2 ^ 31 →
  MapValuesToContiguousRange size a
  = Some ((lower_bound (unique (sort (take (Z.to_nat size) a)))
             <$> take (Z.to_nat size) a)
          ++ drop (Z.to_nat size) a).
Proof.
  intros Hsize Hsmall. rewrite MapValues_result by done.
  do 2 f_equal. apply list_eq. intros i. rewrite !list_lookup_fmap.
  destruct (take (Z.to_nat size) a !! i) as [v|] eqn:Hv; [|done].
  cbn. f_equal. apply to_int_small.
  pose proof (unique_values_length (take (Z.to_nat size) a)) as Hlen.
  rewrite length_take in Hlen.
  assert (0 ≤ lower_bound (unique (sort (take (Z.to_nat size) a))) v
          < Z.of_nat (length (unique (sort (take (Z.to_nat size) a)))))
    as Hlabel.
  { apply image_spec. apply list_elem_of_fmap. exists v.
    split; [done|]. by eapply list_elem_of_lookup_2. }
  lia.
Qed.
End MapValuesFacts.

(** X14: on an array of at least [size] values
    [MapValuesToContiguousRange] keeps the length and every entry from
    index [size] on, and relabels the first [size] entries in an
    order-preserving way: two entries compare after the call as they
    did before it, so equal values get equal labels and different
    values different ones. *)
Theorem MapValuesToContiguousRange_preserves_order size (a : list Z) :
  0 ≤ size ≤ Z.of_nat (length a) → size ≤ 2 ^ 31 →
  ∃ a',
    ArrayUtils.MapValuesToContiguousRange size a = Some a' ∧
    length a' = length a ∧
    drop (Z.to_nat size) a' = drop (Z.to_nat size) a ∧
    ∀ i j x y x' y',
      (i < Z.to_nat size)%nat → (j < Z.to_nat size)%nat →
      a !! i = Some x → a !! j = Some y →
      a' !! i = Some x' → a' !! j = Some y' →
      (x < y ↔ x' < y') ∧ (x = y ↔ x' = y').
Proof.
  intros Hsize Hsmall. eexists.
  split; [by apply MapValuesFacts.MapValues_result_small|].
  set (n := Z.to_nat size). set (l := take n a).
  set (u := ArrayUtils.unique (ArrayUtils.sort l)).
  assert (length (ArrayUtils.lower_bound u <$> l) = n) as Hlen
    by (rewrite length_fmap; unfold l; rewrite length_take; lia).
  destruct (MapValuesFacts.unique_values_spec l) as [Hs Hel].
  fold u in Hs, Hel.
  split_and!.
  - rewrite length_app, Hlen, length_drop. lia.
  - by rewrite drop_app_length'.
  - assert (∀ i x x', (i < n)%nat → a !! i = Some x →
              ((ArrayUtils.lower_bound u <$> l) ++ drop n a) !! i = Some x' →
              ∃ p, u !! p = Some x ∧ x' = Z.of_nat p) as Hlabel.
    { intros i x x' Hi Hx Hx'.
      rewrite lookup_app_l in Hx' by lia.
      rewrite list_lookup_fmap in Hx'. unfold l in Hx'.
      rewrite lookup_take_lt, Hx in Hx' by done. cbn in Hx'.
      assert (x ∈ u) as [p Hp]%list_elem_of_lookup.
      { apply Hel. apply elem_of_take. by exists i. }
      exists p. split; [done|].
      rewrite (MapValuesFacts.lower_bound_index u Hs p x Hp) in Hx'.
      congruence. }
    intros i j x y x' y' Hi Hj Hx Hy Hx' Hy'.
    destruct (Hlabel i x x' Hi Hx Hx') as (p & Hp & ->).
    destruct (Hlabel j y y' Hj Hy Hy') as (q & Hq & ->).
    pose proof (MapValuesFacts.sorted_lookup_iff u p q x y Hs Hp Hq).
    pose proof (MapValuesFacts.sorted_lookup_iff u q p y x Hs Hq Hp).
    lia.
Qed.

Lemma MapValuesToContiguousRange_preserves_order_witness :
  ∃ a',
    ArrayUtils.MapValuesToContiguousRange 4 [30; -7; 30; 12; 99] = Some a' ∧
    length a' = length [30; -7; 30; 12; 99] ∧
    drop (Z.to_nat 4) a' = drop (Z.to_nat 4) [30; -7; 30; 12; 99] ∧
    ∀ i j x y x' y',
      (i < Z.to_nat 4)%nat → (j < Z.to_nat 4)%nat →
      [30; -7; 30; 12; 99] !! i = Some x →
      [30; -7; 30; 12; 99] !! j = Some y →
      a' !! i = Some x' → a' !! j = Some y' →
      (x < y ↔ x' < y') ∧ (x = y ↔ x' = y').
Proof.
  apply (MapValuesToContiguousRange_preserves_order 4 [30; -7; 30; 12; 99]).
  - cbn. lia.
  - lia.
Defined.

(** X15: after [MapValuesToContiguousRange] the first [size] entries
    hold exactly the labels [0, 1, ..., k - 1], each of them at least
    once, where [k] is the number of distinct values those entries held
    before the call. *)
Theorem MapValuesToContiguousRange_fills_range size (a : list Z) :
  0 ≤ size ≤ Z.of_nat (length a) → size ≤ 2 ^ 31 →
  ∃ a',
    ArrayUtils.MapValuesToContiguousRange size a = Some a' ∧
    ∀ v, v ∈ take (Z.to_nat size) a'
         ↔ 0 ≤ v < Z.of_nat (length (remove_dups (take (Z.to_nat size) a))).
Proof.
  intros Hsize Hsmall. eexists.
  split; [by apply MapValuesFacts.MapValues_result_small|].
  intros v.
  rewrite take_app_length'
    by (rewrite length_fmap, length_take; lia).
  by rewrite MapValuesFacts.image_spec, MapValuesFacts.distinct_count.
Qed.

Lemma MapValuesToContiguousRange_fills_range_witness :
  ∃ a',
    ArrayUtils.MapValuesToContiguousRange 4 [30; -7; 30; 12; 99] = Some a' ∧
    ∀ v, v ∈ take (Z.to_nat 4) a'
         ↔ 0 ≤ v < Z.of_nat (length (remove_dups
                                       (take (Z.to_nat 4)
                                          [30; -7; 30; 12; 99]))).
Proof.
  apply (MapValuesToContiguousRange_fills_range 4 [30; -7; 30; 12; 99]).
  - cbn. lia.
  - lia.
Defined.

(** X16: [MapValuesToContiguousRange] is idempotent: a second call with
    the same [size] on the array the first call produced changes
    nothing. *)
Theorem MapValuesToContiguousRange_idempotent size (a : list Z) :
  0 ≤ size ≤ Z.of_nat (length a) → size ≤ 2 ^ 31 →
  ∃ a',
    ArrayUtils.MapValuesToContiguousRange size a = Some a' ∧
    ArrayUtils.MapValuesToContiguousRange size a' = Some a'.
Proof.
  intros Hsize Hsmall. eexists.
  split; [by apply MapValuesFacts.MapValues_result_small|].
  set (n := Z.to_nat size). set (l := take n a).
  set (u := ArrayUtils.unique (ArrayUtils.sort l)).
  set (l' := ArrayUtils.lower_bound u <$> l).
  assert (length l' = n) as Hlen
    by (unfold l', l; rewrite length_fmap, length_take; lia).
  rewrite MapValuesFacts.MapValues_result_small
    by (rewrite ?length_app, ?Hlen, ?length_drop; lia).
  fold n. rewrite take_app_length', drop_app_length' by done.
  do 2 f_equal.
  destruct (MapValuesFacts.unique_values_spec l') as [Hs' Hel'].
  rewrite (MapValuesFacts.sorted_range _ (length u) Hs').
  2: { intros x. rewrite Hel'. apply MapValuesFacts.image_spec. }
  apply list_eq. intros i. rewrite list_lookup_fmap.
  destruct (l' !! i) as [v|] eqn:Hv; [|done]. cbn. f_equal.
  apply MapValuesFacts.lower_bound_range.
  apply MapValuesFacts.image_spec. by eapply list_elem_of_lookup_2.
Qed.

Lemma MapValuesToContiguousRange_idempotent_witness :
  ∃ a',
    ArrayUtils.MapValuesToContiguousRange 4 [30; -7; 30; 12; 99] = Some a' ∧
    ArrayUtils.MapValuesToContiguousRange 4 a' = Some a'.
Proof.
  apply (MapValuesToContiguousRange_idempotent 4 [30; -7; 30; 12; 99]).
  - cbn. lia.
  - lia.
Defined.

(** ** The dynamic functor of [cost_function_to_functor_test.cc] *)

Module TestFunctorFacts.
(** On two residuals only the last round of the loop shows. *)
Lemma functor_last_round U (SU : Scalar U) (x : list (list U)) a b :
  DynamicTwoParameterBlockFunctor U SU x [a; b]
  = (true, [s_mul (get s_zero (get [] x 1) 0) (get s_zero (get [] x 1) 0);
            s_mul (get s_zero (get [] x 1) 1) (get s_zero (get [] x 1) 1)]).
Proof. reflexivity. Qed.

Lemma functor_consistent {T} `{Scalar T} :
  consistent (instantiate (T:=T) DynamicTwoParameterBlockFunctor) 2
             DynamicTwoParameterBlockFunctor_value.
Proof.
  split.
  - intros x r [= <-]. done.
  - intros x [|a [|b [|]]] r Hlen [= <-]; done.
  - intros Stride blocks [|a [|b [|]]] r _ Hlen [= <-]; try done.
    unfold instantiate, call_jet. rewrite functor_last_round.
    split; [done|]. cbn. by rewrite !get_primal.
Qed.

Lemma functor_differentiates {T} `{Scalar T} :
  differentiates (instantiate (T:=T) DynamicTwoParameterBlockFunctor) 2
                 DynamicTwoParameterBlockFunctor_partial.
Proof.
  split. intros Stride blocks outputs d p k out Hlen Hout Hd Hp Hhot Hk.
  destruct outputs as [|o0 [|o1 [|]]]; try done.
  assert (∀ i kk, 0 ≤ i → 0 ≤ kk →
    let x := get (jet_of_scalar Stride s_zero) (get [] blocks i) kk in
    jet_v (jet_mul x x) !! d =
      Some (s_add (s_mul (get s_zero (get [] (primal <$> blocks) i) kk)
                         (seed_of (primal <$> blocks) i kk p))
                  (s_mul (seed_of (primal <$> blocks) i kk p)
                         (get s_zero (get [] (primal <$> blocks) i) kk))))
    as Hterm.
  { intros i kk Hi Hkk x.
    pose proof (get_seed Stride blocks d p i kk Hlen Hd Hi Hkk Hhot) as Hseed.
    fold x in Hseed. rewrite (jet_mul_lookup x x d _ _ Hseed Hseed).
    subst x. by rewrite !get_primal. }
  unfold instantiate, call_jet in Hk. rewrite functor_last_round in Hk.
  cbn in Hk. unfold DynamicTwoParameterBlockFunctor_partial.
  destruct k as [|[|k]]; cbn in Hk; [| |done]; injection Hk as <-.
  - apply Hterm; lia.
  - apply Hterm; lia.
Qed.

Lemma partial_first_block {T} `{Scalar T} (x1 x1' x2 : list T) k p :
  length x1 = length x1' →
  DynamicTwoParameterBlockFunctor_partial [x1; x2] k p
  = DynamicTwoParameterBlockFunctor_partial [x1'; x2] k p.
Proof.
  intros Hlen. unfold DynamicTwoParameterBlockFunctor_partial, seed_of, get.
  change (Z.to_nat 1) with 1%nat. cbn [lookup list_lookup take concat default].
  change (take 1 [x1; x2]) with [x1]. change (take 1 [x1'; x2]) with [x1'].
  cbn [concat]. by rewrite !length_app, Hlen.
Qed.
End TestFunctorFacts.

(** X17: the cost function the test builds from
    [DynamicTwoParameterBlockFunctor] (two blocks of two parameters, two
    residuals) returns [true] with the squares of the second block as
    residuals, for every stride below [2^24] and every Jacobian
    request; the first block has no influence on the residuals or on
    the Jacobian buffers, because the loop of the functor overwrites
    what it stored for it. *)
Theorem dynamic_test_functor_ignores_first_block {T} `{Scalar T} Stride
    (x1 x1' x2 residuals : list T) (slot1 slot2 : option (list T)) :
  0 < Stride < 2 ^ 24 →
  length x1 = 2%nat → length x1' = 2%nat → length x2 = 2%nat →
  length residuals = 2%nat →
  (∀ b, slot1 = Some b → length b = 4%nat) →
  (∀ b, slot2 = Some b → length b = 4%nat) →
  ∃ jac,
    (Evaluate (instantiate DynamicTwoParameterBlockFunctor) Stride [2; 2] 2
              [x1; x2] residuals (Some [slot1; slot2])).1
    = Returned true [s_mul (get s_zero x2 0) (get s_zero x2 0);
                     s_mul (get s_zero x2 1) (get s_zero x2 1)] jac ∧
    (Evaluate (instantiate DynamicTwoParameterBlockFunctor) Stride [2; 2] 2
              [x1'; x2] residuals (Some [slot1; slot2])).1
    = Returned true [s_mul (get s_zero x2 0) (get s_zero x2 0);
                     s_mul (get s_zero x2 1) (get s_zero x2 1)] jac.
Proof.
  intros HS Hx1 Hx1' Hx2 Hres Hb1 Hb2.
  set (f := instantiate DynamicTwoParameterBlockFunctor).
  set (r := [s_mul (get s_zero x2 0) (get s_zero x2 0);
             s_mul (get s_zero x2 1) (get s_zero x2 1)]).
  assert (Forall (λ size, 0 < size) [2; 2]) as Hpos
    by (repeat constructor; lia).
  assert (buffers_sized [2; 2] 2 [slot1; slot2]) as Hsized.
  { intros [|[|i]] b Hb; simplify_eq/=; [by apply Hb1|by apply Hb2]. }
  assert (∀ y : list T, length y = 2%nat → well_formed [2; 2] [y; x2]) as Hwf.
  { intros y Hy. repeat constructor; lia. }
  assert (count_active (active [slot1; slot2]) (index_space 0 [2; 2]) ≤ 4)
    as Hcount.
  { pose proof (count_active_le (active [slot1; slot2])
                  (index_space 0 [2; 2])) as Hle.
    rewrite length_index_space in Hle by done. cbn [foldr] in Hle. lia. }
  assert (∀ y : list T, length y = 2%nat →
    num_active_parameters (discovery_walk Stride [2; 2] [y; x2] [slot1; slot2])
    = count_active (active [slot1; slot2]) (index_space 0 [2; 2])) as Hn.
  { intros y Hy. unfold discovery_walk. rewrite discover_active; [done|].
    repeat constructor; lia. }
  destruct (decide (count_active (active [slot1; slot2])
                      (index_space 0 [2; 2]) = 0)) as [Hzero|Hactive].
  { exists (Some [slot1; slot2]). unfold Evaluate. cbn [Z.ltb Z.compare negb].
    rewrite !bool_decide_eq_true_2 by (rewrite Hn; done).
    destruct residuals as [|a [|b [|]]]; try done. }
  pose proof (count_active_nonneg (active [slot1; slot2])
                (index_space 0 [2; 2])) as Hnonneg.
  assert (∀ y : list T, length y = 2%nat →
    ∃ jac log,
      Evaluate f Stride [2; 2] 2 [y; x2] residuals (Some [slot1; slot2])
        = (Returned true r (Some jac), log) ∧
      shape jac = shape [slot1; slot2] ∧
      jacobian_done (DynamicTwoParameterBlockFunctor_partial [y; x2]) [2; 2] 2
                    (index_space 0 [2; 2]) jac) as Heval.
  { intros y Hy.
    pose proof (ceil_div_spec
                  (count_active (active [slot1; slot2]) (index_space 0 [2; 2]))
                  Stride ltac:(lia)) as Hk.
    apply (Evaluate_jacobian f DynamicTwoParameterBlockFunctor_value DynamicTwoParameterBlockFunctor_partial
             [2; 2] 2 [y; x2] residuals r [slot1; slot2]
             TestFunctorFacts.functor_consistent
             TestFunctorFacts.functor_differentiates (Hwf y Hy) eq_refl
             Hpos ltac:(lia) Hres Hsized Stride
             (ceil_div (count_active (active [slot1; slot2])
                          (index_space 0 [2; 2])) Stride));
      cbn zeta; rewrite ?(Hn y Hy); [lia|done| |lia].
    apply num_strides_exact; lia. }
  destruct (Heval x1 Hx1) as (jac1 & log1 & -> & Hs1 & Hd1).
  destruct (Heval x1' Hx1') as (jac2 & log2 & -> & Hs2 & Hd2).
  exists (Some jac1). split; [done|]. cbn [fst]. do 2 f_equal.
  symmetry.
  eapply (jacobian_done_unique (DynamicTwoParameterBlockFunctor_partial [x1; x2]) [2; 2] 2
            [slot1; slot2]); try done.
  intros n i j b k Hn' Hb Hk.
  rewrite (TestFunctorFacts.partial_first_block x1 x1' x2) by congruence.
  by apply Hd2.
Qed.

Lemma dynamic_test_functor_ignores_first_block_witness :
  ∃ jac,
    (Evaluate (instantiate DynamicTwoParameterBlockFunctor) 4 [2; 2] 2
              [[1; 2]; [3; 4]]%float [7; 7]%float
              (Some [Some [9; 9; 9; 9]; Some [9; 9; 9; 9]]%float)).1
    = Returned true [9; 16]%float jac ∧
    (Evaluate (instantiate DynamicTwoParameterBlockFunctor) 4 [2; 2] 2
              [[5; 6]; [3; 4]]%float [7; 7]%float
              (Some [Some [9; 9; 9; 9]; Some [9; 9; 9; 9]]%float)).1
    = Returned true [9; 16]%float jac.
Proof.
  assert (0 < 4 < 2 ^ 24) as HS by lia.
  assert (∀ b, Some [9; 9; 9; 9]%float = Some b → length b = 4%nat) as Hb
    by (by intros b [= <-]).
  exact (dynamic_test_functor_ignores_first_block 4 [1; 2]%float [5; 6]%float
           [3; 4]%float [7; 7]%float (Some [9; 9; 9; 9]%float)
           (Some [9; 9; 9; 9]%float) HS eq_refl eq_refl eq_refl eq_refl
           Hb Hb).
Defined.

(** ** Ownership of the functor *)

Module LifetimeFacts.
Import Lifetime.

Lemma given_flag (g : list (nat * Ownership)) p o1 o2 :
  NoDup g.*1 → (p, o1) ∈ g → (p, o2) ∈ g → o1 = o2.
Proof.
  intros Hnd [i Hi]%list_elem_of_lookup [j Hj]%list_elem_of_lookup.
  assert (i = j) as ->; [|congruence].
  apply (NoDup_lookup _ i j p Hnd); by rewrite list_lookup_fmap, ?Hi, ?Hj.
Qed.

Lemma holds_set_object σ c t c' p o :
  holds (set_object c t σ) c' p o
  ↔ (c' = c ∧ t = mkCostFunction (Some p) o) ∨ (c' ≠ c ∧ holds σ c' p o).
Proof.
  unfold holds, set_object. cbn [objects].
  destruct (decide (c' = c)) as [->|Hne].
  - rewrite lookup_insert_eq. split; [intros [= ->]; by left|].
    intros [[_ ->]|[? _]]; done.
  - rewrite lookup_insert_ne by done. split; [by right|].
    intros [[? _]|[_ ?]]; done.
Qed.

Lemma holds_log σ what address c p o :
  holds (log σ what address) c p o ↔ holds σ c p o.
Proof. done. Qed.

Lemma deleted_log σ what address :
  (deleted (log σ what address)).*1
  = (deleted σ).*1 ++ match address with Some p => [p] | None => [] end.
Proof. unfold log. cbn [deleted]. rewrite fmap_app. by destruct address. Qed.

Lemma invariant_initial : invariant [] initial.
Proof.
  assert (∀ c p o, ¬ holds initial c p o) as Hdead.
  { intros c p o Hc. unfold holds, initial in Hc. cbn in Hc.
    by rewrite lookup_empty in Hc. }
  split.
  - constructor.
  - intros c p o Hc. by destruct (Hdead c p o).
  - intros c1 c2 p o1 o2 Hc. by destruct (Hdead c1 p o1).
  - intros c p o Hc. by destruct (Hdead c p o).
  - constructor.
  - intros p Hp. by apply elem_of_nil in Hp.
  - intros p Hp. by apply elem_of_nil in Hp.
  - intros p Hp. by apply elem_of_nil in Hp.
Qed.

Lemma invariant_construct g σ c functor ownership :
  invariant g σ → objects σ !! c = None →
  NoDup (g ++ given [Construct c functor ownership]).*1 →
  invariant (g ++ given [Construct c functor ownership])
            (set_object c (construct functor ownership) σ).
Proof.
  intros [Hg Hhg Hho Hha Hdo Hdg Hdes Hkept] Hfresh Hnd.
  assert (∀ p o, ¬ holds σ c p o) as Hdead.
  { intros p o Hc. unfold holds in Hc. congruence. }
  assert (∀ c' p o,
    holds (set_object c (construct functor ownership) σ) c' p o
    ↔ (c' = c ∧ functor = Some p ∧ ownership = o) ∨ holds σ c' p o)
    as Hholds.
  { intros c' p o. rewrite holds_set_object. unfold construct. split.
    - intros [[-> [= -> ->]]|[_ ?]]; [by left|by right].
    - intros [(-> & -> & ->)|Hc]; [by left|].
      right. split; [|done]. intros ->. by apply (Hdead p o). }
  assert (given [Construct c functor ownership]
          = match functor with Some p => [(p, ownership)] | None => [] end)
    as Hgiven by (destruct functor; done).
  rewrite Hgiven in *. clear Hgiven.
  split.
  - done.
  - intros c' p o [(-> & -> & ->)|Hc]%Hholds.
    + apply elem_of_app. right. by apply list_elem_of_singleton.
    + apply elem_of_app. left. by eapply Hhg.
  - rewrite fmap_app in Hnd. apply NoDup_app in Hnd as (_ & Hnew & _).
    intros c1 c2 p o1 o2 [(-> & -> & ->)|H1]%Hholds
      [(-> & Hf & ->)|H2]%Hholds; [done| | |by eapply Hho].
    + exfalso. apply (Hnew p).
      * apply list_elem_of_fmap. exists (p, o2). split; [done|]. by eapply Hhg.
      * cbn. by apply list_elem_of_singleton.
    + subst functor. exfalso. apply (Hnew p).
      * apply list_elem_of_fmap. exists (p, o1). split; [done|]. by eapply Hhg.
      * cbn. by apply list_elem_of_singleton.
  - rewrite fmap_app in Hnd. apply NoDup_app in Hnd as (_ & Hnew & _).
    intros c' p o [(-> & -> & ->)|Hc]%Hholds; cbn [set_object deleted].
    + intros Hdel%Hdg. apply (Hnew p Hdel). cbn.
      by apply list_elem_of_singleton.
    + by eapply Hha.
  - done.
  - intros p Hp%Hdg. rewrite fmap_app. apply elem_of_app. by left.
  - intros p Hp%Hdes. apply elem_of_app. by left.
  - intros p [Hp|Hp]%elem_of_app.
    + destruct (Hkept p Hp) as [?|[c' Hc]]; [by left|].
      right. exists c'. apply Hholds. by right.
    + right. exists c. apply Hholds. left.
      destruct functor as [q|]; [|by apply elem_of_nil in Hp].
      apply list_elem_of_singleton in Hp. by simplify_eq.
Qed.

Lemma invariant_move_construct g σ c other o :
  invariant g σ → objects σ !! c = None → objects σ !! other = Some o →
  invariant g
    (set_object c (move_construct o).1 (set_object other (move_construct o).2 σ)).
Proof.
  intros [Hg Hhg Hho Hha Hdo Hdg Hdes Hkept] Hfresh Hother.
  assert (c ≠ other) as Hne by congruence.
  destruct o as [f fl]. cbn [move_construct fst snd functor_ ownership_].
  assert (∀ c' p o',
    holds (set_object c (mkCostFunction f fl)
             (set_object other (mkCostFunction None fl) σ)) c' p o'
    ↔ (c' = c ∧ holds σ other p o') ∨
      (c' ≠ c ∧ c' ≠ other ∧ holds σ c' p o')) as Hholds.
  { intros c' p o'. rewrite !holds_set_object. unfold holds. rewrite Hother.
    split.
    - intros [[-> [= -> ->]]|[? [[_ [=]]|[? ?]]]]; [by left|by right].
    - intros [[-> [= -> ->]]|(? & ? & ?)]; [by left|].
      right. split; [done|]. by right. }
  split; cbn [set_object deleted]; try done.
  - intros c' p o' [[_ Hc]|(_ & _ & Hc)]%Hholds; by eapply Hhg.
  - intros c1 c2 p o1 o2 [[-> H1]|(? & ? & H1)]%Hholds
      [[-> H2]|(? & ? & H2)]%Hholds; [done| | |by eapply Hho].
    + by pose proof (Hho _ _ _ _ _ H1 H2).
    + by pose proof (Hho _ _ _ _ _ H1 H2).
  - intros c' p o' [[_ Hc]|(_ & _ & Hc)]%Hholds; by eapply Hha.
  - intros p Hp. destruct (Hkept p Hp) as [?|[c' Hc]]; [by left|].
    right. destruct (decide (c' = other)) as [->|Hc'].
    + exists c. apply Hholds. by left.
    + exists c'. apply Hholds. right. split_and!; [|done..].
      intros ->. unfold holds in Hc. congruence.
Qed.

Lemma invariant_move_assign g σ c other this o :
  invariant g σ → objects σ !! c = Some this → objects σ !! other = Some o →
  c ≠ other →
  invariant g
    (log (set_object c (move_assign this o).1.1
            (set_object other (move_assign this o).1.2 σ))
         MoveAssignment (move_assign this o).2).
Proof.
  intros [Hg Hhg Hho Hha Hdo Hdg Hdes Hkept] Hthis Hother Hne.
  destruct o as [f fl], this as [ft flt].
  cbn [move_assign fst snd functor_ ownership_].
  set (σ' := set_object c (mkCostFunction f fl)
               (set_object other (mkCostFunction None fl) σ)).
  assert (∀ c' p o',
    holds σ' c' p o'
    ↔ (c' = c ∧ holds σ other p o') ∨
      (c' ≠ c ∧ c' ≠ other ∧ holds σ c' p o')) as Hholds.
  { intros c' p o'. unfold σ'. rewrite !holds_set_object. unfold holds.
    rewrite Hother. split.
    - intros [[-> [= -> ->]]|[? [[_ [=]]|[? ?]]]]; [by left|by right].
    - intros [[-> [= -> ->]]|(? & ? & ?)]; [by left|].
      right. split; [done|]. by right. }
  assert (∀ c' p o', holds σ' c' p o' → ∃ c0, c0 ≠ c ∧ holds σ c0 p o')
    as Hbefore.
  { intros c' p o' [[-> Hc]|(? & ? & Hc)]%Hholds; [by exists other|].
    by exists c'. }
  assert (∀ q, ft = Some q → holds σ c q flt) as Hgone.
  { intros q ->. done. }
  split.
  - done.
  - intros c' p o' (c0 & _ & Hc)%Hbefore. by eapply Hhg.
  - intros c1 c2 p o1 o2 [[-> H1]|(? & ? & H1)]%Hholds
      [[-> H2]|(? & ? & H2)]%Hholds; [done| | |by eapply Hho].
    + by pose proof (Hho _ _ _ _ _ H1 H2).
    + by pose proof (Hho _ _ _ _ _ H1 H2).
  - intros c' p o' (c0 & Hc0 & Hc)%Hbefore. rewrite deleted_log.
    intros [Hdel|Hdel]%elem_of_app; [by eapply Hha|].
    destruct ft as [q|]; [|by apply elem_of_nil in Hdel].
    apply list_elem_of_singleton in Hdel as ->.
    apply Hc0. symmetry. eapply Hho; [by apply Hgone|done].
  - rewrite deleted_log. destruct ft as [q|]; [|by rewrite app_nil_r].
    apply NoDup_app. split_and!; [done| |apply NoDup_singleton].
    intros p Hp ->%list_elem_of_singleton.
    eapply Hha; [by apply Hgone|done].
  - intros p. rewrite deleted_log.
    intros [Hdel|Hdel]%elem_of_app; [by apply Hdg|].
    destruct ft as [q|]; [|by apply elem_of_nil in Hdel].
    apply list_elem_of_singleton in Hdel as ->.
    apply list_elem_of_fmap. exists (q, flt). split; [done|].
    eapply Hhg. by apply Hgone.
  - intros p. unfold log. cbn [deleted].
    intros [Hdel|Hdel]%elem_of_app; [by apply Hdes|].
    destruct ft as [q|]; [|by apply elem_of_nil in Hdel].
    by apply list_elem_of_singleton in Hdel.
  - intros p Hp. rewrite deleted_log.
    destruct (Hkept p Hp) as [?|[c' Hc]].
    { left. apply elem_of_app. by left. }
    destruct (decide (c' = c)) as [->|Hc'].
    { left. apply elem_of_app. right. unfold holds in Hc.
      rewrite Hthis in Hc. injection Hc as -> ->.
      by apply list_elem_of_singleton. }
    right. destruct (decide (c' = other)) as [->|Hc''].
    + exists c. apply Hholds. by left.
    + exists c'. apply Hholds. by right.
Qed.

Lemma invariant_destroy g σ c this :
  invariant g σ → objects σ !! c = Some this →
  invariant g (log (mkState (delete c (objects σ)) (deleted σ))
                   Destructor (destroy this)).
Proof.
  intros [Hg Hhg Hho Hha Hdo Hdg Hdes Hkept] Hthis.
  set (σ' := mkState (delete c (objects σ)) (deleted σ)).
  assert (∀ c' p o', holds σ' c' p o' ↔ c' ≠ c ∧ holds σ c' p o') as Hholds.
  { intros c' p o'. unfold holds, σ'. cbn [objects].
    destruct (decide (c' = c)) as [->|Hc'].
    - rewrite lookup_delete_eq. split; [done|]. by intros [? _].
    - rewrite lookup_delete_ne by done. split; [done|]. by intros [_ ?]. }
  assert (∀ q, destroy this = Some q → holds σ c q TAKE_OWNERSHIP) as Hgone.
  { intros q Hq. destruct this as [ft [|]]; cbn in Hq; [done|].
    by subst ft. }
  split.
  - done.
  - intros c' p o' [_ Hc]%Hholds. by eapply Hhg.
  - intros c1 c2 p o1 o2 [_ H1]%Hholds [_ H2]%Hholds. by eapply Hho.
  - intros c' p o' [Hc' Hc]%Hholds. rewrite deleted_log.
    intros [Hdel|Hdel]%elem_of_app; [by eapply Hha|].
    destruct (destroy this) as [q|] eqn:Hq; [|by apply elem_of_nil in Hdel].
    apply list_elem_of_singleton in Hdel as ->.
    apply Hc'. eapply Hho; [done|by apply Hgone].
  - rewrite deleted_log.
    destruct (destroy this) as [q|] eqn:Hq; [|by rewrite app_nil_r].
    apply NoDup_app. split_and!; [done| |apply NoDup_singleton].
    intros p Hp ->%list_elem_of_singleton.
    eapply Hha; [by apply Hgone|done].
  - intros p. rewrite deleted_log.
    intros [Hdel|Hdel]%elem_of_app; [by apply Hdg|].
    destruct (destroy this) as [q|] eqn:Hq; [|by apply elem_of_nil in Hdel].
    apply list_elem_of_singleton in Hdel as ->.
    apply list_elem_of_fmap. exists (q, TAKE_OWNERSHIP). split; [done|].
    eapply Hhg. by apply Hgone.
  - intros p. unfold log. cbn [deleted].
    intros [Hdel|Hdel]%elem_of_app; [by apply Hdes|].
    destruct (destroy this) as [q|] eqn:Hq; [|by apply elem_of_nil in Hdel].
    apply list_elem_of_singleton in Hdel. injection Hdel as ->.
    eapply Hhg. by apply Hgone.
  - intros p Hp. rewrite deleted_log.
    destruct (Hkept p Hp) as [?|[c' Hc]].
    { left. apply elem_of_app. by left. }
    destruct (decide (c' = c)) as [->|Hc'].
    + left. apply elem_of_app. right. unfold holds in Hc.
      rewrite Hthis in Hc. injection Hc as ->. cbn.
      by apply list_elem_of_singleton.
    + right. exists c'. by apply Hholds.
Qed.

Lemma given_other s :
  (∀ c functor ownership, s ≠ Construct c functor ownership) →
  given [s] = [].
Proof. intros Hs. destruct s; try done. by destruct (Hs c functor ownership). Qed.

Lemma invariant_step g σ s σ' :
  invariant g σ → step s σ = Some σ' → NoDup (g ++ given [s]).*1 →
  invariant (g ++ given [s]) σ'.
Proof.
  intros Hinv Hstep Hnd. destruct s as [c functor ownership|c other|c other|c].
  - cbn in Hstep. destruct (objects σ !! c) eqn:Hc; [done|].
    injection Hstep as <-. by apply invariant_construct.
  - rewrite given_other, app_nil_r by done.
    cbn in Hstep. destruct (objects σ !! c) eqn:Hc; [done|].
    destruct (objects σ !! other) as [o|] eqn:Ho; [|done].
    injection Hstep as <-. by apply invariant_move_construct.
  - rewrite given_other, app_nil_r by done.
    cbn in Hstep. destruct (objects σ !! c) as [this|] eqn:Hc; [|done].
    destruct (objects σ !! other) as [o|] eqn:Ho; [|done].
    destruct (decide (c = other)) as [->|Hne].
    + by injection Hstep as <-.
    + injection Hstep as <-. by apply invariant_move_assign.
  - rewrite given_other, app_nil_r by done.
    cbn in Hstep. destruct (objects σ !! c) as [this|] eqn:Hc; [|done].
    injection Hstep as <-. by apply invariant_destroy.
Qed.

Lemma run_snoc program s σ :
  run (program ++ [s]) σ = run program σ ≫= step s.
Proof. unfold run. by rewrite foldl_app. Qed.

Lemma given_app program1 program2 :
  given (program1 ++ program2) = given program1 ++ given program2.
Proof. unfold given. by rewrite bind_app. Qed.

Lemma invariant_run program : ∀ σ,
  run program initial = Some σ → NoDup (given program).*1 →
  invariant (given program) σ.
Proof.
  induction program as [|s program IH] using rev_ind; intros σ Hrun Hnd.
  { injection Hrun as <-. apply invariant_initial. }
  rewrite run_snoc in Hrun. rewrite given_app in Hnd |- *.
  destruct (run program initial) as [σ0|] eqn:Hrun0; [|done].
  cbn in Hrun. apply (invariant_step _ σ0); [|done..].
  apply IH; [done|]. rewrite fmap_app in Hnd. by apply NoDup_app in Hnd as [? _].
Qed.

Lemma run_failed program :
  foldl (λ acc s, acc ≫= step s) None program = None.
Proof. by induction program. Qed.

Lemma run_app program1 program2 σ :
  run (program1 ++ program2) σ = run program1 σ ≫= run program2.
Proof.
  unfold run. rewrite foldl_app.
  destruct (foldl _ (Some σ) program1); [done|]. apply run_failed.
Qed.

(** A statement leaves the cost functions it does not name as they
    are. *)
Lemma step_frame s σ σ' c :
  step s σ = Some σ' → ¬ mentions s c → objects σ' !! c = objects σ !! c.
Proof.
  intros Hstep Hc. destruct s as [c' f o|c' other|c' other|c']; cbn in *.
  - destruct (objects σ !! c'); [done|]. injection Hstep as <-.
    cbn. by rewrite lookup_insert_ne.
  - destruct (objects σ !! c'); [done|].
    destruct (objects σ !! other); [|done]. injection Hstep as <-.
    cbn. rewrite !lookup_insert_ne; [done|tauto..].
  - destruct (objects σ !! c'); [|done].
    destruct (objects σ !! other); [|done].
    destruct (decide (c' = other)); injection Hstep as <-; [done|].
    cbn. rewrite !lookup_insert_ne; [done|tauto..].
  - destruct (objects σ !! c'); [|done]. injection Hstep as <-.
    cbn. by rewrite lookup_delete_ne.
Qed.

Lemma run_frame program c : ∀ σ σ',
  run program σ = Some σ' → Forall (λ s, ¬ mentions s c) program →
  objects σ' !! c = objects σ !! c.
Proof.
  induction program as [|s program IH] using rev_ind; intros σ σ' Hrun Hc.
  { by injection Hrun as <-. }
  apply Forall_app in Hc as [Hprogram [Hs _]%Forall_cons].
  rewrite run_snoc in Hrun.
  destruct (run program σ) as [σ0|] eqn:Hrun0; [|done]. cbn in Hrun.
  rewrite (step_frame s σ0 σ' c Hrun Hs). by apply IH.
Qed.
End LifetimeFacts.

(** X18: in a client that hands every functor to one cost function
    only, no functor is deleted twice, whatever the constructions, move
    constructions, move assignments and destructions it performs, in
    whatever order. *)
Theorem functor_never_deleted_twice program σ :
  Lifetime.run program Lifetime.initial = Some σ →
  NoDup (Lifetime.given program).*1 →
  NoDup (Lifetime.deleted σ).*1.
Proof.
  intros Hrun Hnd.
  by destruct (LifetimeFacts.invariant_run program σ Hrun Hnd).
Qed.

Lemma functor_never_deleted_twice_witness :
  ∃ σ,
    Lifetime.run [Lifetime.Construct 0 (Some 10%nat) Lifetime.TAKE_OWNERSHIP;
                  Lifetime.Construct 1 (Some 11%nat)
                    Lifetime.DO_NOT_TAKE_OWNERSHIP;
                  Lifetime.MoveConstruct 2 0;
                  Lifetime.MoveAssign 1 2;
                  Lifetime.Destroy 0; Lifetime.Destroy 1; Lifetime.Destroy 2]
                 Lifetime.initial = Some σ ∧
    NoDup (Lifetime.deleted σ).*1.
Proof.
  eexists. split; [vm_compute; reflexivity|].
  apply (functor_never_deleted_twice
           [Lifetime.Construct 0 (Some 10%nat) Lifetime.TAKE_OWNERSHIP;
            Lifetime.Construct 1 (Some 11%nat)
            Lifetime.DO_NOT_TAKE_OWNERSHIP;
            Lifetime.MoveConstruct 2 0;
            Lifetime.MoveAssign 1 2;
            Lifetime.Destroy 0; Lifetime.Destroy 1; Lifetime.Destroy 2]).
  - vm_compute. reflexivity.
  - apply (bool_decide_unpack _). vm_compute. reflexivity.
Defined.

(** X19: in such a client, once every cost function has been
    destroyed, every functor that was handed over with
    [TAKE_OWNERSHIP] has been deleted: moving a cost function, by
    construction or by assignment, loses no functor. *)
Theorem owned_functor_deleted_at_the_end program σ p :
  Lifetime.run program Lifetime.initial = Some σ →
  NoDup (Lifetime.given program).*1 →
  Lifetime.objects σ = ∅ →
  (p, Lifetime.TAKE_OWNERSHIP) ∈ Lifetime.given program →
  p ∈ (Lifetime.deleted σ).*1.
Proof.
  intros Hrun Hnd Hempty Hp.
  destruct (LifetimeFacts.invariant_run program σ Hrun Hnd)
    as [_ _ _ _ _ _ _ Hkept].
  destruct (Hkept p Hp) as [?|[c Hc]]; [done|].
  unfold Lifetime.holds in Hc. by rewrite Hempty, lookup_empty in Hc.
Qed.

Lemma owned_functor_deleted_at_the_end_witness :
  ∃ σ,
    Lifetime.run [Lifetime.Construct 0 (Some 10%nat) Lifetime.TAKE_OWNERSHIP;
                  Lifetime.Construct 1 (Some 11%nat)
                    Lifetime.DO_NOT_TAKE_OWNERSHIP;
                  Lifetime.MoveConstruct 2 0;
                  Lifetime.Destroy 0; Lifetime.Destroy 1; Lifetime.Destroy 2]
                 Lifetime.initial = Some σ ∧
    10%nat ∈ (Lifetime.deleted σ).*1.
Proof.
  eexists. split; [vm_compute; reflexivity|].
  apply (owned_functor_deleted_at_the_end
           [Lifetime.Construct 0 (Some 10%nat) Lifetime.TAKE_OWNERSHIP;
            Lifetime.Construct 1 (Some 11%nat)
            Lifetime.DO_NOT_TAKE_OWNERSHIP;
            Lifetime.MoveConstruct 2 0;
            Lifetime.Destroy 0; Lifetime.Destroy 1; Lifetime.Destroy 2]).
  - vm_compute. reflexivity.
  - apply (bool_decide_unpack _). vm_compute. reflexivity.
  - vm_compute. reflexivity.
  - apply (bool_decide_unpack _). vm_compute. reflexivity.
Defined.

(** X20: in such a client no destructor deletes a functor that was
    handed over with [DO_NOT_TAKE_OWNERSHIP], also after the cost
    function holding it has been moved: the flag travels with the
    pointer. *)
Theorem destructor_spares_functor_not_owned program σ p :
  Lifetime.run program Lifetime.initial = Some σ →
  NoDup (Lifetime.given program).*1 →
  (p, Lifetime.DO_NOT_TAKE_OWNERSHIP) ∈ Lifetime.given program →
  (p, Lifetime.Destructor) ∉ Lifetime.deleted σ.
Proof.
  intros Hrun Hnd Hp Hdel.
  destruct (LifetimeFacts.invariant_run program σ Hrun Hnd)
    as [_ _ _ _ _ _ Hdes _].
  by pose proof (LifetimeFacts.given_flag _ _ _ _ Hnd Hp (Hdes p Hdel)).
Qed.

Lemma destructor_spares_functor_not_owned_witness :
  ∃ σ,
    Lifetime.run [Lifetime.Construct 0 (Some 10%nat) Lifetime.TAKE_OWNERSHIP;
                  Lifetime.Construct 1 (Some 11%nat)
                    Lifetime.DO_NOT_TAKE_OWNERSHIP;
                  Lifetime.MoveConstruct 2 1;
                  Lifetime.Destroy 0; Lifetime.Destroy 1; Lifetime.Destroy 2]
                 Lifetime.initial = Some σ ∧
    (11%nat, Lifetime.Destructor) ∉ Lifetime.deleted σ.
Proof.
  eexists. split; [vm_compute; reflexivity|].
  apply (destructor_spares_functor_not_owned
           [Lifetime.Construct 0 (Some 10%nat) Lifetime.TAKE_OWNERSHIP;
            Lifetime.Construct 1 (Some 11%nat)
            Lifetime.DO_NOT_TAKE_OWNERSHIP;
            Lifetime.MoveConstruct 2 1;
            Lifetime.Destroy 0; Lifetime.Destroy 1; Lifetime.Destroy 2]).
  - vm_compute. reflexivity.
  - apply (bool_decide_unpack _). vm_compute. reflexivity.
  - apply (bool_decide_unpack _). vm_compute. reflexivity.
Defined.

(** X21: a move assignment onto a cost function deletes the functor
    the target holds also when that functor was handed over with
    [DO_NOT_TAKE_OWNERSHIP], whatever the client did in between with
    other cost functions: the defaulted assignment does not consult
    the flag. *)
Theorem move_assignment_deletes_functor_not_owned before between c other p σ :
  Forall (λ s, ¬ Lifetime.mentions s c) between →
  c ≠ other →
  Lifetime.run
    (before ++ [Lifetime.Construct c (Some p) Lifetime.DO_NOT_TAKE_OWNERSHIP]
            ++ between ++ [Lifetime.MoveAssign c other])
    Lifetime.initial = Some σ →
  (p, Lifetime.MoveAssignment) ∈ Lifetime.deleted σ.
Proof.
  intros Hbetween Hne Hrun.
  rewrite LifetimeFacts.run_app in Hrun.
  destruct (Lifetime.run before Lifetime.initial) as [σ0|]; [|done].
  cbn [mbind option_bind] in Hrun. rewrite LifetimeFacts.run_app in Hrun.
  destruct (Lifetime.run [_] σ0) as [σ1|] eqn:Hconstruct; [|done].
  cbn [mbind option_bind] in Hrun. rewrite LifetimeFacts.run_app in Hrun.
  destruct (Lifetime.run between σ1) as [σ2|] eqn:Hrun2; [|done].
  cbn [mbind option_bind] in Hrun.
  assert (Lifetime.objects σ2 !! c
          = Some (Lifetime.mkCostFunction (Some p)
                    Lifetime.DO_NOT_TAKE_OWNERSHIP)) as Hc.
  { rewrite (LifetimeFacts.run_frame between c σ1 σ2 Hrun2 Hbetween).
    cbn in Hconstruct. destruct (Lifetime.objects σ0 !! c); [done|].
    injection Hconstruct as <-. cbn. by rewrite lookup_insert_eq. }
  cbn in Hrun. rewrite Hc in Hrun.
  destruct (Lifetime.objects σ2 !! other) as [o|]; [|done].
  rewrite decide_False in Hrun by done. injection Hrun as <-.
  cbn. apply elem_of_app. right. by apply list_elem_of_singleton.
Qed.

Lemma move_assignment_deletes_functor_not_owned_witness :
  ∃ σ,
    Lifetime.run
      ([] ++ [Lifetime.Construct 0 (Some 10%nat)
                Lifetime.DO_NOT_TAKE_OWNERSHIP]
          ++ [Lifetime.Construct 1 (Some 11%nat) Lifetime.TAKE_OWNERSHIP]
          ++ [Lifetime.MoveAssign 0 1])
      Lifetime.initial = Some σ ∧
    (10%nat, Lifetime.MoveAssignment) ∈ Lifetime.deleted σ.
Proof.
  eexists. split; [vm_compute; reflexivity|].
  apply (move_assignment_deletes_functor_not_owned
           [] [Lifetime.Construct 1 (Some 11%nat) Lifetime.TAKE_OWNERSHIP]
           0%nat 1%nat 10%nat).
  - repeat constructor. cbn. lia.
  - lia.
  - vm_compute. reflexivity.
Defined.
